(** * MCU dashboard: layout, catalog and loader logic

    A shallow embedding of the pure and stateful logic of the React/d3
    dashboard (McuConnections.tsx, McuTimeline.tsx, McuMoviesReviews,
    RevenueBarChart.tsx) together with the properties its specification
    states about it.

    Conventions.
    - A JavaScript number that holds a pixel coordinate is a rational [Q];
      a number that may be NaN or infinite is an [option Q] with [None] for
      the non-finite values.
    - [Date.getTime()] is an integer number of milliseconds, [Z]; an invalid
      date (time value NaN) is [None].
    - Strings are [string]; [Map<string, _>] is a [gmap string _]; a JS [Set]
      of strings is a duplicate-free list in insertion order.
    - [Array.prototype.sort] is stable; it is modelled by a stable insertion
      sort driven by the sign of the comparator. *)

From Stdlib Require Import Ascii QArith Qabs Qminmax Qround Lqa Sorted.
From stdpp Require Import gmap strings list fin_maps.

(** ** JavaScript helpers *)

Module JS.

Section Sort.
Context {A : Type} (cmp : A -> A -> comparison).

(** [insertSorted x l] puts [x] in front of the first element that does not
    have to precede it, so equal elements keep their input order. *)
Fixpoint insertSorted (x : A) (l : list A) : list A :=
  match l with
  | [] => [x]
  | y :: l' =>
      match cmp x y with
      | Gt => y :: insertSorted x l'
      | _ => x :: y :: l'
      end
  end.

Fixpoint sortBy (l : list A) : list A :=
  match l with
  | [] => []
  | x :: l' => insertSorted x (sortBy l')
  end.

Definition cmpLe (x y : A) : Prop := cmp x y <> Gt.

End Sort.

(** [String.prototype.trim] on strings of 8-bit characters: the white space
    and line terminators below U+0080 are TAB, LF, VT, FF, CR and SP. *)
Definition isWhiteSpace (c : ascii) : bool :=
  let n := nat_of_ascii c in
  ((9 <=? n) && (n <=? 13) || (n =? 32))%nat.

Definition isEmpty (s : string) : bool :=
  match s with
  | EmptyString => true
  | String _ _ => false
  end.

Fixpoint trimStart (s : string) : string :=
  match s with
  | EmptyString => EmptyString
  | String c s' => if isWhiteSpace c then trimStart s' else s
  end.

Fixpoint trimEnd (s : string) : string :=
  match s with
  | EmptyString => EmptyString
  | String c s' =>
      let t := trimEnd s' in
      if isWhiteSpace c && isEmpty t then EmptyString else String c t
  end.

Definition trim (s : string) : string := trimEnd (trimStart s).

(** [String(v)] for a value that is a string or [undefined]. *)
Definition String_ (v : option string) : string := default "undefined" v.

(** [p < q] on finite numbers. *)
Definition Qltb (p q : Q) : bool := negb (Qle_bool q p).

(** [Math.max(lo, Math.min(hi, v))] *)
Definition clamp (v lo hi : Q) : Q := Qmax lo (Qmin hi v).

End JS.

(** ** Data model (McuConnections.tsx, lines 6-33) *)

Inductive ArcSide := top | bottom.
Inductive ArcType := sequel | crossover | carryover.
Inductive FilterMode := all | only (t : ArcType).

#[global] Instance ArcSide_eq_dec : EqDecision ArcSide.
Proof. solve_decision. Defined.
#[global] Instance ArcType_eq_dec : EqDecision ArcType.
Proof. solve_decision. Defined.

(** [type Movie]: [phase] is the number accepted by [parsePhase];
    [releaseDate] is the time value of the [Date] object. *)
Record Movie := {
  id : string;
  title : string;
  phase : Q;
  releaseDate : option Z;
  releaseDateStr : option string;
  posterUrl : option string
}.

(** [type Connection] *)
Module Connection.
Record t := {
  type : ArcType;
  from : string;
  to : string;
  side : option ArcSide;
  label : option string
}.
End Connection.

(** An element of [resolvedAll]:
    [{ ...c, side, a, b, x1, x2, leftX, rightX, span }]. *)
Module Arc.
Record t := {
  conn : Connection.t;
  side : ArcSide;
  a : Movie;
  b : Movie;
  x1 : Q;
  x2 : Q;
  leftX : Q;
  rightX : Q;
  span : Q
}.
End Arc.

(** An element of [arcsWithLane]: [{ ...d, lane }]. *)
Record LanedArc := { arc : Arc.t; lane : nat }.

Definition mkConn (ty : ArcType) (f t : string) (s : ArcSide) : Connection.t :=
  {| Connection.type := ty; Connection.from := f; Connection.to := t;
     Connection.side := Some s; Connection.label := None |}.

Definition CONNECTIONS : list Connection.t := [
  mkConn sequel "Iron Man" "Iron Man 2" top;
  mkConn sequel "Iron Man 2" "Iron Man 3" bottom;
  mkConn crossover "Iron Man 2" "The Avengers" top;
  mkConn sequel "Thor" "Thor: The Dark World" bottom;
  mkConn crossover "Thor" "The Avengers" bottom;
  mkConn sequel "Captain America: The First Avenger" "Captain America: The Winter Soldier" top;
  mkConn crossover "Captain America: The First Avenger" "The Avengers" top;
  mkConn sequel "The Avengers" "Avengers: Age of Ultron" top;
  mkConn carryover "The Avengers" "Thor: The Dark World" bottom;
  mkConn carryover "The Avengers" "Captain America: The Winter Soldier" top;
  mkConn crossover "Iron Man 3" "Avengers: Age of Ultron" top;
  mkConn sequel "Thor: The Dark World" "Thor: Ragnarok" bottom;
  mkConn crossover "Thor: The Dark World" "Avengers: Age of Ultron" top;
  mkConn sequel "Captain America: The Winter Soldier" "Captain America: Civil War" bottom;
  mkConn crossover "Captain America: The Winter Soldier" "Avengers: Age of Ultron" top;
  mkConn carryover "Captain America: The Winter Soldier" "Avengers: Age of Ultron" bottom;
  mkConn sequel "Guardians of the Galaxy" "Guardians of the Galaxy Vol. 2" top;
  mkConn sequel "Avengers: Age of Ultron" "Avengers: Infinity War" top;
  mkConn carryover "Avengers: Age of Ultron" "Captain America: Civil War" top;
  mkConn sequel "Ant-Man" "Ant-Man and the Wasp" bottom;
  mkConn crossover "Ant-Man" "Captain America: Civil War" top;
  mkConn crossover "Captain America: Civil War" "Avengers: Infinity War" top;
  mkConn carryover "Captain America: Civil War" "Black Widow" top;
  mkConn sequel "Captain America: Civil War" "Captain America: Brave New World" bottom;
  mkConn carryover "Captain America: Civil War" "Spider-Man: Homecoming" bottom;
  mkConn carryover "Captain America: Civil War" "Black Panther" top;
  mkConn sequel "Doctor Strange" "Doctor Strange in the Multiverse of Madness" top;
  mkConn crossover "Doctor Strange" "Avengers: Infinity War" bottom;
  mkConn sequel "Guardians of the Galaxy Vol. 2" "Guardians of the Galaxy Vol. 3" top;
  mkConn crossover "Guardians of the Galaxy Vol. 2" "Avengers: Infinity War" top;
  mkConn sequel "Spider-Man: Homecoming" "Spider-Man: Far From Home" top;
  mkConn crossover "Spider-Man: Homecoming" "Avengers: Infinity War" bottom;
  mkConn sequel "Thor: Ragnarok" "Thor: Love and Thunder" top;
  mkConn crossover "Thor: Ragnarok" "Avengers: Infinity War" bottom;
  mkConn carryover "Thor: Ragnarok" "Avengers: Infinity War" top;
  mkConn sequel "Black Panther" "Black Panther: Wakanda Forever" top;
  mkConn crossover "Black Panther" "Avengers: Infinity War" top;
  mkConn sequel "Avengers: Infinity War" "Avengers: Endgame" top;
  mkConn sequel "Ant-Man and the Wasp" "Ant-Man and the Wasp: Quantumania" bottom;
  mkConn sequel "Captain Marvel" "The Marvels" top;
  mkConn crossover "Captain Marvel" "Avengers: Endgame" bottom;
  mkConn carryover "Avengers: Endgame" "Spider-Man: Far From Home" top;
  mkConn sequel "Spider-Man: Far From Home" "Spider-Man: No Way Home" bottom;
  mkConn carryover "Spider-Man: No Way Home" "Doctor Strange in the Multiverse of Madness" top
].

(** ** The time scale *)

Module Scale.
Local Open Scope Q_scope.

(** A division whose result is a finite number: [None] stands for the NaN
    or infinity that dividing by zero gives. *)
Definition divide (p q : Q) : option Q :=
  if Qeq_bool q 0 then None else Some (p / q).

(** Modelled from the spec: [d3.scaleTime().domain([min, max]).range([x0, x1])].
    The d3 library is not under src/; section 4.1 of the specification asks
    for a mapping that is linear in time and, for a degenerate domain,
    "define output as the midpoint of the pixel range" without dividing. *)
Definition scale (minPosition maxPosition : Z) (x0 x1 : Q) (position : Z) : option Q :=
  t ← (if (maxPosition =? minPosition)%Z then Some (1 # 2)
       else divide (inject_Z (position - minPosition))
                   (inject_Z (maxPosition - minPosition)));
  Some (x0 * (1 - t) + x1 * t).

(** The scale [x] of the connections view (lines 272-282); the effect has
    returned before this point when the catalog is empty. *)
Definition x (movies : list Movie) (width : Q) (d : option Z) : option Q :=
  let x0 := 70 in
  let x1 := width - 70 in
  first ← head movies;
  final ← last movies;
  minDate ← releaseDate first;
  maxDate ← releaseDate final;
  position ← d;
  scale minDate maxDate x0 x1 position.

End Scale.

(** ** Parsing the catalog (McuConnections.tsx, lines 84-95 and 168-195) *)

Module CsvRow.
(** A row of [d3.csv]: a column the file does not have reads [undefined]. *)
Record t := {
  id : option string;
  title : option string;
  phase : option string;
  release_date : option string;
  poster_path : option string
}.
End CsvRow.

Module Catalog.
Local Open Scope Q_scope.

Definition TMDB_POSTER_BASE : string := "https://image.tmdb.org/t/p/w185".

Section Load.
(** The two conversions of the JavaScript runtime the loader relies on:
    [Number(s)] with [None] for NaN and the infinities, and the time value
    of [new Date(s)] with [None] for an invalid date. *)
Variable Number : string -> option Q.
Variable parseDate : string -> option Z.

Definition parsePhase (raw : option string) : option Q :=
  n ← Number (JS.trim (JS.String_ raw));
  if Qle_bool 1 n && Qle_bool n 6 then Some n else None.

(** [new Date(v)]: [new Date(undefined)] is an invalid date. *)
Definition newDate (v : option string) : option Z := v ≫= parseDate.

Definition isValidDate (d : option Z) : bool := bool_decide (is_Some d).

(** The callback of [rows.map] at lines 172-193. *)
Definition parseRow (r : CsvRow.t) : option Movie :=
  let date := newDate (CsvRow.release_date r) in
  match parsePhase (CsvRow.phase r) with
  | None => None
  | Some phase =>
      if negb (isValidDate date) then None else
      let title := JS.trim (default "" (CsvRow.title r)) in
      if JS.isEmpty title then None else
      if bool_decide (title = "The Incredible Hulk") then None else
      let posterPath := JS.trim (default "" (CsvRow.poster_path r)) in
      let posterUrl :=
        if JS.isEmpty posterPath then None else Some (TMDB_POSTER_BASE +:+ posterPath) in
      Some {| id := JS.String_ (CsvRow.id r); title := title; phase := phase;
              releaseDate := date; releaseDateStr := CsvRow.release_date r;
              posterUrl := posterUrl |}
  end.

(** [(a, b) => a.releaseDate.getTime() - b.releaseDate.getTime()]; a NaN
    result counts as 0. *)
Definition byReleaseDate (a b : Movie) : comparison :=
  match releaseDate a, releaseDate b with
  | Some ta, Some tb => (ta ?= tb)%Z
  | _, _ => Eq
  end.

(** [const parsed = rows.map(...).filter(x => x !== null).sort(...)] *)
Definition parsed (rows : list CsvRow.t) : list Movie :=
  JS.sortBy byReleaseDate (omap parseRow rows).


End Load.

(** What the catalog promises about each movie. *)
Definition movieOk (m : Movie) : Prop :=
  1 <= phase m <= 6 /\
  is_Some (releaseDate m) /\
  title m <> "" /\ JS.trim (title m) = title m /\
  title m <> "The Incredible Hulk".

Definition releasedBefore (a b : Movie) : Prop :=
  exists ta tb, releaseDate a = Some ta /\ releaseDate b = Some tb /\ (ta <= tb)%Z.

End Catalog.

(** ** The connections view (McuConnections.tsx, second effect) *)

Module Connections.
Local Open Scope Q_scope.

(** [const byTitle = new Map(); movies.forEach(m => byTitle.set(m.title, m))]:
    a later movie with the same title replaces an earlier one. *)
Definition byTitle (movies : list Movie) : gmap string Movie :=
  foldl (fun acc m => <[title m := m]> acc) ∅ movies.

(** The date-to-pixel scale [x] is applied to [Date] objects; it is a
    parameter of the layout code. *)
Section Resolve.
Variable x : option Z -> Q.

(** The pipeline below is written for an arbitrary relationship list
    [conns]; the component runs it on the constant [CONNECTIONS].

    The callback of [CONNECTIONS.map] at lines 369-381: [null] when either
    title is not in the catalog. *)
Definition resolve (byT : gmap string Movie) (c : Connection.t) : option Arc.t :=
  match byT !! Connection.from c, byT !! Connection.to c with
  | Some a, Some b =>
      let x1p := x (releaseDate a) in
      let x2p := x (releaseDate b) in
      let leftX := Qmin x1p x2p in
      let rightX := Qmax x1p x2p in
      Some {| Arc.conn := c; Arc.side := default top (Connection.side c);
              Arc.a := a; Arc.b := b; Arc.x1 := x1p; Arc.x2 := x2p;
              Arc.leftX := leftX; Arc.rightX := rightX;
              Arc.span := rightX - leftX |}
  | _, _ => None
  end.

(** The sort comparator [(p, q) => p.leftX - q.leftX || q.span - p.span]. *)
Definition arcCmp (p q : Arc.t) : comparison :=
  match Arc.leftX p ?= Arc.leftX q with
  | Eq => Arc.span q ?= Arc.span p
  | c => c
  end.

Definition resolvedAllOf (conns : list Connection.t) (movies : list Movie) : list Arc.t :=
  JS.sortBy arcCmp (omap (resolve (byTitle movies)) conns).

Definition resolvedAll (movies : list Movie) : list Arc.t :=
  resolvedAllOf CONNECTIONS movies.

Definition passesFilter (filterMode : FilterMode) (d : Arc.t) : bool :=
  match filterMode with
  | all => true
  | only t => bool_decide (Connection.type (Arc.conn d) = t)
  end.

Definition resolvedVisibleOf (conns : list Connection.t) (filterMode : FilterMode)
  (movies : list Movie) : list Arc.t :=
  List.filter (passesFilter filterMode) (resolvedAllOf conns movies).

Definition resolvedVisible (filterMode : FilterMode) (movies : list Movie) : list Arc.t :=
  resolvedVisibleOf CONNECTIONS filterMode movies.

End Resolve.

(** The [while] loop of [assignLanes], line 391: starting at the head of the
    lanes not yet inspected, count the lanes whose right end still blocks
    [leftX]. *)
Fixpoint scanLanes (leftX : Q) (laneRightEnds : list Q) : nat :=
  match laneRightEnds with
  | [] => 0%nat
  | r :: rest =>
      if Qle_bool leftX (r + 8) then S (scanLanes leftX rest) else 0%nat
  end.

(** Lines 392-393: push a new lane or overwrite the right end of [lane]. *)
Definition occupy (laneRightEnds : list Q) (lane : nat) (rightX : Q) : list Q :=
  if decide (lane = length laneRightEnds) then laneRightEnds ++ [rightX]
  else <[lane := rightX]> laneRightEnds.

(** [list.map(d => ...)] with the mutable [laneRightEnds] threaded through. *)
Fixpoint assignLanesFrom (laneRightEnds : list Q) (arcs : list Arc.t) : list LanedArc :=
  match arcs with
  | [] => []
  | d :: rest =>
      let lane := scanLanes (Arc.leftX d) laneRightEnds in
      {| arc := d; lane := lane |}
        :: assignLanesFrom (occupy laneRightEnds lane (Arc.rightX d)) rest
  end.

Definition assignLanes (arcs : list Arc.t) : list LanedArc :=
  assignLanesFrom [] arcs.

Definition onSide (s : ArcSide) (d : Arc.t) : bool := bool_decide (Arc.side d = s).

(** Lines 398-400, for a given relationship list. *)
Definition arcsWithLaneOf (x : option Z -> Q) (conns : list Connection.t)
  (filterMode : FilterMode) (movies : list Movie) : list LanedArc :=
  let visible := resolvedVisibleOf x conns filterMode movies in
  assignLanes (List.filter (onSide top) visible)
    ++ assignLanes (List.filter (onSide bottom) visible).

Definition arcsWithLane (x : option Z -> Q) (filterMode : FilterMode) (movies : list Movie)
  : list LanedArc :=
  arcsWithLaneOf x CONNECTIONS filterMode movies.

(** A title has an exact match in the loaded catalog. *)
Definition inCatalog (movies : list Movie) (t : string) : Prop :=
  t ∈ (title <$> movies).

(** Both endpoints of a relationship resolve. *)
Definition resolves (movies : list Movie) (c : Connection.t) : Prop :=
  inCatalog movies (Connection.from c) /\ inCatalog movies (Connection.to c).

(** The relationships that are drawn: one [path.arc] per element of
    [arcsWithLane] (lines 404-406). *)
Definition renderedOf (x : option Z -> Q) (conns : list Connection.t)
  (filterMode : FilterMode) (movies : list Movie) : list Connection.t :=
  (fun p => Arc.conn (arc p)) <$> arcsWithLaneOf x conns filterMode movies.

Definition rendered (x : option Z -> Q) (filterMode : FilterMode) (movies : list Movie)
  : list Connection.t :=
  renderedOf x CONNECTIONS filterMode movies.

(** A resolved interval has its left end at or before its right end (it is
    built with [Math.min] and [Math.max], lines 376-377). *)
Definition wellFormed (d : Arc.t) : Prop := Arc.leftX d <= Arc.rightX d.

(** The pixel spans of [p] and [q], one of them widened by the 8px gap, do
    not meet. *)
Definition apartByGap (p q : Arc.t) : Prop :=
  Arc.rightX p + 8 < Arc.leftX q \/ Arc.rightX q + 8 < Arc.leftX p.

(** The order the allocator is fed in: ascending start, ties by descending
    span. *)
Definition startThenSpan (p q : Arc.t) : Prop :=
  Arc.leftX p < Arc.leftX q \/ (Arc.leftX p == Arc.leftX q /\ Arc.span q <= Arc.span p).

(** First-fit allocation in the words of the specification, relative to a
    test [fits r start] for "a lane with right edge [r] can take an interval
    that starts at [start]". *)
Section FirstFit.
Variable fits : Q -> Q -> Prop.

(** [k] is the first lane, scanning from 0, that fits; it is the number of
    lanes when none fits. *)
Definition firstFitLane (ends : list Q) (start : Q) (k : nat) : Prop :=
  (k <= length ends)%nat /\
  (forall j r, (j < k)%nat -> ends !! j = Some r -> ~ fits r start) /\
  (forall r, ends !! k = Some r -> fits r start).

(** Lane [k] (possibly a new one) now ends at [e]; the others are untouched. *)
Definition laneUpdated (ends : list Q) (k : nat) (e : Q) (ends' : list Q) : Prop :=
  length ends' = Nat.max (length ends) (S k) /\
  ends' !! k = Some e /\
  (forall j, j <> k -> ends' !! j = ends !! j).

Inductive FirstFit : list Q -> list Arc.t -> list LanedArc -> Prop :=
| FirstFit_nil ends : FirstFit ends [] []
| FirstFit_cons ends d rest k ends' out :
    firstFitLane ends (Arc.leftX d) k ->
    laneUpdated ends k (Arc.rightX d) ends' ->
    FirstFit ends' rest out ->
    FirstFit ends (d :: rest) ({| arc := d; lane := k |} :: out).

End FirstFit.

(** The specification's test: right edge [<= interval.start - gap]. *)
Definition fitsSpec (r start : Q) : Prop := r <= start - 8.

(** The test with a strict comparison. *)
Definition fitsStrict (r start : Q) : Prop := r < start - 8.

End Connections.

(** ** The label placer (McuConnections.tsx, lines 104-151) *)

Module LabelPlacer.
Local Open Scope Q_scope.

Record DOMRect := {
  left : Q;
  right : Q;
  top : Q;
  bottom : Q;
  width : Q;
  height : Q
}.

(** A label card [div.mcu-label]: its text, the [left] and [top] of its inline
    style in px, and the size the browser lays it out at.  The style property
    is taken to hold the number written to it exactly, so that
    [parseFloat(el.style.top)] reads it back. *)
Record Element := {
  text : string;
  styleLeft : Q;
  styleTop : Q;
  offsetWidth : Q;
  offsetHeight : Q
}.

Definition setTop (el : Element) (t : Q) : Element :=
  {| text := text el; styleLeft := styleLeft el; styleTop := t;
     offsetWidth := offsetWidth el; offsetHeight := offsetHeight el |}.

(** The nodes handed to the placer: [{ el, cx }]. *)
Record Node := { el : Element; cx : Q }.

Inductive Direction := up | down.

(** [function overlaps(a, b, pad)] *)
Definition overlaps (a b : DOMRect) (pad : Q) : bool :=
  negb (JS.Qltb (right a + pad) (left b)
        || JS.Qltb (right b + pad) (left a)
        || JS.Qltb (bottom a + pad) (top b)
        || JS.Qltb (bottom b) (top a)).

Section Layout.
(** Viewport position of the positioned container the cards live in. *)
Variables originX originY : Q.

(** The cards are absolutely positioned in the container and carry
    [transform: translate(-50%, 0)]. *)
Definition getBoundingClientRect (e : Element) : DOMRect :=
  let l := originX + styleLeft e - offsetWidth e / 2 in
  let t := originY + styleTop e in
  {| left := l; right := l + offsetWidth e; top := t; bottom := t + offsetHeight e;
     width := offsetWidth e; height := offsetHeight e |}.

Variables (direction : Direction) (containerH gap : Q).

(** Lines 134-144: the new [top] of [a] after it was found to overlap [b]. *)
Definition pushedTop (a : Element) (aRect bRect : DOMRect) : Q :=
  let currentTop := styleTop a in
  let pushFactor := 0.6 in
  let pushBy :=
    (match direction with up => -1 | down => 1 end) * (height bRect + gap) * pushFactor in
  let nextTop := currentTop + pushBy in
  let minTop := 6 in
  let maxTop := containerH - height aRect - 6 in
  JS.clamp nextTop minTop maxTop.

(** The inner [for (j < i)] loop: the first finalized node that [a]
    overlaps, if any. *)
Definition firstOverlap (placed : list Node) (a : Node) : option Node :=
  let aRect := getBoundingClientRect (el a) in
  List.find (fun b => overlaps aRect (getBoundingClientRect (el b)) gap) placed.

(** The [while (moved && guard++ < 60)] loop with [budget = 60 - guard]
    passes left.  The result carries the number of times the body ran. *)
Fixpoint pushLoop (budget : nat) (placed : list Node) (a : Node) : Node * nat :=
  match budget with
  | O => (a, 0%nat)
  | S budget' =>
      match firstOverlap placed a with
      | None => (a, 1%nat)
      | Some b =>
          let aRect := getBoundingClientRect (el a) in
          let bRect := getBoundingClientRect (el b) in
          let a' := {| el := setTop (el a) (pushedTop (el a) aRect bRect); cx := cx a |} in
          let (r, n) := pushLoop budget' placed a' in
          (r, S n)
      end
  end.

(** The outer [for (i)] loop: [placed] are the nodes before index [i], in
    their final positions. *)
Fixpoint layoutFrom (placed : list (Node * nat)) (todo : list Node) : list (Node * nat) :=
  match todo with
  | [] => placed
  | a :: rest => layoutFrom (placed ++ [pushLoop 60 (fst <$> placed) a]) rest
  end.

(** [resolveBandVerticalLayout]: the nodes in their final positions, in the
    sorted order, each with the number of passes its [while] loop made. *)
Definition resolveBandVerticalLayout (nodes : list Node) (baseTop : Q) : list (Node * nat) :=
  let sorted := JS.sortBy (fun p q => cx p ?= cx q) nodes in
  let reset := (fun n => {| el := setTop (el n) baseTop; cx := cx n |}) <$> sorted in
  layoutFrom [] reset.

(** The band of a card: [minTop <= top <= maxTop]. *)
Definition inBand (t : Q) (e : Element) : Prop :=
  6 <= t /\ t <= containerH - offsetHeight e - 6.

End Layout.

End LabelPlacer.

(** ** Hover highlighting (McuConnections.tsx, lines 442-589) *)

Module Highlight.
Import Connections LabelPlacer.
Local Open Scope Q_scope.

(** [Set.prototype.add] on a set kept in insertion order. *)
Definition setAdd (t : string) (s : list string) : list string :=
  if decide (t ∈ s) then s else s ++ [t].

(** The datum bound to a label card: [{ m, top, isAnchor, i }]. *)
Record Card := { m : Movie; top : bool; isAnchor : bool; i : nat }.

Section View.
(** What the handlers close over: the scale, the catalog, the arcs that were
    drawn ([arcsWithLane]), the container box, and the size at which the
    browser lays out the card of a movie. *)
Variables (x : option Z -> Q) (movies : list Movie) (arcsWithLane : list LanedArc).
Variables (originX originY containerW containerH yMid : Q).
Variable measure : Movie -> Q * Q.

(** Lines 545-548 of [applyHighlight]. *)
Definition highlightTitles (hoverTitle : string) : list string :=
  let outgoing :=
    List.filter (fun d => bool_decide (Connection.from (Arc.conn (arc d)) = hoverTitle))
      arcsWithLane in
  foldl (fun s a => setAdd (Connection.to (Arc.conn (arc a))) s) [hoverTitle] outgoing.

(** Lines 449-454 of [renderMultiTooltips]. *)
Definition items (highlight : list string) : list Movie :=
  JS.sortBy (fun a b => x (releaseDate a) ?= x (releaseDate b))
    (omap (fun t => byTitle movies !! t) highlight).

(** Lines 456-460. *)
Definition cardData (highlight : list string) (anchorTitle : string) : list Card :=
  imap (fun i m =>
          let isAnchor := bool_decide (title m = anchorTitle) in
          {| m := m; top := if isAnchor then true else Nat.even i;
             isAnchor := isAnchor; i := i |})
       (items highlight).

Definition cardW : Q := 260.
Definition topBase : Q := yMid - 80.
Definition bottomBase : Q := yMid + 18.

(** The card bound to [d] after the data join and pass 1 (lines 464-503),
    wrapped as the node pushed in pass 2 (lines 509-514). *)
Definition cardNode (d : Card) : Node :=
  let cx := x (releaseDate (m d)) in
  let left := JS.clamp cx (10 + cardW / 2) (containerW - 10 - cardW / 2) in
  {| el := {| text := title (m d); styleLeft := left;
              styleTop := if top d then topBase else bottomBase;
              offsetWidth := fst (measure (m d));
              offsetHeight := snd (measure (m d)) |};
     cx := cx |}.

Definition topNodes (cards : list Card) : list Node :=
  cardNode <$> List.filter top cards.

Definition bottomNodes (cards : list Card) : list Node :=
  cardNode <$> List.filter (fun d => negb (top d)) cards.

(** [renderMultiTooltips]: the [div.mcu-label] cards in the overlay when it
    returns, top band first.  The join removes every card that is not bound
    to one of the new data, so the previous cards do not matter. *)
Definition renderMultiTooltips (highlight : list string) (anchorTitle : string)
  : list Element :=
  let cards := cardData highlight anchorTitle in
  let placedTop :=
    resolveBandVerticalLayout originX originY up containerH 4 (topNodes cards) topBase in
  let placedBottom :=
    resolveBandVerticalLayout originX originY down containerH 4 (bottomNodes cards)
      bottomBase in
  (fun p => el (fst p)) <$> (placedTop ++ placedBottom).

(** [clearMultiTooltips]: [overlay.selectAll('div.mcu-label').remove()]. *)
Definition clearMultiTooltips (overlay : list Element) : list Element := [].

(** The label cards left in the overlay by [applyHighlight] and
    [clearHighlight]; the dot and arc attributes they also set are not
    modelled. *)
Definition applyHighlight (hoverTitle : string) (overlay : list Element) : list Element :=
  renderMultiTooltips (highlightTitles hoverTitle) hoverTitle.

Definition clearHighlight (overlay : list Element) : list Element :=
  clearMultiTooltips overlay.

(** Lines 586-589: the handlers bound to every [circle.movie-dot]. *)
Inductive Event := mouseenter (d : Movie) | mouseleave.

Definition handle (ev : Event) (overlay : list Element) : list Element :=
  match ev with
  | mouseenter d => applyHighlight (title d) overlay
  | mouseleave => clearHighlight overlay
  end.

End View.

(** The highlight set in the words of the specification: [t] is the anchor,
    or a catalog entry that a relationship links to the anchor. *)
Definition connectedTo (anchor t : string) : Prop :=
  exists c, c ∈ CONNECTIONS /\
    ((Connection.from c = anchor /\ Connection.to c = t) \/
     (Connection.to c = anchor /\ Connection.from c = t)).

Definition specHighlightSet (movies : list Movie) (anchor t : string) : Prop :=
  t = anchor \/ (inCatalog movies t /\ connectedTo anchor t).

End Highlight.

(** ** Small catalogs used in the examples *)

Module Examples.

Definition movieAt (t : string) (ms : Z) : Movie :=
  {| id := t; title := t; phase := 1; releaseDate := Some ms;
     releaseDateStr := None; posterUrl := None |}.

(** A scale with one pixel per millisecond, starting at the left margin
    (70px). *)
Definition pxPerMs (d : option Z) : Q :=
  match d with
  | Some t => 70 + inject_Z t
  | None => 0
  end.

(** Two top arcs, [70,80] and [88,90]: the second starts exactly 8px after
    the first ends. *)
Definition touching : list Movie :=
  [ movieAt "Iron Man" 0; movieAt "Iron Man 2" 10;
    movieAt "Guardians of the Galaxy" 18;
    movieAt "Guardians of the Galaxy Vol. 2" 20 ].

(** Two top arcs, [70,80] and [270,370]. *)
Definition spaced : list Movie :=
  [ movieAt "Iron Man" 0; movieAt "Iron Man 2" 10;
    movieAt "Guardians of the Galaxy" 200;
    movieAt "Guardians of the Galaxy Vol. 2" 300 ].

(** Only the first film and its sequel. *)
Definition duo : list Movie :=
  [ movieAt "Iron Man" 0; movieAt "Iron Man 2" 10 ].

(** A label card 100px wide and 30px high, centred at [c]. *)
Definition card (t : string) (c : Q) : LabelPlacer.Node :=
  {| LabelPlacer.el :=
       {| LabelPlacer.text := t; LabelPlacer.styleLeft := c;
          LabelPlacer.styleTop := 0; LabelPlacer.offsetWidth := 100;
          LabelPlacer.offsetHeight := 30 |};
     LabelPlacer.cx := c |}.

End Examples.

(** ** The arc paths (McuConnections.tsx, lines 415-423) *)

Module ArcPath.
Local Open Scope Q_scope.


(** The control point [(d.x1 + d.x2) / 2, cy] of the quadratic curve. *)
Definition controlX (d : LanedArc) : Q := (Arc.x1 (arc d) + Arc.x2 (arc d)) / 2.


End ArcPath.

(** ** Phase ranges (McuConnections.tsx, lines 94-96 and 197-227) *)

(** [type PhaseRange] *)
Module PhaseRange.
Record t := { phase : Q; start : option Z; end_ : option Z }.
End PhaseRange.

Module PhaseRanges.

(** [new Date((a.getTime() + b.getTime()) / 2)]: the [Date] constructor drops
    the fraction of its time value, towards zero. *)
Definition midpoint (a b : option Z) : option Z :=
  ta ← a; tb ← b; Some ((ta + tb) ÷ 2)%Z.

(** [grouped.get(p)]: the movies of phase [p], in catalog order. *)
Definition ofPhase (parsed : list Movie) (p : Q) : list Movie :=
  List.filter (fun d => Qeq_bool (phase d) p) parsed.

(** [firstOf[p]] and [lastOf[p]]; [None] when the phase has no movie. *)
Definition firstOf (parsed : list Movie) (p : Q) : option (option Z) :=
  releaseDate <$> head (ofPhase parsed p).

Definition lastOf (parsed : list Movie) (p : Q) : option (option Z) :=
  releaseDate <$> last (ofPhase parsed p).

(** [[1, 2, 3, 4, 5, 6].filter(p => firstOf[p] && lastOf[p])] *)
Definition phases (parsed : list Movie) : list Q :=
  List.filter (fun p => bool_decide (is_Some (firstOf parsed p))
                        && bool_decide (is_Some (lastOf parsed p)))
    [1; 2; 3; 4; 5; 6]%Q.

(** The loop of lines 216-220: one boundary between each phase and the
    next. *)
Fixpoint innerBoundaries (parsed : list Movie) (ps : list Q) : list (option Z) :=
  match ps with
  | p :: (next :: _) as rest =>
      midpoint (default None (lastOf parsed p)) (default None (firstOf parsed next))
        :: innerBoundaries parsed rest
  | _ => []
  end.

(** The loop of lines 223-225. *)
Fixpoint zipRanges (ps : list Q) (boundaries : list (option Z)) : list PhaseRange.t :=
  match ps, boundaries with
  | p :: ps', b0 :: ((b1 :: _) as bs) =>
      {| PhaseRange.phase := p; PhaseRange.start := b0; PhaseRange.end_ := b1 |}
        :: zipRanges ps' bs
  | _, _ => []
  end.

(** [ranges] as computed by [load] from the sorted catalog [parsed]. *)
Definition ranges (parsed : list Movie) : list PhaseRange.t :=
  match head parsed, last parsed with
  | Some first, Some final =>
      let overallStart := releaseDate first in
      let overallEnd := releaseDate final in
      let ps := phases parsed in
      match ps with
      | [] => []
      | _ =>
          let boundaries := overallStart :: innerBoundaries parsed ps ++ [overallEnd] in
          zipRanges ps boundaries
      end
  | _, _ => []
  end.

End PhaseRanges.

(** ** Loading the data *)

(** How a [d3.csv] promise settles, and what can happen to the effect that
    awaits it. *)
Module Lifecycle.

Inductive Fetch (A : Type) :=
| resolved (rows : A)
| rejected (err : string).
Arguments resolved {A} rows.
Arguments rejected {A} err.

(** [Cleanup] is React running the cleanup of the effect (the component
    unmounts); [Settle] is the awaited promise settling. *)
Inductive Event (A : Type) :=
| Cleanup
| Settle (outcome : Fetch A).
Arguments Cleanup {A}.
Arguments Settle {A} outcome.

End Lifecycle.

(** The first effect of McuConnections.tsx (lines 165-246). *)
Module ConnectionsLoader.
Import Lifecycle.

(** The component state the effect writes, the [cancelled] flag of its
    closure, the calls to [console.error] and the rejections nobody handled. *)
Record State := {
  movies : list Movie;
  phaseRanges : list PhaseRange.t;
  cancelled : bool;
  console : list (string * string);
  unhandled : list string
}.

Definition initial : State :=
  {| movies := []; phaseRanges := []; cancelled := false; console := []; unhandled := [] |}.

Definition commit (ms : list Movie) (rs : list PhaseRange.t) (s : State) : State :=
  {| movies := ms; phaseRanges := rs; cancelled := cancelled s;
     console := console s; unhandled := unhandled s |}.

Section Load.
Variable Number : string -> option Q.
Variable parseDate : string -> option Z.

(** [load()] past its [await], lines 171-232. *)
Definition load (rows : list CsvRow.t) (s : State) : State :=
  let parsed := Catalog.parsed Number parseDate rows in
  let ranges := PhaseRanges.ranges parsed in
  if cancelled s then s else commit parsed ranges s.

(** The handler of [load().catch(...)], lines 235-241. *)
Definition onRejected (err : string) (s : State) : State :=
  let logged :=
    {| movies := movies s; phaseRanges := phaseRanges s; cancelled := cancelled s;
       console := console s ++ [("Failed to load CSV:", err)];
       unhandled := unhandled s |} in
  if cancelled logged then logged else commit [] [] logged.

Definition step (s : State) (ev : Event (list CsvRow.t)) : State :=
  match ev with
  | Cleanup =>
      {| movies := movies s; phaseRanges := phaseRanges s; cancelled := true;
         console := console s; unhandled := unhandled s |}
  | Settle (resolved rows) => load rows s
  | Settle (rejected err) => onRejected err s
  end.

Definition run (evs : list (Event (list CsvRow.t))) (s : State) : State :=
  foldl step s evs.

End Load.

End ConnectionsLoader.

(** The first effect of RevenueBarChart.tsx (lines 31-50). *)
Module RevenueLoader.
Import Lifecycle.

Module DataPoint.
Record t := {
  id : option string;
  title : option string;
  release_date : option string;
  is_marvel : option string;
  budget : option string;
  revenue : option string
}.
End DataPoint.

(** [type Movie] of the bar chart; a NaN is [None]. *)
Module Movie.
Record t := {
  id : option string;
  title : option string;
  releaseYear : option Q;
  isMarvel : option string;
  budget : option Q;
  revenue : option Q
}.
End Movie.

Record State := {
  movies : list Movie.t;
  console : list string;
  unhandled : list string
}.

Definition initial : State := {| movies := []; console := []; unhandled := [] |}.

(** [s.split("-")[0]] *)
Fixpoint beforeDash (s : string) : string :=
  match s with
  | EmptyString => EmptyString
  | String c s' => if Ascii.eqb c "-" then EmptyString else String c (beforeDash s')
  end.

Section Load.
(** [Number(s)] on a string, [None] for NaN. *)
Variable Number : string -> option Q.

(** [Number(v)] where [v] may be [undefined]. *)
Definition numberOf (v : option string) : option Q := v ≫= Number.

(** The body of the [for] loop, lines 36-44; [None] when
    [dataPoint.release_date.split] throws because the column is missing. *)
Definition parseRow (dataPoint : DataPoint.t) : option Movie.t :=
  release_date ← DataPoint.release_date dataPoint;
  Some {| Movie.id := DataPoint.id dataPoint; Movie.title := DataPoint.title dataPoint;
          Movie.releaseYear := Number (beforeDash release_date);
          Movie.isMarvel := DataPoint.is_marvel dataPoint;
          Movie.budget := numberOf (DataPoint.budget dataPoint);
          Movie.revenue := numberOf (DataPoint.revenue dataPoint) |}.

Definition reject (err : string) (s : State) : State :=
  {| movies := movies s; console := console s; unhandled := unhandled s ++ [err] |}.

(** [loadData()] is called without [catch]; the effect returns no cleanup. *)
Definition step (s : State) (ev : Event (list DataPoint.t)) : State :=
  match ev with
  | Cleanup => s
  | Settle (resolved data) =>
      match mapM parseRow data with
      | Some moviesData =>
          {| movies := moviesData; console := console s; unhandled := unhandled s |}
      | None => reject "TypeError" s
      end
  | Settle (rejected err) => reject err s
  end.

Definition run (evs : list (Event (list DataPoint.t))) (s : State) : State :=
  foldl step s evs.

End Load.

End RevenueLoader.

(** ** The review browser (McuMoviesReviews, second effect) *)

Module Reviews.

(** [type Movie] and [type Review] of the review browser; a NaN is [None],
    a column the file does not have reads [undefined], also [None]. *)
Module Movie.
Record t := {
  id : option string;
  title : option string;
  releaseYear : option Q;
  imdbAverageRating : option Q;
  numberVotes : option Q
}.
End Movie.

Module Review.
Record t := {
  movie : option string;
  imdbId : option string;
  author : option string;
  date : option string;
  reviewRating : option Q;
  reviewTitle : option string;
  review : option string;
  likes : option string;
  dislikes : option string
}.
End Review.

(** [a == b] on two numbers: NaN equals nothing. *)
Definition numEq (a b : option Q) : bool :=
  match a, b with
  | Some p, Some q => Qeq_bool p q
  | _, _ => false
  end.

(** The reviews of one title that are shown, lines 79-85. *)
Definition shownFor (reviews : list Review.t) (title : option string) : list Review.t :=
  let movieFilteredReviews :=
    List.filter (fun review => bool_decide (Review.movie review = title)) reviews in
  if (8 <? length movieFilteredReviews)%nat then take 8 movieFilteredReviews
  else movieFilteredReviews.

(** The value passed to [setFilteredReviews]; [selectedReviewsYear] is
    [None] for [null] and [Some year] for a number. *)
Definition filteredReviews (selectedReviewsYear : option (option Q))
  (movies : list Movie.t) (reviews : list Review.t) : list Review.t :=
  match selectedReviewsYear with
  | None => []
  | Some year =>
      let moviesFromYear :=
        List.filter (fun movie => numEq (Movie.releaseYear movie) year) movies in
      let movieTitles := Movie.title <$> moviesFromYear in
      foldl (fun allFilteredReviews title => allFilteredReviews ++ shownFor reviews title)
        [] movieTitles
  end.

(** The titles released in a year. *)
Definition titlesOf (year : option Q) (movies : list Movie.t) : list (option string) :=
  Movie.title <$> List.filter (fun movie => numEq (Movie.releaseYear movie) year) movies.

End Reviews.

(** ** The timeline annotations (McuTimeline, lines 405-492) *)

Module Timeline.
Local Open Scope Q_scope.

Inductive Anchor := top | bottom.

(** [type LaneDatum = Movie & { __laneTop?: number; __laneBottom?: number }]
    with the timeline's own [Movie]. *)
Record LaneDatum := {
  id : string;
  title : string;
  phase : Q;
  releaseDate : option Z;
  releaseDateStr : option string;
  posterUrl : string;
  important : bool;
  anchor : option Anchor;
  note : option string;
  __laneTop : option nat;
  __laneBottom : option nat
}.

Definition posterW : Q := 48.
Definition posterH : Q := 72.
Definition labelW : Q := 80.
Definition labelH : Q := 88.
Definition labelGap : Q := 35.
Definition xPad : Q := 10.
Definition lanePad : Q := 10.
Definition laneStep : Q := Qmax labelH posterH + lanePad.

(** [(d.anchor ?? 'top') === 'top'] *)
Definition annoTop (d : LaneDatum) : bool :=
  match default top (anchor d) with
  | top => true
  | bottom => false
  end.

Definition setLane (side : Anchor) (lane : nat) (d : LaneDatum) : LaneDatum :=
  {| id := id d; title := title d; phase := phase d; releaseDate := releaseDate d;
     releaseDateStr := releaseDateStr d; posterUrl := posterUrl d;
     important := important d; anchor := anchor d; note := note d;
     __laneTop := match side with top => Some lane | bottom => __laneTop d end;
     __laneBottom := match side with top => __laneBottom d | bottom => Some lane end |}.

(** The [while] loop of line 434. *)
Fixpoint scanLanes (left : Q) (lanes : list Q) : nat :=
  match lanes with
  | [] => 0%nat
  | r :: rest => if Qle_bool left r then S (scanLanes left rest) else 0%nat
  end.

Section Lanes.
Variable x : option Z -> Q.

(** The [for] loop of lines 427-441 over the sorted data, with the mutable
    [lanes] threaded through; each datum comes out with its lane written. *)
Fixpoint assignLanesFrom (lanes : list Q) (sorted : list LaneDatum)
  (getHalfWidth : LaneDatum -> Q) (side : Anchor) : list LaneDatum :=
  match sorted with
  | [] => []
  | d :: rest =>
      let cx := x (releaseDate d) in
      let half := getHalfWidth d + xPad in
      let left := cx - half in
      let right := cx + half in
      let lane := scanLanes left lanes in
      setLane side lane d
        :: assignLanesFrom (Connections.occupy lanes lane right) rest getHalfWidth side
  end.

(** [assignLanes(items, getHalfWidth, side)].  The function writes the lane
    into the objects of [items]; the result here lists these objects in the
    order the function visits them (sorted by position), while the caller's
    array keeps them in its own order. *)
Definition assignLanes (items : list LaneDatum) (getHalfWidth : LaneDatum -> Q)
  (side : Anchor) : list LaneDatum :=
  let sorted := JS.sortBy (fun a b => x (releaseDate a) ?= x (releaseDate b)) items in
  assignLanesFrom [] sorted getHalfWidth side.

(** The two callbacks of lines 445-464. *)
Definition topHalfWidth (d : LaneDatum) : Q :=
  let w := if annoTop d then labelW else posterW in w / 2.

Definition bottomHalfWidth (d : LaneDatum) : Q :=
  let w := if annoTop d then posterW else labelW in w / 2.

(** The important movies after both calls. *)
Definition withLanes (importantWithLanes : list LaneDatum) : list LaneDatum :=
  assignLanes (assignLanes importantWithLanes topHalfWidth top) bottomHalfWidth bottom.

Definition getTopLane (d : LaneDatum) : nat := default 0%nat (__laneTop d).
Definition getBottomLane (d : LaneDatum) : nat := default 0%nat (__laneBottom d).

Variable yMid : Q.

Definition laneQ (n : nat) : Q := inject_Z (Z.of_nat n).

(** [posterY] and [labelY], lines 470-492. *)
Definition posterY (d : LaneDatum) : Q :=
  if annoTop d then yMid + 40 + laneQ (getBottomLane d) * laneStep
  else yMid - 40 - posterH - laneQ (getTopLane d) * laneStep.

Definition labelY (d : LaneDatum) : Q :=
  if annoTop d then yMid - labelGap - labelH - laneQ (getTopLane d) * laneStep
  else yMid + labelGap + laneQ (getBottomLane d) * laneStep.

(** The rectangles the poster and the annotation of a movie are given:
    [(left, right, top, bottom)] in pixels. *)
Definition posterBox (d : LaneDatum) : Q * Q * Q * Q :=
  let cx := x (releaseDate d) in
  (cx - posterW / 2, cx + posterW / 2, posterY d, posterY d + posterH).

Definition labelBox (d : LaneDatum) : Q * Q * Q * Q :=
  let cx := x (releaseDate d) in
  (cx - labelW / 2, cx + labelW / 2, labelY d, labelY d + labelH).

(** The box of a movie above the line, and the one below. *)
Definition topBox (d : LaneDatum) : Q * Q * Q * Q :=
  if annoTop d then labelBox d else posterBox d.

Definition bottomBox (d : LaneDatum) : Q * Q * Q * Q :=
  if annoTop d then posterBox d else labelBox d.

End Lanes.

(** Two rectangles are at least [gap] pixels apart along one axis. *)
Definition apart (gap : Q) (p q : Q * Q * Q * Q) : Prop :=
  let '(l1, r1, t1, b1) := p in
  let '(l2, r2, t2, b2) := q in
  r1 + gap <= l2 \/ r2 + gap <= l1 \/ b1 + gap <= t2 \/ b2 + gap <= t1.

End Timeline.

(** ** The year dot plot (McuYearDotPlot.tsx) *)

Module DotPlot.
Local Open Scope Z_scope.

(** [type YearBin] *)
Record YearBin := { year : Z; movies : nat; shows : nat; total : nat }.

(** [Math.min(...l)] and [Math.max(...l)] of a list that is not empty. *)
Definition minOf (l : list Z) : Z := foldr Z.min (default 0 (head l)) l.
Definition maxOf (l : list Z) : Z := foldr Z.max (default 0 (head l)) l.

(** [d3.rollup(years, v => v.length, y => y).get(y) ?? 0] *)
Definition countOf (years : list Z) (y : Z) : nat :=
  length (List.filter (fun y' => y' =? y) years).

(** Lines 71-101 of [load]: the bins passed to [setBins], from the years of
    the movies and of the shows. *)
Definition bins (movieYears showYears : list Z) : list YearBin :=
  if bool_decide (movieYears = []) && bool_decide (showYears = []) then []
  else
    let minYear :=
      minOf ((if bool_decide (movieYears = []) then [9999] else movieYears)
             ++ (if bool_decide (showYears = []) then [9999] else showYears)) in
    let maxYear :=
      maxOf ((if bool_decide (movieYears = []) then [0] else movieYears)
             ++ (if bool_decide (showYears = []) then [0] else showYears)) in
    (fun y =>
       let m := countOf movieYears y in
       let s := countOf showYears y in
       {| year := y; movies := m; shows := s; total := (m + s)%nat |})
      <$> seqZ minYear (maxYear - minYear + 1).

Section Years.
(** The time value of [new Date(s)] ([None] when invalid) and
    [Date.prototype.getFullYear] on a time value. *)
Variable parseDate : string -> option Z.
Variable getFullYear : Z -> Z.

(** [function parseYear(dateStr)] *)
Definition parseYear (dateStr : option string) : option Z :=
  getFullYear <$> parseDate (JS.trim (default "" dateStr)).

(** Lines 62-69: the years read from the two files; a row is a pair of its
    [title] and [release_date]. *)
Definition movieYears (movieRows : list (option string * option string)) : list Z :=
  omap (fun r => parseYear (snd r))
    (List.filter (fun r => negb (bool_decide (fst r = Some "The Incredible Hulk")))
       movieRows).

Definition showYears (showRows : list (option string * option string)) : list Z :=
  omap (fun r => parseYear (snd r)) showRows.

End Years.

Local Open Scope Q_scope.

(** The stacking layout of the draw effect, lines 150-154. *)
Section Stack.
Variables (height : Q) (maxTotal : nat).

Definition maxUsableStackPx : Q := Qmax 80 (height * 0.62).
Definition dotStep : Q :=
  Qmax 7 (Qmin 14 ((maxUsableStackPx - 18)
                   / Qmax 1 (inject_Z (Z.of_nat maxTotal)))).
Definition dotR : Q := Qmax 2.6 (Qmin 6 (dotStep * 0.42)).
Definition typeGap : Q := Qmax 2 (dotStep * 0.35).

(** The [cy] of the dots of one bin, lines 243-270: the movies from the
    baseline up, then the shows. *)
Definition dotCys (yLine : Q) (b : YearBin) : list Q :=
  let movieCys :=
    (fun i => yLine - (inject_Z (Z.of_nat i) + 1) * dotStep) <$> seq 0 (movies b) in
  let showOffset :=
    if (0 <? movies b)%nat then inject_Z (Z.of_nat (movies b)) * dotStep + typeGap else 0 in
  let showCys :=
    (fun i => yLine - showOffset - (inject_Z (Z.of_nat i) + 1) * dotStep)
      <$> seq 0 (shows b) in
  movieCys ++ showCys.

End Stack.

(** The years that get a tick mark and a label, lines 168-177; [minYear] and
    [maxYear] are the least and the greatest year of the bins. *)
Section Ticks.
Variables (width : Q) (minYear maxYear : Z).

Definition approxLabelCount : Z := Qfloor ((width - 24 - 24) / 60).

Definition yearStep : Z :=
  Z.max 1 (Qceiling (inject_Z (maxYear - minYear + 1)
                     / inject_Z (Z.max 1 approxLabelCount))).

(** [for (let y = ...; y <= maxYear; y += yearStep) tickYears.push(y)], the
    pushed years; [fuel] bounds the number of turns. *)
Fixpoint stepped (fuel : nat) (y : Z) : list Z :=
  match fuel with
  | O => []
  | S fuel' => if (y <=? maxYear)%Z then y :: stepped fuel' (y + yearStep)%Z else []
  end.

Definition tickYears : list Z :=
  let range := seqZ minYear (maxYear + 1 - minYear) in
  let pushed := range ++ stepped (Z.to_nat (maxYear - minYear + 1)) minYear in
  if bool_decide (last pushed = Some maxYear) then pushed else pushed ++ [maxYear].

End Ticks.

End DotPlot.

(** ** The revenue bars (RevenueBarChart, generateBarChart, lines 69-80) *)

Module RevenueChart.
Import RevenueLoader.
Local Open Scope Q_scope.

(** [type RevenueSplit]; the year is [None] when it is NaN. *)
Record RevenueSplit := {
  year : option Q;
  marvelRevenue : Q;
  otherMoviesRevenue : Q
}.

(** The equality of a [Set] on numbers: NaN is the same value as NaN. *)
Definition sameValueZero (a b : option Q) : bool :=
  match a, b with
  | None, None => true
  | Some p, Some q => Qeq_bool p q
  | _, _ => false
  end.

(** [Set.prototype.add], and [[...new Set(values)]]: the values in the order
    of their first occurrence. *)
Definition setAdd (s : list (option Q)) (v : option Q) : list (option Q) :=
  if existsb (sameValueZero v) s then s else s ++ [v].

Definition setOf (values : list (option Q)) : list (option Q) :=
  foldl setAdd [] values.

(** [d3.sum(values)]: a NaN is skipped. *)
Definition d3sum (values : list (option Q)) : Q :=
  foldl (fun sum value => match value with Some v => sum + v | None => sum end)
    0 values.

Definition formattedData (movies : list Movie.t) : list RevenueSplit :=
  let years := setOf (Movie.releaseYear <$> movies) in
  (fun year =>
     let yearMovies :=
       List.filter (fun movie => Reviews.numEq (Movie.releaseYear movie) year) movies in
     {| year := year;
        marvelRevenue :=
          d3sum (Movie.revenue <$>
                 List.filter (fun movie => bool_decide (Movie.isMarvel movie = Some "true"))
                   yearMovies);
        otherMoviesRevenue :=
          d3sum (Movie.revenue <$>
                 List.filter (fun movie => bool_decide (Movie.isMarvel movie = Some "false"))
                   yearMovies) |})
    <$> years.

End RevenueChart.

(** ** Wrapping a note into lines (McuTimeline, wrapSvgText, lines 78-111) *)

Module SvgText.
Local Open Scope Q_scope.

(** [full.split(/\s+/).filter(Boolean)]; [cur] is the word being read. *)
Fixpoint wordsFrom (cur : string) (s : string) : list string :=
  match s with
  | EmptyString => if JS.isEmpty cur then [] else [cur]
  | String c s' =>
      if JS.isWhiteSpace c
      then (if JS.isEmpty cur then wordsFrom "" s' else cur :: wordsFrom "" s')
      else wordsFrom (cur ++ String c "") s'
  end.

Definition words (full : string) : list string := wordsFrom "" full.

(** [line.join(' ')] *)
Fixpoint join (line : list string) : string :=
  match line with
  | [] => ""
  | [w] => w
  | w :: rest => w ++ " " ++ join rest
  end.

Section Wrap.
(** [getComputedTextLength] of a tspan with the given text. *)
Variable getComputedTextLength : string -> Q.
Variable maxWidthPx : Q.

(** One turn of the loop over the words. The state is the word lists of the
    tspans left behind and [line], the words of the current tspan; the text
    of a tspan is the [join] of its words. *)
Definition pushWord (st : list (list string) * list string) (w : string)
  : list (list string) * list string :=
  let line := snd st ++ [w] in
  if JS.Qltb maxWidthPx (getComputedTextLength (join line)) && (1 <? length line)%nat
  then (fst st ++ [removelast line], [w])
  else (fst st, line).

(** The word lists of the tspans when the loop ends, first line first. *)
Definition wrapLines (ws : list string) : list (list string) :=
  let st := foldl pushWord ([], []) ws in
  fst st ++ [snd st].

(** The tspans of the text element: the [dy] in em and the text of each. *)
Definition wrapSvgText (full : string) : list (Q * string) :=
  imap (fun lineNumber line => (inject_Z (Z.of_nat lineNumber) * 1.15, join line))
    (wrapLines (words full)).

End Wrap.

End SvgText.

(** ** Sample inputs of the other components *)

Module Samples.

(** Two important movies five pixels apart, annotated on opposite sides. *)
Definition pair_of_important : list Timeline.LaneDatum :=
  [ {| Timeline.id := "1"; Timeline.title := "Iron Man"; Timeline.phase := 1; Timeline.releaseDate := Some 0%Z;
       Timeline.releaseDateStr := None; Timeline.posterUrl := ""; Timeline.important := true;
       Timeline.anchor := Some Timeline.bottom; Timeline.note := None; Timeline.__laneTop := None; Timeline.__laneBottom := None |};
    {| Timeline.id := "2"; Timeline.title := "The Avengers"; Timeline.phase := 1; Timeline.releaseDate := Some 5%Z;
       Timeline.releaseDateStr := None; Timeline.posterUrl := ""; Timeline.important := true;
       Timeline.anchor := Some Timeline.top; Timeline.note := None; Timeline.__laneTop := None; Timeline.__laneBottom := None |} ].


(** A catalog of two years, and ten reviews in file order: nine of the 2008
    movie, with one of the 2010 movie among them. *)
Definition movieOf (title : string) (year : Z) : Reviews.Movie.t :=
  {| Reviews.Movie.id := Some ""; Reviews.Movie.title := Some title;
     Reviews.Movie.releaseYear := Some (inject_Z year);
     Reviews.Movie.imdbAverageRating := None; Reviews.Movie.numberVotes := None |}.

Definition reviewOf (title author : string) : Reviews.Review.t :=
  {| Reviews.Review.movie := Some title; Reviews.Review.imdbId := None;
     Reviews.Review.author := Some author; Reviews.Review.date := None;
     Reviews.Review.reviewRating := None; Reviews.Review.reviewTitle := None;
     Reviews.Review.review := None; Reviews.Review.likes := None;
     Reviews.Review.dislikes := None |}.

Definition movies : list Reviews.Movie.t :=
  [movieOf "Iron Man" 2008; movieOf "Iron Man 2" 2010].

Definition reviews : list Reviews.Review.t :=
  [reviewOf "Iron Man" "a"; reviewOf "Iron Man" "b"; reviewOf "Iron Man 2" "c";
   reviewOf "Iron Man" "d"; reviewOf "Iron Man" "e"; reviewOf "Iron Man" "f";
   reviewOf "Iron Man" "g"; reviewOf "Iron Man" "h"; reviewOf "Iron Man" "i";
   reviewOf "Iron Man" "j"].

End Samples.

(** * Properties *)

(** ** The stable sort *)

Module JSFacts.
Import JS.

Section Sort.
Context {A : Type} (cmp : A -> A -> comparison).

Lemma insertSorted_perm x l : insertSorted cmp x l ≡ₚ x :: l.
Proof.
  induction l as [|y l IH]; simpl; [done|].
  destruct (cmp x y); try done.
  rewrite IH. apply Permutation_swap.
Qed.

Lemma sortBy_perm l : sortBy cmp l ≡ₚ l.
Proof.
  induction l as [|x l IH]; simpl; [done|].
  by rewrite insertSorted_perm, IH.
Qed.

Lemma sortBy_elem_of x l : x ∈ sortBy cmp l <-> x ∈ l.
Proof. by rewrite sortBy_perm. Qed.

(** Sortedness needs the comparator to be a total preorder, at least on the
    elements that occur (a comparator that yields NaN on some values is one
    only away from them). *)
Variable P : A -> Prop.
Hypothesis cmp_total : forall x y, P x -> P y -> cmp x y = Gt -> cmpLe cmp y x.
Hypothesis cmp_trans : forall x y z,
  P x -> P y -> P z -> cmpLe cmp x y -> cmpLe cmp y z -> cmpLe cmp x z.

Lemma insertSorted_sorted x l :
  P x -> Forall P l ->
  StronglySorted (cmpLe cmp) l -> StronglySorted (cmpLe cmp) (insertSorted cmp x l).
Proof.
  intros Hx HP. induction 1 as [|y l Hl IH Hy]; simpl.
  - repeat constructor.
  - apply Forall_cons in HP as [HPy HP].
    assert (cmpLe cmp x y -> StronglySorted (cmpLe cmp) (x :: y :: l)) as Hfront.
    { intros Hxy. constructor; [by constructor|]. constructor; [done|].
      apply List.Forall_forall. intros z Hz.
      apply (cmp_trans x y z); [done..| |done|].
      - apply list_elem_of_In in Hz. revert z Hz. by apply Forall_forall.
      - revert z Hz. by apply List.Forall_forall. }
    destruct (cmp x y) eqn:E.
    + apply Hfront. unfold cmpLe. congruence.
    + apply Hfront. unfold cmpLe. congruence.
    + constructor; [by apply IH|].
      rewrite insertSorted_perm. constructor; [by apply cmp_total|done].
Qed.

Lemma sortBy_Forall l : Forall P l -> Forall P (sortBy cmp l).
Proof. intros H. by rewrite sortBy_perm. Qed.

Lemma sortBy_sorted_on l : Forall P l -> StronglySorted (cmpLe cmp) (sortBy cmp l).
Proof.
  induction 1 as [|x l Hx Hl IH]; simpl; [constructor|].
  apply insertSorted_sorted; [done| |done]. by apply sortBy_Forall.
Qed.

End Sort.

Lemma sortBy_sorted {A} (cmp : A -> A -> comparison) l :
  (forall x y, cmp x y = Gt -> JS.cmpLe cmp y x) ->
  (forall x y z, JS.cmpLe cmp x y -> JS.cmpLe cmp y z -> JS.cmpLe cmp x z) ->
  StronglySorted (JS.cmpLe cmp) (JS.sortBy cmp l).
Proof.
  intros Htot Htrans. apply (sortBy_sorted_on cmp (fun _ => True)); [eauto..|].
  apply Forall_forall. done.
Qed.

Lemma clamp_lower v lo hi : (lo <= JS.clamp v lo hi)%Q.
Proof. apply Q.le_max_l. Qed.

Lemma clamp_upper v lo hi : (lo <= hi)%Q -> (JS.clamp v lo hi <= hi)%Q.
Proof.
  intros H. unfold JS.clamp. apply Q.max_lub; [done|]. apply Q.le_min_l.
Qed.

End JSFacts.

(** ** Lane assignment of the connection arcs *)

Module ConnectionsFacts.
Import Connections.
Local Open Scope Q_scope.

Lemma Qle_bool_false (p q : Q) : Qle_bool p q = false <-> q < p.
Proof.
  split; intros H.
  - destruct (Qlt_le_dec q p) as [|Hle]; [done|].
    apply Qle_bool_iff in Hle. congruence.
  - destruct (Qle_bool p q) eqn:E; [|done].
    apply Qle_bool_iff in E. lra.
Qed.

Lemma scanLanes_le leftX ends : (scanLanes leftX ends <= length ends)%nat.
Proof.
  induction ends as [|r ends IH]; simpl; [lia|].
  destruct (Qle_bool _ _); simpl; lia.
Qed.

(** Every lane skipped by the scan blocks [leftX]. *)
Lemma scanLanes_skipped leftX ends j r :
  (j < scanLanes leftX ends)%nat -> ends !! j = Some r -> leftX <= r + 8.
Proof.
  revert j. induction ends as [|r0 ends IH]; intros j Hj Hr; simpl in *; [lia|].
  destruct (Qle_bool leftX (r0 + 8)) eqn:E; [|lia].
  destruct j as [|j]; simpl in *.
  - injection Hr as <-. by apply Qle_bool_iff.
  - apply (IH j); [lia|done].
Qed.

(** The lane at which the scan stops, when it exists, is free. *)
Lemma scanLanes_stop leftX ends r :
  ends !! scanLanes leftX ends = Some r -> r + 8 < leftX.
Proof.
  induction ends as [|r0 ends IH]; simpl; [done|].
  destruct (Qle_bool leftX (r0 + 8)) eqn:E; simpl.
  - exact IH.
  - intros [= <-]. by apply Qle_bool_false.
Qed.

Lemma occupy_lookup_eq ends k r :
  (k <= length ends)%nat -> occupy ends k r !! k = Some r.
Proof.
  intros Hk. unfold occupy. case_decide as E.
  - subst k. rewrite lookup_app_r by lia. by rewrite Nat.sub_diag.
  - apply list_lookup_insert_eq. lia.
Qed.

Lemma occupy_lookup_ne ends k j r v :
  j <> k -> ends !! j = Some v -> occupy ends k r !! j = Some v.
Proof.
  intros Hne Hj. unfold occupy. case_decide as E.
  - by apply lookup_app_l_Some.
  - by rewrite list_lookup_insert_ne.
Qed.

Lemma occupy_length ends k r :
  (k <= length ends)%nat ->
  length (occupy ends k r) = (if decide (k = length ends) then S (length ends) else length ends).
Proof.
  intros Hk. unfold occupy. case_decide.
  - rewrite length_app. simpl. lia.
  - by rewrite length_insert.
Qed.

(** Whatever is placed later in a lane that already exists starts more than
    8px to the right of that lane's current right end. *)
Lemma assignLanesFrom_beyond arcs : forall ends p r,
  Forall wellFormed arcs ->
  p ∈ assignLanesFrom ends arcs ->
  ends !! lane p = Some r ->
  r + 8 < Arc.leftX (arc p).
Proof.
  induction arcs as [|d arcs IH]; intros ends p r Hwf Hin Hr; simpl in *.
  - by apply elem_of_nil in Hin.
  - apply Forall_cons in Hwf as [Hd Hwf].
    apply elem_of_cons in Hin as [->|Hin]; simpl in *.
    + by apply scanLanes_stop in Hr.
    + set (k := scanLanes (Arc.leftX d) ends) in *.
      destruct (decide (lane p = k)) as [E|E].
      * assert (r + 8 < Arc.leftX d) as H1
          by (apply (scanLanes_stop _ ends); unfold k in E; by rewrite <- E).
        assert (Arc.rightX d + 8 < Arc.leftX (arc p)) as H2.
        { apply (IH (occupy ends k (Arc.rightX d))); [done..|].
          rewrite E. apply occupy_lookup_eq, scanLanes_le. }
        unfold wellFormed in Hd. lra.
      * apply (IH (occupy ends k (Arc.rightX d))); [done..|].
        by apply occupy_lookup_ne.
Qed.

Lemma assignLanesFrom_ordered arcs : forall ends i j p q,
  Forall wellFormed arcs ->
  (i < j)%nat ->
  assignLanesFrom ends arcs !! i = Some p ->
  assignLanesFrom ends arcs !! j = Some q ->
  lane p = lane q ->
  Arc.rightX (arc p) + 8 < Arc.leftX (arc q).
Proof.
  induction arcs as [|d arcs IH]; intros ends i j p q Hwf Hij Hi Hj Hlane;
    simpl in *; [done|].
  apply Forall_cons in Hwf as [Hd Hwf].
  destruct j as [|j]; [lia|]. simpl in Hj.
  destruct i as [|i]; simpl in Hi.
  - injection Hi as <-. simpl in *.
    eapply assignLanesFrom_beyond; [done| |].
    + eapply list_elem_of_lookup_2, Hj.
    + rewrite <- Hlane. apply occupy_lookup_eq, scanLanes_le.
  - eapply (IH _ i j); eauto. lia.
Qed.

(** C1. Lane-assignment invariant: for every list of resolved intervals
    (left end at or before right end), any two distinct intervals that
    [assignLanes] puts in the same lane have pixel spans that stay more than
    the 8px gap apart. *)
Theorem assignLanes_same_lane_apart (arcs : list Arc.t) (i j : nat) (p q : LanedArc) :
  Forall wellFormed arcs ->
  i <> j ->
  assignLanes arcs !! i = Some p ->
  assignLanes arcs !! j = Some q ->
  lane p = lane q ->
  apartByGap (arc p) (arc q).
Proof.
  intros Hwf Hij Hi Hj Hlane. unfold assignLanes, apartByGap in *.
  destruct (decide (i < j)%nat).
  - left. by eapply (assignLanesFrom_ordered arcs [] i j).
  - right. eapply (assignLanesFrom_ordered arcs [] j i); eauto. lia.
Qed.

Lemma assignLanes_same_lane_apart_witness :
  match assignLanes (resolvedAll Examples.pxPerMs Examples.spaced) with
  | [p; q] => apartByGap (arc p) (arc q)
  | _ => False
  end.
Proof.
  destruct (assignLanes (resolvedAll Examples.pxPerMs Examples.spaced))
    as [|p [|q [|? ?]]] eqn:E; try (vm_compute in E; discriminate E).
  apply (assignLanes_same_lane_apart
           (resolvedAll Examples.pxPerMs Examples.spaced) 0 1 p q).
  - repeat constructor; unfold wellFormed; vm_compute; discriminate.
  - lia.
  - rewrite E. reflexivity.
  - rewrite E. reflexivity.
  - vm_compute in E. by injection E as <- <-.
Defined.

(** Intervals built by [resolve] are well formed, so the invariant applies to
    both sides of the rendered chart. *)
Lemma resolve_wellFormed x byT c d : resolve x byT c = Some d -> wellFormed d.
Proof.
  unfold resolve, wellFormed. intros H.
  destruct (byT !! Connection.from c); [|done].
  destruct (byT !! Connection.to c); [|done].
  injection H as <-. simpl.
  eapply Qle_trans; [apply Q.le_min_l|apply Q.le_max_l].
Qed.

Lemma resolvedAllOf_wellFormed x conns movies :
  Forall wellFormed (resolvedAllOf x conns movies).
Proof.
  apply Forall_forall. intros d Hd. unfold resolvedAllOf in Hd.
  apply JSFacts.sortBy_elem_of, list_elem_of_omap in Hd as (c & _ & Hc).
  by eapply resolve_wellFormed.
Qed.

Lemma resolvedAll_wellFormed x movies : Forall wellFormed (resolvedAll x movies).
Proof. exact (resolvedAllOf_wellFormed x CONNECTIONS movies). Qed.

Lemma side_wellFormed x conns filterMode movies s :
  Forall wellFormed (List.filter (onSide s) (resolvedVisibleOf x conns filterMode movies)).
Proof.
  apply Forall_forall. intros d Hd. unfold resolvedVisibleOf in Hd.
  apply list_elem_of_In, filter_In in Hd as [Hd _].
  apply filter_In in Hd as [Hd _].
  apply list_elem_of_In in Hd.
  revert d Hd. apply Forall_forall, resolvedAllOf_wellFormed.
Qed.

(** *** First fit *)

Lemma arcCmp_le p q : JS.cmpLe arcCmp p q <-> startThenSpan p q.
Proof.
  unfold JS.cmpLe, arcCmp, startThenSpan.
  destruct (Arc.leftX p ?= Arc.leftX q) eqn:E.
  - apply Qeq_alt in E. rewrite <- Qle_alt. split; [by right|].
    intros [H|[_ H]]; [lra|done].
  - apply Qlt_alt in E. split; [by left|done].
  - apply Qgt_alt in E. split; [done|]. intros [H|[H _]]; lra.
Qed.

Lemma arcCmp_total p q : arcCmp p q = Gt -> JS.cmpLe arcCmp q p.
Proof.
  intros H. apply arcCmp_le. unfold arcCmp, startThenSpan in *.
  destruct (Arc.leftX p ?= Arc.leftX q) eqn:E; [| done |].
  - apply Qeq_alt in E. apply Qgt_alt in H. right. split; lra.
  - apply Qgt_alt in E. by left.
Qed.

Lemma startThenSpan_trans p q r :
  startThenSpan p q -> startThenSpan q r -> startThenSpan p r.
Proof.
  unfold startThenSpan. intros [H1|[H1 H1']] [H2|[H2 H2']].
  - left; lra.
  - left; lra.
  - left; lra.
  - right; split; lra.
Qed.

Lemma arcCmp_trans p q r :
  JS.cmpLe arcCmp p q -> JS.cmpLe arcCmp q r -> JS.cmpLe arcCmp p r.
Proof. rewrite !arcCmp_le. apply startThenSpan_trans. Qed.

Lemma StronglySorted_filter {A} (R : A -> A -> Prop) (f : A -> bool) l :
  StronglySorted R l -> StronglySorted R (List.filter f l).
Proof.
  induction 1 as [|y l Hl IH Hy]; simpl; [constructor|].
  destruct (f y); [|done].
  constructor; [done|].
  apply List.Forall_forall. intros z Hz. apply filter_In in Hz as [Hz _].
  revert z Hz. by apply List.Forall_forall.
Qed.

Lemma StronglySorted_weaken {A} (R1 R2 : A -> A -> Prop) l :
  (forall p q, R1 p q -> R2 p q) -> StronglySorted R1 l -> StronglySorted R2 l.
Proof.
  intros HR. induction 1 as [|y l Hl IH Hy]; constructor; [done|].
  eapply List.Forall_impl; [|exact Hy]. apply HR.
Qed.

Lemma resolvedAllOf_sorted x conns movies :
  StronglySorted startThenSpan (resolvedAllOf x conns movies).
Proof.
  unfold resolvedAllOf.
  eapply StronglySorted_weaken; [|apply (JSFacts.sortBy_sorted arcCmp)].
  - intros p q. apply arcCmp_le.
  - apply arcCmp_total.
  - apply arcCmp_trans.
Qed.

(** The list handed to [assignLanes] for either side is in allocation order. *)
Lemma assignLanes_input_sorted x conns filterMode movies s :
  StronglySorted startThenSpan
    (List.filter (onSide s) (resolvedVisibleOf x conns filterMode movies)).
Proof.
  unfold resolvedVisibleOf.
  do 2 apply StronglySorted_filter. apply resolvedAllOf_sorted.
Qed.

Lemma scanLanes_firstFit ends start :
  firstFitLane fitsStrict ends start (scanLanes start ends).
Proof.
  split; [apply scanLanes_le|]. split.
  - intros j r Hj Hr. unfold fitsStrict.
    pose proof (scanLanes_skipped _ _ _ _ Hj Hr). lra.
  - intros r Hr. apply scanLanes_stop in Hr. unfold fitsStrict. lra.
Qed.

Lemma occupy_laneUpdated ends k e :
  (k <= length ends)%nat -> laneUpdated ends k e (occupy ends k e).
Proof.
  intros Hk. split; [|split].
  - rewrite occupy_length by done. case_decide; lia.
  - by apply occupy_lookup_eq.
  - intros j Hj. unfold occupy. case_decide as E.
    + subst k. destruct (decide (j < length ends)%nat).
      * by rewrite lookup_app_l.
      * rewrite !lookup_ge_None_2; [done|lia|]. rewrite length_app; simpl; lia.
    + by rewrite list_lookup_insert_ne.
Qed.

Lemma assignLanesFrom_firstFit arcs : forall ends,
  FirstFit fitsStrict ends arcs (assignLanesFrom ends arcs).
Proof.
  induction arcs as [|d arcs IH]; intros ends; simpl.
  - constructor.
  - econstructor.
    + apply scanLanes_firstFit.
    + apply occupy_laneUpdated, scanLanes_le.
    + apply IH.
Qed.

(** With two intervals and no lane to start with, the second interval goes
    to lane 0 as soon as the test lets it follow the first. *)
Lemma FirstFit_second_reuses fits dA dB pA pB :
  FirstFit fits [] [dA; dB] [pA; pB] ->
  fits (Arc.rightX dA) (Arc.leftX dB) ->
  lane pB = 0%nat.
Proof.
  intros H Hfits.
  inversion H as [|ends d rest kA ends' out HA HuA Hrest]; subst.
  inversion Hrest as [|ends d rest kB ends'' out HB HuB _]; subst. simpl.
  destruct HA as (HkA & _). simpl in HkA. assert (kA = 0%nat) as -> by lia.
  destruct HuA as (_ & Hnew & _).
  destruct HB as (_ & Hskip & _).
  destruct kB as [|kB]; [done|].
  destruct (Hskip 0%nat _ ltac:(lia) Hnew Hfits).
Qed.

Lemma assignLanes_first_fit_spec_counterexample :
  let input :=
    List.filter (onSide top) (resolvedVisible Examples.pxPerMs all Examples.touching) in
  ~ FirstFit fitsSpec [] input (assignLanes input).
Proof.
  intros input H.
  destruct input as [|dA [|dB [|? ?]]] eqn:E; try (vm_compute in E; discriminate E).
  vm_compute in E. injection E as <- <-.
  apply FirstFit_second_reuses in H.
  - vm_compute in H. discriminate H.
  - vm_compute. discriminate.
Qed.

(** C2 (amended). First-fit steps: the intervals handed to [assignLanes] for
    one side are in ascending order of start with ties by descending span,
    and the single pass gives each interval the first lane, scanning from 0,
    whose right edge is strictly less than [start - 8], opens a new lane when
    there is none, and sets that lane's right edge to the interval's end. *)
Theorem assignLanes_first_fit_strict
  (x : option Z -> Q) (filterMode : FilterMode) (movies : list Movie) (s : ArcSide) :
  let input := List.filter (onSide s) (resolvedVisible x filterMode movies) in
  StronglySorted startThenSpan input /\
  FirstFit fitsStrict [] input (assignLanes input).
Proof.
  split.
  - exact (assignLanes_input_sorted x CONNECTIONS filterMode movies s).
  - apply assignLanesFrom_firstFit.
Qed.




(** *** Joining relationships against the catalog *)

Lemma byTitle_lookup_from (acc : gmap string Movie) movies t :
  is_Some (foldl (fun acc m => <[title m := m]> acc) acc movies !! t)
  <-> is_Some (acc !! t) \/ inCatalog movies t.
Proof.
  unfold inCatalog. revert acc.
  induction movies as [|m movies IH]; intros acc; simpl.
  - rewrite elem_of_nil. tauto.
  - rewrite IH, elem_of_cons, lookup_insert_is_Some.
    destruct (decide (title m = t)) as [E|E]; intuition congruence.
Qed.

Lemma byTitle_is_Some movies t :
  is_Some (byTitle movies !! t) <-> inCatalog movies t.
Proof.
  unfold byTitle. rewrite byTitle_lookup_from, lookup_empty.
  split; [intros [[? [=]]|]; done | by right].
Qed.

Lemma resolve_is_Some x movies c :
  is_Some (resolve x (byTitle movies) c) <-> resolves movies c.
Proof.
  unfold resolve, resolves. rewrite <- !byTitle_is_Some.
  destruct (byTitle movies !! Connection.from c) as [a|],
           (byTitle movies !! Connection.to c) as [b|];
    (split; [intros [? ?]|intros [[? ?] [? ?]]]; try discriminate; eauto).
Qed.

Lemma resolve_conn x byT c d : resolve x byT c = Some d -> Arc.conn d = c.
Proof.
  unfold resolve.
  destruct (byT !! Connection.from c), (byT !! Connection.to c);
    intros [= <-]; done.
Qed.

Lemma resolvedAllOf_conn x conns movies c :
  c ∈ (Arc.conn <$> resolvedAllOf x conns movies)
  <-> c ∈ conns /\ resolves movies c.
Proof.
  unfold resolvedAllOf. rewrite list_elem_of_fmap. split.
  - intros (d & -> & Hd).
    apply JSFacts.sortBy_elem_of, list_elem_of_omap in Hd as (c & Hc & Hr).
    rewrite (resolve_conn _ _ _ _ Hr). split; [done|].
    apply (resolve_is_Some x). by rewrite Hr.
  - intros [Hc Hr]. apply (resolve_is_Some x) in Hr as [d Hd].
    exists d. split; [by rewrite (resolve_conn _ _ _ _ Hd)|].
    apply JSFacts.sortBy_elem_of, list_elem_of_omap. eauto.
Qed.

Lemma assignLanesFrom_arc arcs : forall ends,
  arc <$> assignLanesFrom ends arcs = arcs.
Proof.
  induction arcs as [|d arcs IH]; intros ends; simpl; [done|].
  by rewrite IH.
Qed.

Lemma arcsWithLaneOf_elem_of x conns filterMode movies d :
  d ∈ (arc <$> arcsWithLaneOf x conns filterMode movies)
  <-> d ∈ resolvedAllOf x conns movies /\ passesFilter filterMode d = true.
Proof.
  unfold arcsWithLaneOf, assignLanes, resolvedVisibleOf. cbv zeta.
  rewrite fmap_app, !assignLanesFrom_arc, elem_of_app, !list_elem_of_In.
  rewrite !filter_In.
  unfold onSide. destruct (Arc.side d) eqn:E.
  - rewrite bool_decide_eq_true_2, bool_decide_eq_false_2 by done.
    intuition congruence.
  - rewrite bool_decide_eq_false_2, bool_decide_eq_true_2 by done.
    intuition congruence.
Qed.

(** Under any arc-type filter the drawn relationships are the resolvable
    ones of the selected type. *)
Lemma renderedOf_elem_of x conns filterMode movies c :
  c ∈ renderedOf x conns filterMode movies
  <-> c ∈ conns /\ resolves movies c /\
      match filterMode with all => True | only t => Connection.type c = t end.
Proof.
  unfold renderedOf. rewrite list_elem_of_fmap. split.
  - intros (p & -> & Hp).
    assert (arc p ∈ arc <$> arcsWithLaneOf x conns filterMode movies) as H
      by (apply list_elem_of_fmap; eauto).
    apply arcsWithLaneOf_elem_of in H as [H1 H2].
    assert (Arc.conn (arc p) ∈ Arc.conn <$> resolvedAllOf x conns movies) as H3
      by (apply list_elem_of_fmap; eauto).
    apply resolvedAllOf_conn in H3 as [? ?]. do 2 (split; [done|]).
    destruct filterMode; [done|].
    simpl in H2. by apply bool_decide_eq_true in H2.
  - intros (Hc & Hr & Hf).
    assert (c ∈ Arc.conn <$> resolvedAllOf x conns movies) as H
      by (by apply resolvedAllOf_conn).
    apply list_elem_of_fmap in H as (d & -> & Hd).
    assert (d ∈ arc <$> arcsWithLaneOf x conns filterMode movies) as H.
    { apply arcsWithLaneOf_elem_of. split; [done|].
      destruct filterMode; [done|]. simpl. by apply bool_decide_eq_true. }
    apply list_elem_of_fmap in H as (p & -> & Hp). eauto.
Qed.

(** C6. Join-failure handling: a relationship survives the join
    ([resolvedAll]), and is drawn under the default [all] filter, exactly
    when it is one of [CONNECTIONS] and both its [from] and [to] titles have
    an exact match in the catalog; a tuple with an unmatched title is
    dropped, every other tuple is kept. *)
Theorem resolvedAll_drops_unmatched
  (x : option Z -> Q) (movies : list Movie) (c : Connection.t) :
  (c ∈ (Arc.conn <$> resolvedAll x movies)
     <-> c ∈ CONNECTIONS /\ resolves movies c) /\
  (c ∈ rendered x all movies
     <-> c ∈ CONNECTIONS /\ resolves movies c).
Proof.
  split; [exact (resolvedAllOf_conn x CONNECTIONS movies c)|].
  pose proof (renderedOf_elem_of x CONNECTIONS all movies c) as H.
  unfold rendered. tauto.
Qed.

(** *** More on the lane allocator and the join *)






(** X3. The arc-type filter: under filter mode [only t] the drawn
    relationships are exactly the tuples of [CONNECTIONS] of type [t] whose
    two titles are in the catalog; under [all] the type does not matter. *)
Theorem rendered_filter
  (x : option Z -> Q) (filterMode : FilterMode) (movies : list Movie) (c : Connection.t) :
  c ∈ rendered x filterMode movies
  <-> c ∈ CONNECTIONS /\ resolves movies c /\
      (filterMode = all \/ filterMode = only (Connection.type c)).
Proof.
  pose proof (renderedOf_elem_of x CONNECTIONS filterMode movies c) as H.
  unfold rendered. rewrite H. clear H.
  destruct filterMode as [|t]; split.
  - intros (? & ? & _). auto.
  - intros (? & ? & _). auto.
  - intros (? & ? & <-). auto.
  - intros (? & ? & [[=]|[= ->]]). auto.
Qed.

Lemma onSide_bottom d : onSide bottom d = negb (onSide top d).
Proof. unfold onSide. by destruct (Arc.side d). Qed.

Lemma filter_partition {A} (f : A -> bool) (l : list A) :
  List.filter f l ++ List.filter (fun a => negb (f a)) l ≡ₚ l.
Proof.
  induction l as [|a l IH]; simpl; [done|].
  destruct (f a); simpl.
  - by rewrite IH.
  - by rewrite <- Permutation_middle, IH.
Qed.

Lemma arcsWithLaneOf_perm x conns filterMode movies :
  arc <$> arcsWithLaneOf x conns filterMode movies
  ≡ₚ resolvedVisibleOf x conns filterMode movies.
Proof.
  unfold arcsWithLaneOf, assignLanes. cbv zeta.
  rewrite fmap_app, !assignLanesFrom_arc.
  rewrite (List.filter_ext (onSide bottom) (fun d => negb (onSide top d)))
    by apply onSide_bottom.
  apply filter_partition.
Qed.

(** X4. Every visible relationship is drawn exactly once: the arcs that get
    a lane, top side first, are a rearrangement of the resolved
    relationships that pass the filter. *)
Theorem arcsWithLane_perm
  (x : option Z -> Q) (filterMode : FilterMode) (movies : list Movie) :
  arc <$> arcsWithLane x filterMode movies ≡ₚ resolvedVisible x filterMode movies.
Proof. exact (arcsWithLaneOf_perm x CONNECTIONS filterMode movies). Qed.

Lemma byTitle_last_from (acc : gmap string Movie) movies t :
  foldl (fun acc m => <[title m := m]> acc) acc movies !! t
  = match last (List.filter (fun m => bool_decide (title m = t)) movies) with
    | Some m => Some m
    | None => acc !! t
    end.
Proof.
  revert acc. induction movies as [|m movies IH]; intros acc; simpl; [done|].
  rewrite IH. destruct (decide (title m = t)) as [E|E].
  - rewrite bool_decide_eq_true_2 by done.
    destruct (List.filter _ movies) as [|m' l] eqn:Ef.
    + simpl. rewrite <- E. apply lookup_insert_eq.
    + rewrite last_cons_cons.
      destruct (last (m' :: l)) eqn:El; [done|]. by apply last_None in El.
  - rewrite bool_decide_eq_false_2 by done.
    destruct (last _); [done|]. by apply lookup_insert_ne.
Qed.

Lemma byTitle_last_entry (movies : list Movie) (t : string) :
  byTitle movies !! t = last (List.filter (fun m => bool_decide (title m = t)) movies).
Proof.
  unfold byTitle. rewrite byTitle_last_from, lookup_empty. by destruct (last _).
Qed.

(** X5. Duplicate titles: [byTitle] maps a title to the last catalog entry
    that carries it, and to nothing when no entry does. *)
Theorem byTitle_last (movies : list Movie) (t : string) :
  byTitle movies !! t = last (List.filter (fun m => bool_decide (title m = t)) movies).
Proof.
  unfold byTitle. rewrite byTitle_last_from, lookup_empty. by destruct (last _).
Qed.

Lemma byTitle_Some movies t m :
  byTitle movies !! t = Some m -> m ∈ movies /\ title m = t.
Proof.
  rewrite byTitle_last_entry. intros H. apply last_Some in H as [l' Hl].
  assert (In m (List.filter (fun m => bool_decide (title m = t)) movies)) as Hin.
  { rewrite Hl. apply in_or_app. right. by left. }
  apply filter_In in Hin as [Hin Ht]. apply bool_decide_eq_true in Ht.
  split; [by apply list_elem_of_In|done].
Qed.

Lemma resolve_endpoints x movies c d :
  resolve x (byTitle movies) c = Some d ->
  Arc.conn d = c /\
  Arc.a d ∈ movies /\ title (Arc.a d) = Connection.from c /\
  Arc.b d ∈ movies /\ title (Arc.b d) = Connection.to c /\
  Arc.x1 d = x (releaseDate (Arc.a d)) /\ Arc.x2 d = x (releaseDate (Arc.b d)) /\
  Arc.leftX d <= Arc.x1 d <= Arc.rightX d /\
  Arc.leftX d <= Arc.x2 d <= Arc.rightX d /\
  Arc.span d == Qabs (Arc.x2 d - Arc.x1 d).
Proof.
  unfold resolve.
  destruct (byTitle movies !! Connection.from c) as [a|] eqn:Ha; [|done].
  destruct (byTitle movies !! Connection.to c) as [b|] eqn:Hb; [|done].
  intros [= <-].
  cbn [Arc.conn Arc.a Arc.b Arc.x1 Arc.x2 Arc.leftX Arc.rightX Arc.span].
  apply byTitle_Some in Ha as [? ?]. apply byTitle_Some in Hb as [? ?].
  do 7 (split; [done|]).
  generalize (x (releaseDate a)) (x (releaseDate b)). intros p q.
  split; [split; [apply Q.le_min_l|apply Q.le_max_l]|].
  split; [split; [apply Q.le_min_r|apply Q.le_max_r]|].
  destruct (Qlt_le_dec q p) as [Hlt|Hle].
  - pose proof (Qabs_neg (q - p) ltac:(lra)) as Ha.
    pose proof (Q.min_r p q ltac:(lra)) as Hmin.
    pose proof (Q.max_l p q ltac:(lra)) as Hmax. lra.
  - pose proof (Qabs_pos (q - p) ltac:(lra)) as Ha.
    pose proof (Q.min_l p q ltac:(lra)) as Hmin.
    pose proof (Q.max_r p q ltac:(lra)) as Hmax. lra.
Qed.

(** X6. What a resolved arc is: every element of [resolvedAll] spans two
    catalog movies whose titles are the [from] and [to] of its relationship;
    [x1] and [x2] are their pixel positions, [leftX] and [rightX] bracket
    both, and [span] is the distance between them. *)
Theorem resolvedAll_endpoints (x : option Z -> Q) (movies : list Movie) :
  Forall
    (fun d =>
       Arc.a d ∈ movies /\ title (Arc.a d) = Connection.from (Arc.conn d) /\
       Arc.b d ∈ movies /\ title (Arc.b d) = Connection.to (Arc.conn d) /\
       Arc.x1 d = x (releaseDate (Arc.a d)) /\ Arc.x2 d = x (releaseDate (Arc.b d)) /\
       Arc.leftX d <= Arc.x1 d <= Arc.rightX d /\
       Arc.leftX d <= Arc.x2 d <= Arc.rightX d /\
       Arc.span d == Qabs (Arc.x2 d - Arc.x1 d))
    (resolvedAll x movies).
Proof.
  assert (forall conns, Forall
    (fun d =>
       Arc.a d ∈ movies /\ title (Arc.a d) = Connection.from (Arc.conn d) /\
       Arc.b d ∈ movies /\ title (Arc.b d) = Connection.to (Arc.conn d) /\
       Arc.x1 d = x (releaseDate (Arc.a d)) /\ Arc.x2 d = x (releaseDate (Arc.b d)) /\
       Arc.leftX d <= Arc.x1 d <= Arc.rightX d /\
       Arc.leftX d <= Arc.x2 d <= Arc.rightX d /\
       Arc.span d == Qabs (Arc.x2 d - Arc.x1 d))
    (resolvedAllOf x conns movies)) as H; [|exact (H CONNECTIONS)].
  intros conns. apply Forall_forall. intros d Hd. unfold resolvedAllOf in Hd.
  apply JSFacts.sortBy_elem_of, list_elem_of_omap in Hd as (c & _ & Hc).
  apply resolve_endpoints in Hc as (-> & H). exact H.
Qed.
End ConnectionsFacts.

(** ** The arc paths *)

Module ArcPathFacts.
Import ArcPath.
Local Open Scope Q_scope.



End ArcPathFacts.

(** ** The label placer *)

Module LabelPlacerFacts.
Import LabelPlacer.
Local Open Scope Q_scope.

Section Layout.
Variables (originX originY : Q) (direction : Direction) (containerH gap : Q).

(** What one run of the [while] loop can do to a card's [top]: leave it
    alone, or leave it at a clamped value. *)
Definition settled (start : Q) (e : Element) : Prop :=
  styleTop e = start \/
  (6 <= styleTop e /\
   (6 <= containerH - offsetHeight e - 6 -> styleTop e <= containerH - offsetHeight e - 6)).

Lemma pushedTop_clamped a b :
  let t := pushedTop direction containerH gap a
             (getBoundingClientRect originX originY a)
             (getBoundingClientRect originX originY b) in
  6 <= t /\ (6 <= containerH - offsetHeight a - 6 -> t <= containerH - offsetHeight a - 6).
Proof.
  unfold pushedTop. simpl. split.
  - apply JSFacts.clamp_lower.
  - apply JSFacts.clamp_upper.
Qed.

Lemma pushLoop_passes budget placed a :
  (snd (pushLoop originX originY direction containerH gap budget placed a) <= budget)%nat.
Proof.
  revert a. induction budget as [|budget IH]; intros a; simpl; [lia|].
  destruct (firstOverlap _ _ _ _ _) as [b|]; simpl; [|lia].
  specialize (IH {| el := setTop (el a)
                      (pushedTop direction containerH gap (el a)
                         (getBoundingClientRect originX originY (el a))
                         (getBoundingClientRect originX originY (el b)));
                    cx := cx a |}).
  destruct (pushLoop _ _ _ _ _ _ _ _) as [r n]. simpl in *. lia.
Qed.

(** The loop body runs at least once whenever the budget allows it. *)
Lemma pushLoop_ran budget placed a :
  (1 <= snd (pushLoop originX originY direction containerH gap (S budget) placed a))%nat.
Proof.
  simpl. destruct (firstOverlap _ _ _ _ _) as [b|]; simpl; [|lia].
  destruct (pushLoop _ _ _ _ _ _ _ _) as [r n]. simpl. lia.
Qed.

(** The loop only ever rewrites [style.top]. *)
Lemma pushLoop_same_card budget placed a :
  let r := fst (pushLoop originX originY direction containerH gap budget placed a) in
  cx r = cx a /\ text (el r) = text (el a) /\ styleLeft (el r) = styleLeft (el a) /\
  offsetWidth (el r) = offsetWidth (el a) /\ offsetHeight (el r) = offsetHeight (el a).
Proof.
  revert a. induction budget as [|budget IH]; intros a; simpl; [done|].
  destruct (firstOverlap _ _ _ _ _) as [b|]; simpl; [|done].
  specialize (IH {| el := setTop (el a)
                      (pushedTop direction containerH gap (el a)
                         (getBoundingClientRect originX originY (el a))
                         (getBoundingClientRect originX originY (el b)));
                    cx := cx a |}).
  destruct (pushLoop _ _ _ _ _ _ _ _) as [r n]. simpl in *. done.
Qed.

Lemma pushLoop_settled budget placed a :
  settled (styleTop (el a))
    (el (fst (pushLoop originX originY direction containerH gap budget placed a))).
Proof.
  assert (forall a start, settled start (el a) ->
    settled start
      (el (fst (pushLoop originX originY direction containerH gap budget placed a))))
    as H; [|apply H; by left].
  clear a. induction budget as [|budget IH]; intros a start Ha; simpl; [done|].
  destruct (firstOverlap _ _ _ _ _) as [b|]; simpl; [|done].
  set (a' := {| el := setTop (el a) _; cx := cx a |}).
  specialize (IH a' start).
  destruct (pushLoop _ _ _ _ _ _ _ _) as [r n]. simpl in *.
  apply IH. right. apply (pushedTop_clamped (el a) (el b)).
Qed.

(** A card that was never moved made a single pass. *)
Lemma pushLoop_untouched budget placed a :
  firstOverlap originX originY gap placed a = None ->
  pushLoop originX originY direction containerH gap (S budget) placed a = (a, 1%nat).
Proof. intros H. simpl. by rewrite H. Qed.

Definition bounded (baseTop : Q) (p : Node * nat) : Prop :=
  (1 <= snd p <= 60)%nat /\ settled baseTop (el (fst p)).

Lemma layoutFrom_bounded baseTop todo : forall placed,
  Forall (bounded baseTop) placed ->
  Forall (fun a => styleTop (el a) = baseTop) todo ->
  Forall (bounded baseTop)
    (layoutFrom originX originY direction containerH gap placed todo).
Proof.
  induction todo as [|a todo IH]; intros placed Hp Ht; cbn [layoutFrom]; [exact Hp|].
  apply Forall_cons in Ht as [Ha Ht].
  apply IH; [|exact Ht]. apply Forall_app. split; [exact Hp|].
  apply Forall_singleton. split.
  - split; [apply pushLoop_ran|apply pushLoop_passes].
  - rewrite <- Ha. apply pushLoop_settled.
Qed.

(** C3 (amended). Termination and band bounds: for every list of label boxes
    the placer returns, the push loop of each box makes between 1 and 60
    passes, and the box's returned top is either the base top it started at
    (it was never pushed) or a clamped value: at least 6, and at most
    [containerH - boxHeight - 6] whenever that bound is itself at least 6. *)
Theorem resolveBandVerticalLayout_bounded (nodes : list Node) (baseTop : Q) :
  Forall
    (fun p : Node * nat =>
       (1 <= snd p <= 60)%nat /\
       (styleTop (el (fst p)) = baseTop \/
        (6 <= styleTop (el (fst p)) /\
         (6 <= containerH - offsetHeight (el (fst p)) - 6 ->
          styleTop (el (fst p)) <= containerH - offsetHeight (el (fst p)) - 6))))
    (resolveBandVerticalLayout originX originY direction containerH gap nodes baseTop).
Proof.
  apply (layoutFrom_bounded baseTop); [constructor|].
  apply Forall_fmap, Forall_forall. intros n _. reflexivity.
Qed.

(** When the base top already lies in the band of every card, so does every
    returned top. *)
Lemma resolveBandVerticalLayout_inBand (nodes : list Node) (baseTop : Q) :
  Forall (fun n => inBand containerH baseTop (el n)) nodes ->
  Forall (fun p : Node * nat => inBand containerH (styleTop (el (fst p))) (el (fst p)))
    (resolveBandVerticalLayout originX originY direction containerH gap nodes baseTop).
Proof.
  intros Hin.
  assert (forall todo placed,
    Forall (fun p : Node * nat => inBand containerH (styleTop (el (fst p))) (el (fst p)))
      placed ->
    Forall (fun a => styleTop (el a) = baseTop /\ inBand containerH baseTop (el a)) todo ->
    Forall (fun p : Node * nat => inBand containerH (styleTop (el (fst p))) (el (fst p)))
      (layoutFrom originX originY direction containerH gap placed todo)) as H.
  { induction todo as [|a todo IH]; intros placed Hp Ht; cbn [layoutFrom]; [exact Hp|].
    apply Forall_cons in Ht as [[Ha Hb] Ht].
    apply IH; [|exact Ht]. apply Forall_app. split; [exact Hp|].
    apply Forall_singleton.
    pose proof (pushLoop_settled 60 (fst <$> placed) a) as Hs.
    pose proof (pushLoop_same_card 60 (fst <$> placed) a) as (_ & _ & _ & _ & Hh).
    cbv zeta in Hh. unfold inBand in *. rewrite Hh.
    destruct Hs as [->|[H1 H2]]; [by rewrite Ha|].
    split; [done|]. rewrite Hh in H2. apply H2. lra. }
  apply H; [constructor|].
  apply Forall_fmap, Forall_forall. intros n Hn. simpl. split; [done|].
  revert n Hn. apply Forall_forall.
  eapply Forall_impl; [|intros n Hn; exact Hn].
  apply Forall_forall. intros n Hn. apply JSFacts.sortBy_elem_of in Hn.
  revert n Hn. by apply Forall_forall.
Qed.

End Layout.

Lemma resolveBandVerticalLayout_inBand_witness :
  Forall (fun p : Node * nat => inBand 400 (styleTop (el (fst p))) (el (fst p)))
    (resolveBandVerticalLayout 0 0 down 400 4
       [Examples.card "Iron Man" 200; Examples.card "Iron Man 2" 210;
        Examples.card "Thor" 500] 218).
Proof.
  apply resolveBandVerticalLayout_inBand.
  repeat constructor; vm_compute; discriminate.
Defined.

(** A lone card in a 100px high container keeps the base top
    [yMid - 80 = -30], which is above the band. *)
Lemma resolveBandVerticalLayout_band_counterexample :
  ~ Forall (fun p : Node * nat => inBand 100 (styleTop (el (fst p))) (el (fst p)))
      (resolveBandVerticalLayout 0 0 up 100 4 [Examples.card "Iron Man" 200] (-30)).
Proof.
  intros H.
  destruct (resolveBandVerticalLayout _ _ _ _ _ _ _) as [|[n k] rest] eqn:E;
    [vm_compute in E; discriminate E|].
  apply Forall_inv in H. vm_compute in E. injection E as <- _ _.
  destruct H as [H _]. vm_compute in H. by apply H.
Qed.

(** The cap is reached: two cards in a container too low to separate them. *)
Example pushLoop_cap_reached :
  snd <$> resolveBandVerticalLayout 0 0 down 50 4
            [Examples.card "Iron Man" 200; Examples.card "Iron Man 2" 210] 10
  = [1%nat; 60%nat].
Proof. vm_compute. reflexivity. Qed.

Section Quality.
Variables (originX originY : Q) (direction : Direction) (containerH gap : Q).

Lemma Qltb_true (p q : Q) : JS.Qltb p q = true <-> p < q.
Proof.
  unfold JS.Qltb. rewrite negb_true_iff. split; intros H.
  - destruct (Qlt_le_dec p q) as [|Hle]; [done|].
    apply Qle_bool_iff in Hle. congruence.
  - destruct (Qle_bool q p) eqn:E; [|done]. apply Qle_bool_iff in E. lra.
Qed.

(** The four ways in which the overlap test lets two rectangles pass. *)
Definition clear (a b : DOMRect) (pad : Q) : Prop :=
  right a + pad < left b \/ right b + pad < left a \/
  bottom a + pad < top b \/ bottom b < top a.

Lemma overlaps_false a b pad : overlaps a b pad = false <-> clear a b pad.
Proof.
  unfold overlaps, clear. rewrite negb_false_iff, !orb_true_iff, !Qltb_true. tauto.
Qed.

Lemma firstOverlap_None placed a :
  firstOverlap originX originY gap placed a = None ->
  Forall (fun b => clear (getBoundingClientRect originX originY (el a))
                         (getBoundingClientRect originX originY (el b)) gap) placed.
Proof.
  unfold firstOverlap. cbv zeta. intros H. apply Forall_forall. intros b Hb.
  apply overlaps_false. apply list_elem_of_In in Hb.
  by apply (find_none _ _ H b).
Qed.

Lemma firstOverlap_Some placed a b :
  firstOverlap originX originY gap placed a = Some b -> b ∈ placed.
Proof.
  unfold firstOverlap. cbv zeta. intros H. apply find_some in H as [H _].
  by apply list_elem_of_In.
Qed.

(** A loop that stops before the cap stops because nothing overlaps. *)
Lemma pushLoop_converged budget placed : forall a,
  (snd (pushLoop originX originY direction containerH gap budget placed a) < budget)%nat ->
  firstOverlap originX originY gap placed
    (fst (pushLoop originX originY direction containerH gap budget placed a)) = None.
Proof.
  induction budget as [|budget IH]; intros a; cbn [pushLoop]; [simpl; lia|].
  destruct (firstOverlap originX originY gap placed a) as [b|] eqn:E; [|done].
  specialize (IH {| el := setTop (el a)
                      (pushedTop direction containerH gap (el a)
                         (getBoundingClientRect originX originY (el a))
                         (getBoundingClientRect originX originY (el b)));
                    cx := cx a |}).
  destruct (pushLoop _ _ _ _ _ _ _ _) as [r n]. simpl in *.
  intros Hn. apply IH. lia.
Qed.

Lemma layoutFrom_prefix todo : forall placed,
  exists rest, layoutFrom originX originY direction containerH gap placed todo
               = placed ++ rest.
Proof.
  induction todo as [|a todo IH]; intros placed; cbn [layoutFrom].
  - exists []. by rewrite app_nil_r.
  - destruct (IH (placed ++ [pushLoop originX originY direction containerH gap 60
                               (fst <$> placed) a])) as [rest ->].
    eexists. by rewrite <- app_assoc.
Qed.

Lemma layoutFrom_step todo : forall placed pre p post,
  layoutFrom originX originY direction containerH gap placed todo = pre ++ p :: post ->
  (length placed <= length pre)%nat ->
  exists a, p = pushLoop originX originY direction containerH gap 60 (fst <$> pre) a.
Proof.
  induction todo as [|a todo IH]; intros placed pre p post Hout Hlen;
    cbn [layoutFrom] in Hout.
  - apply (f_equal length) in Hout. rewrite length_app in Hout. simpl in Hout. lia.
  - remember (pushLoop originX originY direction containerH gap 60 (fst <$> placed) a)
      as x eqn:Hx.
    destruct (decide (length pre = length placed)) as [E|E].
    + destruct (layoutFrom_prefix todo (placed ++ [x])) as [rest Hrest].
      rewrite Hrest, <- app_assoc in Hout.
      apply app_inj_1 in Hout as [-> Hout]; [|done].
      cbn [app] in Hout. injection Hout as <- _. by exists a.
    + apply (IH _ pre p post Hout). rewrite length_app. simpl. lia.
Qed.

(** X8. Best-effort quality: a card whose push loop stopped before the
    60-pass cap is clear of every card placed before it (to its left): for
    each such pair, the two rectangles are more than the gap apart
    horizontally, or the later card is more than the gap above the earlier
    one, or strictly below it. *)
Theorem resolveBandVerticalLayout_converged_clear
  (nodes : list Node) (baseTop : Q) (pre post : list (Node * nat)) (n : Node) (k : nat) :
  resolveBandVerticalLayout originX originY direction containerH gap nodes baseTop
    = pre ++ (n, k) :: post ->
  (k < 60)%nat ->
  Forall (fun b : Node * nat =>
            clear (getBoundingClientRect originX originY (el n))
                  (getBoundingClientRect originX originY (el (fst b))) gap)
         pre.
Proof.
  intros Hout Hk. unfold resolveBandVerticalLayout in Hout. cbv zeta in Hout.
  apply layoutFrom_step in Hout as [a Ha]; [|simpl; lia].
  pose proof (pushLoop_converged 60 (fst <$> pre) a) as Hc.
  rewrite <- Ha in Hc. specialize (Hc Hk). cbn [fst snd] in Hc.
  apply firstOverlap_None in Hc. by apply Forall_fmap in Hc.
Qed.

End Quality.

Lemma resolveBandVerticalLayout_converged_clear_witness :
  match resolveBandVerticalLayout 0 0 down 400 4
          [Examples.card "Iron Man" 200; Examples.card "Iron Man 2" 210;
           Examples.card "Thor" 500] 218 with
  | [b; (n, _); _] =>
      Forall (fun b : Node * nat =>
                clear (getBoundingClientRect 0 0 (el n))
                      (getBoundingClientRect 0 0 (el (fst b))) 4) [b]
  | _ => False
  end.
Proof.
  destruct (resolveBandVerticalLayout 0 0 down 400 4
              [Examples.card "Iron Man" 200; Examples.card "Iron Man 2" 210;
               Examples.card "Thor" 500] 218)
    as [|b [|[n k] [|c [|? ?]]]] eqn:E; try (vm_compute in E; discriminate E).
  apply (resolveBandVerticalLayout_converged_clear 0 0 down 400 4
           [Examples.card "Iron Man" 200; Examples.card "Iron Man 2" 210;
            Examples.card "Thor" 500] 218 [b] [c] n k).
  - exact E.
  - vm_compute in E. injection E as _ _ <- _. lia.
Defined.

Section Side.
Variables (originX originY : Q) (direction : Direction) (containerH gap : Q).

(** The side of the base position a band grows to. *)
Definition beyond (baseTop t : Q) : Prop :=
  match direction with
  | up => t <= baseTop
  | down => baseTop <= t
  end.

Lemma pushedTop_beyond a b :
  0 <= gap -> 0 <= offsetHeight b ->
  inBand containerH (styleTop a) a ->
  let t := pushedTop direction containerH gap a
             (getBoundingClientRect originX originY a)
             (getBoundingClientRect originX originY b) in
  inBand containerH t a /\ beyond (styleTop a) t.
Proof.
  intros Hgap Hb [Hlo Hhi]. unfold pushedTop, beyond, inBand, JS.clamp.
  cbn [height getBoundingClientRect].
  generalize dependent (styleTop a). intros cur Hlo Hhi.
  generalize dependent (offsetHeight a). intros ha Hhi.
  generalize dependent (offsetHeight b). intros hb Hb.
  set (v := cur + _).
  destruct (Q.min_spec (containerH - ha - 6) v) as [[H1 E1]|[H1 E1]];
    destruct (Q.max_spec 6 (Qmin (containerH - ha - 6) v)) as [[H2 E2]|[H2 E2]];
    revert E1 E2 H1 H2;
    generalize (Qmax 6 (Qmin (containerH - ha - 6) v));
    generalize (Qmin (containerH - ha - 6) v); intros mn mx E1 E2 H1 H2;
    unfold v in *; clear v; destruct direction; split; try split; lra.
Qed.

Lemma pushLoop_beyond budget placed baseTop : forall a,
  0 <= gap ->
  Forall (fun b => 0 <= offsetHeight (el b)) placed ->
  inBand containerH (styleTop (el a)) (el a) ->
  beyond baseTop (styleTop (el a)) ->
  let r := fst (pushLoop originX originY direction containerH gap budget placed a) in
  inBand containerH (styleTop (el r)) (el r) /\ beyond baseTop (styleTop (el r)).
Proof.
  intros a Hgap Hplaced. revert a.
  induction budget as [|budget IH]; intros a Hin Hb; cbn [pushLoop]; [done|].
  destruct (firstOverlap originX originY gap placed a) as [b|] eqn:E; [|done].
  assert (0 <= offsetHeight (el b)) as Hhb.
  { apply firstOverlap_Some in E.
    exact (proj1 (Forall_forall _ _) Hplaced b E). }
  set (a' := {| el := setTop (el a) _; cx := cx a |}).
  specialize (IH a').
  destruct (pushLoop _ _ _ _ _ _ _ _) as [r n]. cbn [fst] in *.
  destruct (pushedTop_beyond (el a) (el b) Hgap Hhb Hin) as [Hin' Hb'].
  apply IH.
  - exact Hin'.
  - unfold a'. cbn [el styleTop setTop]. unfold beyond in *.
    destruct direction; lra.
Qed.

(** X9. Cards stay in their band: when the gap and the card heights are not
    negative and the base top lies in the band of every card, every returned
    top lies in the band of its card and on the side of the base top the band
    grows to (at or above it for [up], at or below it for [down]), so a card
    never crosses over to the other band. *)
Theorem resolveBandVerticalLayout_stays_on_side (nodes : list Node) (baseTop : Q) :
  0 <= gap ->
  Forall (fun n => 0 <= offsetHeight (el n) /\ inBand containerH baseTop (el n)) nodes ->
  Forall (fun p : Node * nat =>
            inBand containerH (styleTop (el (fst p))) (el (fst p)) /\
            match direction with
            | up => styleTop (el (fst p)) <= baseTop
            | down => baseTop <= styleTop (el (fst p))
            end)
    (resolveBandVerticalLayout originX originY direction containerH gap nodes baseTop).
Proof.
  intros Hgap Hnodes.
  assert (forall todo placed,
    Forall (fun p : Node * nat =>
              0 <= offsetHeight (el (fst p)) /\
              inBand containerH (styleTop (el (fst p))) (el (fst p)) /\
              beyond baseTop (styleTop (el (fst p)))) placed ->
    Forall (fun a => styleTop (el a) = baseTop /\ 0 <= offsetHeight (el a) /\
                     inBand containerH baseTop (el a)) todo ->
    Forall (fun p : Node * nat =>
              0 <= offsetHeight (el (fst p)) /\
              inBand containerH (styleTop (el (fst p))) (el (fst p)) /\
              beyond baseTop (styleTop (el (fst p))))
      (layoutFrom originX originY direction containerH gap placed todo)) as H.
  { induction todo as [|a todo IH]; intros placed Hp Ht; cbn [layoutFrom]; [exact Hp|].
    apply Forall_cons in Ht as [(Ha & Hh & Hin) Ht].
    apply IH; [|exact Ht]. apply Forall_app. split; [exact Hp|].
    apply Forall_singleton.
    pose proof (pushLoop_same_card originX originY direction containerH gap 60
                  (fst <$> placed) a) as (_ & _ & _ & _ & Hsame).
    cbv zeta in Hsame. rewrite Hsame. split; [exact Hh|].
    apply pushLoop_beyond.
    - exact Hgap.
    - apply Forall_fmap. eapply Forall_impl; [exact Hp|]. by intros p (? & _).
    - by rewrite Ha.
    - rewrite Ha. unfold beyond. destruct direction; lra. }
  eapply Forall_impl.
  - apply H; [constructor|].
    apply Forall_fmap, Forall_forall. intros n Hn. cbn [el styleTop setTop offsetHeight].
    apply JSFacts.sortBy_elem_of in Hn.
    assert (0 <= offsetHeight (el n) /\ inBand containerH baseTop (el n)) as [? ?]
      by (revert n Hn; by apply Forall_forall).
    done.
  - intros p (_ & Hin & Hb). split; [exact Hin|exact Hb].
Qed.

End Side.

Lemma resolveBandVerticalLayout_stays_on_side_witness :
  Forall (fun p : Node * nat =>
            inBand 400 (styleTop (el (fst p))) (el (fst p)) /\
            218 <= styleTop (el (fst p)))
    (resolveBandVerticalLayout 0 0 down 400 4
       [Examples.card "Iron Man" 200; Examples.card "Iron Man 2" 210;
        Examples.card "Thor" 500] 218).
Proof.
  apply (resolveBandVerticalLayout_stays_on_side 0 0 down 400 4).
  - lra.
  - repeat constructor; vm_compute; discriminate.
Defined.

Section Origin.
Variables (originX originY : Q) (direction : Direction) (containerH gap : Q).

Lemma clear_origin a b pad :
  clear (getBoundingClientRect originX originY a)
        (getBoundingClientRect originX originY b) pad
  <-> clear (getBoundingClientRect 0 0 a) (getBoundingClientRect 0 0 b) pad.
Proof.
  unfold clear. cbn [left right top bottom getBoundingClientRect].
  split; intros [H|[H|[H|H]]]; [left|right;left|right;right;left|right;right;right|
                                 left|right;left|right;right;left|right;right;right]; lra.
Qed.

Lemma overlaps_origin a b pad :
  overlaps (getBoundingClientRect originX originY a)
           (getBoundingClientRect originX originY b) pad
  = overlaps (getBoundingClientRect 0 0 a) (getBoundingClientRect 0 0 b) pad.
Proof.
  destruct (overlaps (getBoundingClientRect 0 0 a) _ pad) eqn:E0.
  - destruct (overlaps (getBoundingClientRect originX originY a) _ pad) eqn:E; [done|].
    apply (proj1 (overlaps_false _ _ _)) in E.
    apply (proj1 (clear_origin _ _ _)) in E.
    apply (proj2 (overlaps_false _ _ _)) in E. congruence.
  - apply (proj1 (overlaps_false _ _ _)) in E0.
    apply (proj2 (clear_origin _ _ _)) in E0.
    by apply (proj2 (overlaps_false _ _ _)) in E0.
Qed.

Lemma firstOverlap_origin placed a :
  firstOverlap originX originY gap placed a = firstOverlap 0 0 gap placed a.
Proof.
  unfold firstOverlap. cbv zeta.
  induction placed as [|b placed IH]; [done|]. cbn [find].
  by rewrite overlaps_origin, IH.
Qed.

Lemma pushLoop_origin budget placed : forall a,
  pushLoop originX originY direction containerH gap budget placed a
  = pushLoop 0 0 direction containerH gap budget placed a.
Proof.
  induction budget as [|budget IH]; intros a; cbn [pushLoop]; [done|].
  rewrite firstOverlap_origin.
  destruct (firstOverlap 0 0 gap placed a) as [b|]; [|done].
  by rewrite <- IH.
Qed.

(** X10. The layout does not depend on where the container sits in the
    viewport: with the container's bounding box at any origin the placer
    returns the positions, and takes the passes, it returns with the
    container at the origin of the viewport. *)
Theorem resolveBandVerticalLayout_origin (nodes : list Node) (baseTop : Q) :
  resolveBandVerticalLayout originX originY direction containerH gap nodes baseTop
  = resolveBandVerticalLayout 0 0 direction containerH gap nodes baseTop.
Proof.
  unfold resolveBandVerticalLayout. cbv zeta.
  generalize ((fun n => {| el := setTop (el n) baseTop; cx := cx n |})
                <$> JS.sortBy (fun p q => cx p ?= cx q) nodes).
  generalize (@nil (Node * nat)).
  intros placed todo. revert placed.
  induction todo as [|a todo IH]; intros placed; cbn [layoutFrom]; [done|].
  by rewrite pushLoop_origin, IH.
Qed.

End Origin.

Section Preserved.
Variables (originX originY : Q) (direction : Direction) (containerH gap : Q).
(** A property of a card that does not look at its [top]. *)
Variable P : Node -> Prop.
Hypothesis P_setTop : forall n t, P n -> P {| el := setTop (el n) t; cx := cx n |}.

Lemma pushLoop_preserves budget placed : forall a,
  P a -> P (fst (pushLoop originX originY direction containerH gap budget placed a)).
Proof.
  induction budget as [|budget IH]; intros a Ha; cbn [pushLoop]; [done|].
  destruct (firstOverlap originX originY gap placed a) as [b|]; [|done].
  set (a' := {| el := setTop (el a) _; cx := cx a |}).
  specialize (IH a' (P_setTop a _ Ha)).
  by destruct (pushLoop _ _ _ _ _ _ _ _) as [r n].
Qed.

Lemma resolveBandVerticalLayout_preserves (nodes : list Node) (baseTop : Q) :
  Forall P nodes ->
  Forall (fun p : Node * nat => P (fst p))
    (resolveBandVerticalLayout originX originY direction containerH gap nodes baseTop).
Proof.
  intros Hn. unfold resolveBandVerticalLayout. cbv zeta.
  assert (forall todo placed,
    Forall (fun p : Node * nat => P (fst p)) placed -> Forall P todo ->
    Forall (fun p : Node * nat => P (fst p))
      (layoutFrom originX originY direction containerH gap placed todo)) as H.
  { induction todo as [|a todo IH]; intros placed Hp Ht; cbn [layoutFrom]; [exact Hp|].
    apply Forall_cons in Ht as [Ha Ht].
    apply IH; [|exact Ht]. apply Forall_app. split; [exact Hp|].
    apply Forall_singleton. by apply pushLoop_preserves. }
  apply H; [constructor|].
  apply Forall_fmap, Forall_forall. intros n Hin. cbn [compose].
  apply P_setTop. apply JSFacts.sortBy_elem_of in Hin.
  exact (proj1 (Forall_forall _ _) Hn n Hin).
Qed.

End Preserved.

End LabelPlacerFacts.


(** ** Hover highlighting *)

Module HighlightFacts.
Import Connections LabelPlacer Highlight.
Local Open Scope Q_scope.

Lemma setAdd_elem_of t u s : t ∈ setAdd u s <-> t = u \/ t ∈ s.
Proof.
  unfold setAdd. case_decide as E.
  - split; [by right|]. intros [->|]; done.
  - rewrite elem_of_app, list_elem_of_singleton. tauto.
Qed.

Lemma setAdd_NoDup u s : NoDup s -> NoDup (setAdd u s).
Proof.
  intros Hs. unfold setAdd. case_decide as E; [done|].
  apply NoDup_app. split; [done|]. split; [|apply NoDup_singleton].
  intros t Ht ->%list_elem_of_singleton. done.
Qed.

Lemma foldl_setAdd_elem_of {A} (f : A -> string) l : forall s t,
  t ∈ foldl (fun s a => setAdd (f a) s) s l <-> t ∈ s \/ exists a, a ∈ l /\ f a = t.
Proof.
  induction l as [|a l IH]; intros s t; simpl.
  - split; [by left|]. intros [|(a & Ha & _)]; [done|]. by apply elem_of_nil in Ha.
  - rewrite IH, setAdd_elem_of. split.
    + intros [[->|]|(b & Hb & <-)]; [right|by left|right].
      * exists a. split; [left|done].
      * exists b. split; [by right|done].
    + intros [|(b & Hb & <-)]; [by left; right|].
      apply elem_of_cons in Hb as [->|Hb]; [by left; left|].
      right. eauto.
Qed.

Lemma foldl_setAdd_NoDup {A} (f : A -> string) l : forall s,
  NoDup s -> NoDup (foldl (fun s a => setAdd (f a) s) s l).
Proof.
  induction l as [|a l IH]; intros s Hs; simpl; [done|].
  by apply IH, setAdd_NoDup.
Qed.

Section View.
Variables (x : option Z -> Q) (movies : list Movie) (arcs : list LanedArc).
Variables (originX originY containerW containerH yMid : Q).
Variable measure : Movie -> Q * Q.

Lemma highlightTitles_NoDup hoverTitle : NoDup (highlightTitles arcs hoverTitle).
Proof. apply foldl_setAdd_NoDup, NoDup_singleton. Qed.

(** The highlight set is the anchor together with the targets of the drawn
    arcs that start at the anchor. *)
Lemma highlightTitles_elem_of hoverTitle t :
  t ∈ highlightTitles arcs hoverTitle
  <-> t = hoverTitle \/
      exists p, p ∈ arcs /\ Connection.from (Arc.conn (arc p)) = hoverTitle /\
                Connection.to (Arc.conn (arc p)) = t.
Proof.
  unfold highlightTitles. cbv zeta.
  rewrite foldl_setAdd_elem_of, list_elem_of_singleton.
  apply or_iff_compat_l. split.
  - intros (p & Hp & <-).
    apply list_elem_of_In, filter_In in Hp as [Hp Hf].
    apply bool_decide_eq_true in Hf. apply list_elem_of_In in Hp.
    exists p. done.
  - intros (p & Hp & Hf & <-).
    exists p. split; [|done].
    apply list_elem_of_In, filter_In. split; [by apply list_elem_of_In|].
    by apply bool_decide_eq_true.
Qed.

Lemma byTitle_title_from (acc : gmap string Movie) :
  forall t m',
  (forall t m', acc !! t = Some m' -> title m' = t) ->
  foldl (fun acc m => <[title m := m]> acc) acc movies !! t = Some m' ->
  title m' = t.
Proof.
  revert acc. induction movies as [|m0 ms IH]; intros acc t m' Hacc; simpl.
  - apply Hacc.
  - apply IH. intros t' m''. rewrite lookup_insert.
    case_decide as E; [by intros [= <-]|apply Hacc].
Qed.

Lemma byTitle_title t m' : byTitle movies !! t = Some m' -> title m' = t.
Proof. apply byTitle_title_from. intros ? ?. by rewrite lookup_empty. Qed.

Lemma omap_byTitle_titles (hs : list string) :
  Forall (inCatalog movies) hs ->
  title <$> omap (fun t => byTitle movies !! t) hs = hs.
Proof.
  induction 1 as [|t hs Ht _ IH]; simpl; [done|].
  apply ConnectionsFacts.byTitle_is_Some in Ht as [m' Hm]. rewrite Hm. simpl.
  f_equal; [by apply byTitle_title|exact IH].
Qed.

Lemma items_titles (hs : list string) :
  Forall (inCatalog movies) hs -> title <$> items x movies hs ≡ₚ hs.
Proof.
  intros H. unfold items. by rewrite JSFacts.sortBy_perm, omap_byTitle_titles.
Qed.

Lemma fmap_imap_retract {A B} (g : B -> A) (l : list A) : forall f : nat -> A -> B,
  (forall i a, g (f i a) = a) -> g <$> imap f l = l.
Proof.
  induction l as [|a l IH]; intros f Hf; [done|].
  rewrite imap_cons, fmap_cons, Hf. f_equal. apply IH. intros i b. apply Hf.
Qed.

Lemma cardData_m hs anchorTitle : m <$> cardData x movies hs anchorTitle = items x movies hs.
Proof. unfold cardData. by apply fmap_imap_retract. Qed.

Lemma filter_split {A} (f : A -> bool) (l : list A) :
  List.filter f l ++ List.filter (fun a => negb (f a)) l ≡ₚ l.
Proof.
  induction l as [|a l IH]; simpl; [done|].
  destruct (f a); simpl.
  - by rewrite IH.
  - by rewrite <- Permutation_middle, IH.
Qed.

Lemma band_nodes_texts (cards : list Card) :
  (fun n => text (el n))
    <$> (topNodes x containerW yMid measure cards
           ++ bottomNodes x containerW yMid measure cards)
  ≡ₚ (fun d => title (m d)) <$> cards.
Proof.
  unfold topNodes, bottomNodes.
  rewrite <- fmap_app, filter_split, <- list_fmap_compose. done.
Qed.

Lemma layoutFrom_texts direction gap todo : forall placed,
  (fun p : Node * nat => text (el (fst p)))
    <$> layoutFrom originX originY direction containerH gap placed todo
  = ((fun p : Node * nat => text (el (fst p))) <$> placed)
      ++ ((fun n => text (el n)) <$> todo).
Proof.
  induction todo as [|a todo IH]; intros placed; cbn [layoutFrom].
  - by rewrite app_nil_r.
  - rewrite IH, fmap_app, <- app_assoc. f_equal.
    cbn [fmap list_fmap app]. f_equal.
    by pose proof (LabelPlacerFacts.pushLoop_same_card originX originY direction
                     containerH gap 60 (fst <$> placed) a) as (_ & -> & _).
Qed.

(** The placer returns the cards it was given. *)
Lemma resolveBandVerticalLayout_texts direction gap nodes baseTop :
  (fun p : Node * nat => text (el (fst p)))
    <$> resolveBandVerticalLayout originX originY direction containerH gap nodes baseTop
  ≡ₚ (fun n => text (el n)) <$> nodes.
Proof.
  unfold resolveBandVerticalLayout. cbv zeta.
  rewrite layoutFrom_texts. simpl.
  rewrite <- list_fmap_compose.
  by rewrite JSFacts.sortBy_perm.
Qed.

(** The two placer runs of [renderMultiTooltips] together cover the highlight
    set, one card per title. *)
Lemma renderMultiTooltips_texts hs anchorTitle :
  Forall (inCatalog movies) hs ->
  text <$> renderMultiTooltips x movies originX originY containerW containerH yMid
             measure hs anchorTitle
  ≡ₚ hs.
Proof.
  intros Hcat. unfold renderMultiTooltips. cbv zeta.
  rewrite <- list_fmap_compose, fmap_app.
  change (text ∘ (fun p : Node * nat => el (fst p)))
    with (fun p : Node * nat => text (el (fst p))).
  rewrite !resolveBandVerticalLayout_texts, <- fmap_app, band_nodes_texts.
  rewrite (list_fmap_compose m title), cardData_m.
  by apply items_titles.
Qed.

End View.

Lemma highlightTitles_inCatalog x conns filterMode movies hoverTitle :
  inCatalog movies hoverTitle ->
  Forall (inCatalog movies)
    (highlightTitles (arcsWithLaneOf x conns filterMode movies) hoverTitle).
Proof.
  intros Hh. apply Forall_forall. intros t Ht.
  apply highlightTitles_elem_of in Ht as [->|(p & Hp & _ & <-)]; [done|].
  assert (Arc.conn (arc p) ∈ renderedOf x conns filterMode movies) as Hc.
  { unfold renderedOf. apply list_elem_of_fmap. exists p. done. }
  apply ConnectionsFacts.renderedOf_elem_of in Hc as (_ & [_ Hto] & _). exact Hto.
Qed.

Lemma handle_labels_of x conns filterMode movies
  originX originY containerW containerH yMid measure (d : Movie) (overlay : list Element) :
  d ∈ movies ->
  let arcs := arcsWithLaneOf x conns filterMode movies in
  let hs := highlightTitles arcs (title d) in
  (forall t, t ∈ hs <->
     t = title d \/
     exists c, c ∈ renderedOf x conns filterMode movies /\
               Connection.from c = title d /\ Connection.to c = t) /\
  NoDup hs /\
  text <$> handle x movies arcs originX originY containerW containerH yMid measure
             (mouseenter d) overlay ≡ₚ hs /\
  handle x movies arcs originX originY containerW containerH yMid measure
    mouseleave overlay = [].
Proof.
  intros Hd arcs hs. split; [|split; [|split]].
  - intros t. unfold hs. rewrite highlightTitles_elem_of.
    apply or_iff_compat_l. unfold renderedOf. split.
    + intros (p & Hp & Hf & Ht). exists (Arc.conn (arc p)).
      split; [|done]. apply list_elem_of_fmap. exists p. done.
    + intros (c & Hc & Hf & Ht).
      apply list_elem_of_fmap in Hc as (p & -> & Hp). exists p. done.
  - apply highlightTitles_NoDup.
  - cbn [handle]. unfold applyHighlight.
    apply renderMultiTooltips_texts, highlightTitles_inCatalog.
    unfold inCatalog. apply list_elem_of_fmap. exists d. done.
  - reflexivity.
Qed.

(** C4 (amended). Highlight set: when the pointer enters the dot of a catalog
    movie, the highlight set is the hovered title plus the [to] title of
    every drawn relationship (resolved, and of the selected arc type) whose
    [from] is the hovered title; relationships that end at the hovered title
    contribute nothing.  The label placer runs over exactly that set: the
    overlay holds one card per title of the set.  On pointer-leave the
    overlay holds no card. *)
Theorem handle_labels (x : option Z -> Q) (filterMode : FilterMode) (movies : list Movie)
  (originX originY containerW containerH yMid : Q) (measure : Movie -> Q * Q)
  (d : Movie) (overlay : list Element) :
  d ∈ movies ->
  let arcs := arcsWithLane x filterMode movies in
  let hs := highlightTitles arcs (title d) in
  (forall t, t ∈ hs <->
     t = title d \/
     exists c, c ∈ rendered x filterMode movies /\
               Connection.from c = title d /\ Connection.to c = t) /\
  NoDup hs /\
  text <$> handle x movies arcs originX originY containerW containerH yMid measure
             (mouseenter d) overlay ≡ₚ hs /\
  handle x movies arcs originX originY containerW containerH yMid measure
    mouseleave overlay = [].
Proof.
  exact (handle_labels_of x CONNECTIONS filterMode movies originX originY containerW
           containerH yMid measure d overlay).
Qed.

Lemma handle_labels_witness :
  text <$> handle Examples.pxPerMs Examples.duo
             (arcsWithLane Examples.pxPerMs all Examples.duo) 0 0 800 400 200
             (fun _ => (100, 30)) (mouseenter (Examples.movieAt "Iron Man" 0)) []
  ≡ₚ highlightTitles (arcsWithLane Examples.pxPerMs all Examples.duo) "Iron Man".
Proof.
  assert (Examples.movieAt "Iron Man" 0 ∈ Examples.duo) as Hd by apply list_elem_of_here.
  pose proof (handle_labels Examples.pxPerMs all Examples.duo 0 0 800 400 200
                (fun _ => (100, 30)) (Examples.movieAt "Iron Man" 0) [] Hd)
    as (_ & _ & H & _).
  exact H.
Defined.

(** Hovering the sequel does not highlight the first film, although the
    relationship [Iron Man -> Iron Man 2] connects the two and both are in
    the catalog. *)
Lemma highlightTitles_spec_counterexample :
  ~ (forall t,
       t ∈ highlightTitles (arcsWithLane Examples.pxPerMs all Examples.duo) "Iron Man 2"
       <-> specHighlightSet Examples.duo "Iron Man 2" t).
Proof.
  intros H. specialize (H "Iron Man").
  assert (specHighlightSet Examples.duo "Iron Man 2" "Iron Man") as Hs.
  { right. split.
    - unfold inCatalog. apply list_elem_of_here.
    - eexists. split; [apply list_elem_of_here|]. right. done. }
  apply H in Hs.
  replace (highlightTitles (arcsWithLane Examples.pxPerMs all Examples.duo) "Iron Man 2")
    with ["Iron Man 2"] in Hs by (vm_compute; reflexivity).
  apply list_elem_of_singleton in Hs. discriminate Hs.
Qed.

Section Cards.
Variables (x : option Z -> Q) (movies : list Movie) (arcs : list LanedArc).
Variables (originX originY containerW containerH yMid : Q).
Variable measure : Movie -> Q * Q.

(** X11. Cards stay inside the container horizontally: when the container is
    at least 280px wide and the browser lays no card out wider than the
    260px of its [max-width], every label card shown after the pointer enters
    a dot has its rectangle between 10px and [containerW - 10] px of the
    container's left edge, wherever the placer moved it vertically. *)
Theorem handle_cards_inside (d : Movie) (overlay : list Element) :
  280 <= containerW ->
  (forall m, fst (measure m) <= 260) ->
  Forall (fun e =>
            let r := getBoundingClientRect originX originY e in
            originX + 10 <= left r /\ right r <= originX + containerW - 10)
    (handle x movies arcs originX originY containerW containerH yMid measure
       (mouseenter d) overlay).
Proof.
  intros Hw Hm. cbn [handle]. unfold applyHighlight, renderMultiTooltips. cbv zeta.
  set (inside := fun n : Node =>
         originX + 10 <= left (getBoundingClientRect originX originY (el n)) /\
         right (getBoundingClientRect originX originY (el n))
           <= originX + containerW - 10).
  assert (forall n t, inside n -> inside {| el := setTop (el n) t; cx := cx n |})
    as Hset by done.
  assert (forall c, inside (cardNode x containerW yMid measure c)) as Hcard.
  { intros c. unfold inside, cardNode, cardW. cbv zeta.
    cbn [left right getBoundingClientRect el styleLeft offsetWidth].
    specialize (Hm (m c)).
    assert (260 / 2 == 130) as Ehalf by reflexivity.
    pose proof (JSFacts.clamp_lower (x (releaseDate (m c))) (10 + 260 / 2)
                  (containerW - 10 - 260 / 2)) as H1.
    pose proof (JSFacts.clamp_upper (x (releaseDate (m c))) (10 + 260 / 2)
                  (containerW - 10 - 260 / 2) ltac:(lra)) as H2.
    revert H1 H2. generalize (JS.clamp (x (releaseDate (m c))) (10 + 260 / 2)
                                (containerW - 10 - 260 / 2)).
    generalize (fst (measure (m c))) Hm. intros w Hw' l H1 H2.
    assert (w / 2 == w * (1 # 2)) as Ew by (unfold Qdiv; apply Qmult_comp; reflexivity).
    revert Ew. generalize (w / 2). intros hw Ew. split; lra. }
  apply Forall_fmap, Forall_app. split.
  - apply (LabelPlacerFacts.resolveBandVerticalLayout_preserves _ _ _ _ _ inside Hset).
    apply Forall_fmap, Forall_forall. intros c _. exact (Hcard c).
  - apply (LabelPlacerFacts.resolveBandVerticalLayout_preserves _ _ _ _ _ inside Hset).
    apply Forall_fmap, Forall_forall. intros c _. exact (Hcard c).
Qed.

End Cards.

Lemma handle_cards_inside_witness :
  Forall (fun e =>
            let r := getBoundingClientRect 0 0 e in
            0 + 10 <= left r /\ right r <= 0 + 800 - 10)
    (handle Examples.pxPerMs Examples.duo
       (arcsWithLane Examples.pxPerMs all Examples.duo) 0 0 800 400 200
       (fun _ => (100, 30)) (mouseenter (Examples.movieAt "Iron Man" 0)) []).
Proof.
  apply (handle_cards_inside Examples.pxPerMs Examples.duo
           (arcsWithLane Examples.pxPerMs all Examples.duo) 0 0 800 400 200
           (fun _ => (100, 30)) (Examples.movieAt "Iron Man" 0) []).
  - lra.
  - intros _. simpl. lra.
Defined.

End HighlightFacts.

(** ** The time scale *)

Module ScaleFacts.
Import Scale.
Local Open Scope Q_scope.

(** C7. Degenerate domain: when [minPosition = maxPosition] the scale takes
    no quotient and returns, for every position, a finite pixel value equal
    to the midpoint of the pixel range. *)
Theorem scale_degenerate (minPosition maxPosition : Z) (x0 x1 : Q) (position : Z) :
  minPosition = maxPosition ->
  exists v, scale minPosition maxPosition x0 x1 position = Some v /\ v == (x0 + x1) / 2.
Proof.
  intros <-. unfold scale. rewrite Z.eqb_refl. simpl.
  eexists. split; [reflexivity|]. field.
Qed.

Lemma scale_degenerate_witness :
  exists v, scale 1209686400000 1209686400000 70 730 1272672000000 = Some v
            /\ v == (70 + 730) / 2.
Proof. apply scale_degenerate. reflexivity. Defined.

(** The scale never divides by zero: it is finite on every domain. *)
Lemma scale_finite minPosition maxPosition x0 x1 position :
  is_Some (scale minPosition maxPosition x0 x1 position).
Proof.
  unfold scale, divide. destruct (maxPosition =? minPosition)%Z eqn:E; simpl; [eauto|].
  destruct (Qeq_bool _ 0) eqn:Ez; simpl; [|eauto].
  apply Qeq_bool_iff in Ez. apply Z.eqb_neq in E.
  unfold Qeq in Ez. simpl in Ez. lia.
Qed.

(** On a proper domain the scale is the linear map through the two ends. *)
Lemma scale_linear minPosition maxPosition x0 x1 position :
  minPosition <> maxPosition ->
  exists v, scale minPosition maxPosition x0 x1 position = Some v /\
    v * inject_Z (maxPosition - minPosition)
    == x0 * inject_Z (maxPosition - position) + x1 * inject_Z (position - minPosition).
Proof.
  intros Hne. unfold scale, divide.
  destruct (maxPosition =? minPosition)%Z eqn:E; [apply Z.eqb_eq in E; congruence|].
  assert (~ inject_Z (maxPosition - minPosition) == 0) as Hnz.
  { unfold Qeq. simpl. lia. }
  destruct (Qeq_bool _ 0) eqn:Ez; [by apply Qeq_bool_iff in Ez|]. simpl.
  eexists. split; [reflexivity|].
  unfold Z.sub in *. rewrite !inject_Z_plus, !inject_Z_opp in *. field. exact Hnz.
Qed.

(** The connections view with a single movie, or with all movies on one
    date, puts every dot at the middle of the drawing width. *)
Lemma x_degenerate movies width first final t position :
  head movies = Some first -> last movies = Some final ->
  releaseDate first = Some t -> releaseDate final = Some t ->
  exists v, x movies width (Some position) = Some v /\ v == width / 2.
Proof.
  intros Hf Hl Ht1 Ht2. unfold x. rewrite Hf, Hl. simpl. rewrite Ht1, Ht2. simpl.
  unfold scale. rewrite Z.eqb_refl. simpl.
  eexists. split; [reflexivity|]. field.
Qed.

End ScaleFacts.

(** ** Parsing the catalog *)

Module CatalogFacts.
Import Catalog.
Local Open Scope Q_scope.

Definition noLeadingSpace (s : string) : Prop :=
  match s with
  | EmptyString => True
  | String c _ => JS.isWhiteSpace c = false
  end.


Lemma isEmpty_false s : JS.isEmpty s = false <-> s <> "".
Proof. destruct s; simpl; split; congruence. Qed.

Lemma trimStart_noLeading s : noLeadingSpace (JS.trimStart s).
Proof.
  induction s as [|c s IH]; simpl; [done|].
  destruct (JS.isWhiteSpace c) eqn:E; [done|]. simpl. exact E.
Qed.

Lemma trimStart_id s : noLeadingSpace s -> JS.trimStart s = s.
Proof. destruct s as [|c s]; simpl; [done|]. by intros ->. Qed.

Lemma trimEnd_noLeading s : noLeadingSpace s -> noLeadingSpace (JS.trimEnd s).
Proof.
  destruct s as [|c s]; [done|]. intros E. simpl in E.
  cbn [JS.trimEnd]. rewrite E. exact E.
Qed.

Lemma trimEnd_idem s : JS.trimEnd (JS.trimEnd s) = JS.trimEnd s.
Proof.
  induction s as [|c s IH]; simpl; [done|].
  destruct (JS.isWhiteSpace c && JS.isEmpty (JS.trimEnd s)) eqn:E; [done|].
  simpl. by rewrite IH, E.
Qed.

(** A trimmed string is its own trim: it has no white space at either end. *)
Lemma trim_idem s : JS.trim (JS.trim s) = JS.trim s.
Proof.
  unfold JS.trim.
  rewrite (trimStart_id (JS.trimEnd _)) by apply trimEnd_noLeading, trimStart_noLeading.
  apply trimEnd_idem.
Qed.

Example trim_example : JS.trim "  Iron Man 2 " = "Iron Man 2".
Proof. reflexivity. Qed.

Section Load.
Variable Number : string -> option Q.
Variable parseDate : string -> option Z.

Lemma parsePhase_Some raw n :
  parsePhase Number raw = Some n
  <-> Number (JS.trim (JS.String_ raw)) = Some n /\ 1 <= n <= 6.
Proof.
  unfold parsePhase. destruct (Number _) as [n'|]; simpl; [|by split; [|intros [? _]]].
  destruct (Qle_bool 1 n') eqn:E1; destruct (Qle_bool n' 6) eqn:E2; simpl.
  - apply Qle_bool_iff in E1, E2. split; [intros [= <-]|intros [[= <-] _]]; done.
  - split; [done|]. intros [[= <-] [_ H]]. apply Qle_bool_iff in H. congruence.
  - split; [done|]. intros [[= <-] [H _]]. apply Qle_bool_iff in H. congruence.
  - split; [done|]. intros [[= <-] [H _]]. apply Qle_bool_iff in H. congruence.
Qed.


Lemma parseRow_movieOk r m : parseRow Number parseDate r = Some m -> movieOk m.
Proof.
  unfold parseRow, movieOk. cbv zeta.
  destruct (parsePhase Number (CsvRow.phase r)) as [n|] eqn:Ep; [|done].
  apply parsePhase_Some in Ep as [_ Hn]. unfold isValidDate.
  destruct (newDate parseDate (CsvRow.release_date r)) as [t|] eqn:Ed.
  - rewrite bool_decide_eq_true_2 by eauto. cbn [negb].
    destruct (JS.isEmpty (JS.trim (default "" (CsvRow.title r)))) eqn:Ee; [done|].
    apply isEmpty_false in Ee. case_bool_decide as Eh; [done|].
    intros [= <-]. cbn [phase releaseDate title].
    split; [done|]. split; [eauto|]. split; [done|]. split; [apply trim_idem|done].
  - rewrite bool_decide_eq_false_2 by (by intros [? [=]]). done.
Qed.

Lemma parsed_Forall_ok (rows : list CsvRow.t) :
  Forall movieOk (parsed Number parseDate rows).
Proof.
  apply Forall_forall. intros m Hm. unfold parsed in Hm.
  apply JSFacts.sortBy_elem_of, list_elem_of_omap in Hm as (r & _ & Hr).
  by eapply parseRow_movieOk.
Qed.

(** X13. What every catalog entry satisfies: each movie of the parsed
    catalog has a phase between 1 and 6, a valid release date, a non-empty
    title with no white space at either end, and a title other than
    ["The Incredible Hulk"].  (The phase test is a range test: it does not ask
    for a whole number.) *)
Theorem parsed_movieOk (rows : list CsvRow.t) :
  Forall movieOk (parsed Number parseDate rows).
Proof.
  apply Forall_forall. intros m Hm. unfold parsed in Hm.
  apply JSFacts.sortBy_elem_of, list_elem_of_omap in Hm as (r & _ & Hr).
  by eapply parseRow_movieOk.
Qed.

Lemma byReleaseDate_le a b :
  is_Some (releaseDate a) -> is_Some (releaseDate b) ->
  JS.cmpLe byReleaseDate a b <-> releasedBefore a b.
Proof.
  intros [ta Ha] [tb Hb]. unfold JS.cmpLe, byReleaseDate, releasedBefore.
  rewrite Ha, Hb. split.
  - intros H. exists ta, tb. do 2 (split; [done|]). by apply Z.compare_le_iff.
  - intros (ta' & tb' & [= <-] & [= <-] & H). by apply Z.compare_le_iff.
Qed.

Lemma parsed_ordered (rows : list CsvRow.t) :
  StronglySorted releasedBefore (parsed Number parseDate rows).
Proof.
  assert (Forall (fun m => is_Some (releaseDate m))
            (omap (parseRow Number parseDate) rows)) as Hvalid.
  { apply Forall_forall. intros m Hm. apply list_elem_of_omap in Hm as (r & _ & Hr).
    apply parseRow_movieOk in Hr as (_ & H & _). exact H. }
  pose proof (JSFacts.sortBy_sorted_on byReleaseDate
                (fun m => is_Some (releaseDate m))) as Hs.
  unfold parsed.
  assert (StronglySorted (JS.cmpLe byReleaseDate)
            (JS.sortBy byReleaseDate (omap (parseRow Number parseDate) rows))) as H.
  { apply Hs; [| |exact Hvalid].
    - intros a b Ha Hb Hgt. apply byReleaseDate_le; [done..|].
      destruct Ha as [ta Ha], Hb as [tb Hb]. unfold byReleaseDate in Hgt.
      rewrite Ha, Hb in Hgt. exists tb, ta. do 2 (split; [done|]).
      apply Z.compare_gt_iff in Hgt. lia.
    - intros a b c Ha Hb Hc H1 H2.
      apply byReleaseDate_le in H1 as (ta & tb & Ea & Eb & H1); [|done..].
      apply byReleaseDate_le in H2 as (tb' & tc & Eb' & Ec & H2); [|done..].
      apply byReleaseDate_le; [done..|]. exists ta, tc.
      do 2 (split; [done|]). assert (tb = tb') by congruence. lia. }
  clear Hs. revert H.
  assert (Forall (fun m => is_Some (releaseDate m))
            (JS.sortBy byReleaseDate (omap (parseRow Number parseDate) rows))) as Hv
    by (by apply JSFacts.sortBy_Forall).
  revert Hv. generalize (JS.sortBy byReleaseDate (omap (parseRow Number parseDate) rows)).
  intros l Hv H. induction H as [|m l Hl IH Hm]; [constructor|].
  apply Forall_cons in Hv as [Hvm Hv].
  constructor; [by apply IH|].
  apply List.Forall_forall. intros m' Hin.
  apply byReleaseDate_le; [done| |].
  - apply list_elem_of_In in Hin. exact (proj1 (Forall_forall _ _) Hv m' Hin).
  - revert m' Hin. by apply List.Forall_forall.
Qed.


End Load.

End CatalogFacts.

(** ** Phase ranges *)

Module PhaseRangesFacts.
Import PhaseRanges.






End PhaseRangesFacts.

(** ** Loading the data *)

Module LoaderFacts.
Import Lifecycle.

Section Connections.
Import ConnectionsLoader.
Variable Number : string -> option Q.
Variable parseDate : string -> option Z.

Lemma step_cancelled s ev :
  cancelled s = true ->
  let s' := step Number parseDate s ev in
  cancelled s' = true /\ movies s' = movies s /\ phaseRanges s' = phaseRanges s.
Proof.
  intros Hc. destruct ev as [|[rows|err]]; cbn [step]; [done|..].
  - unfold load. cbv zeta. by rewrite Hc.
  - unfold onRejected. cbv zeta. cbn [cancelled]. by rewrite Hc.
Qed.

(** X16. Cancellation: once the cleanup of the load effect has run, nothing
    that happens afterwards to the pending fetch (it resolves, it is
    rejected, in any order and any number of times) changes the
    [movies] or [phaseRanges] state of the connections view. *)
Theorem run_after_cleanup (evs : list (Event (list CsvRow.t))) (s : State) :
  let s' := run Number parseDate (Cleanup :: evs) s in
  movies s' = movies s /\ phaseRanges s' = phaseRanges s.
Proof.
  cbv zeta. unfold run. cbn [foldl].
  set (s0 := step Number parseDate s Cleanup).
  assert (cancelled s0 = true /\ movies s0 = movies s /\ phaseRanges s0 = phaseRanges s)
    as H by done.
  clearbody s0. revert s0 H.
  induction evs as [|ev evs IH]; intros s0 (Hc & Hm & Hp); cbn [foldl]; [done|].
  apply IH. destruct (step_cancelled s0 ev Hc) as (? & ? & ?).
  repeat split; congruence.
Qed.

(** A failed fetch while the view is mounted. *)
Lemma onRejected_resets (err : string) (s : State) :
  cancelled s = false ->
  let s' := step Number parseDate s (Settle (rejected err)) in
  movies s' = [] /\ phaseRanges s' = [] /\
  console s' = console s ++ [("Failed to load CSV:", err)] /\
  unhandled s' = unhandled s.
Proof. intros Hc. cbn [step]. unfold onRejected. cbv zeta. cbn. by rewrite Hc. Qed.

(** The console lines of a sequence of events: one per rejection. *)
Definition rejections (evs : list (Event (list CsvRow.t))) : list (string * string) :=
  omap (fun ev => match ev with
                  | Settle (rejected err) => Some ("Failed to load CSV:"%string, err)
                  | _ => None
                  end) evs.

Lemma step_console s ev :
  let s' := step Number parseDate s ev in
  console s' = console s ++ rejections [ev] /\ unhandled s' = unhandled s.
Proof.
  destruct ev as [|[rows|err]]; cbn [step rejections omap].
  - cbn. by rewrite app_nil_r.
  - unfold load. cbv zeta. destruct (cancelled s); cbn; by rewrite app_nil_r.
  - unfold onRejected. cbv zeta. cbn [cancelled]. by destruct (cancelled s).
Qed.

Lemma run_mounted evs s :
  cancelled s = false -> Cleanup ∉ evs -> cancelled (run Number parseDate evs s) = false.
Proof.
  unfold run. revert s. induction evs as [|ev evs IH]; intros s Hc Hno; cbn [foldl]; [done|].
  apply IH; [|intros H; apply Hno; by right].
  destruct ev as [|[rows|err]]; cbn [step].
  - destruct Hno. left.
  - unfold load. cbv zeta. by rewrite Hc.
  - unfold onRejected. cbv zeta. cbn [cancelled]. by rewrite Hc.
Qed.

(** X17. Failed fetches: every rejection is written to the console, once and
    in order, whether or not the cleanup has run, and none goes unhandled.
    While the view is mounted (no cleanup so far) a rejection leaves both
    pieces of state empty. *)
Theorem run_rejections (evs : list (Event (list CsvRow.t))) (s : State) :
  let s' := run Number parseDate evs s in
  console s' = console s ++ rejections evs /\
  unhandled s' = unhandled s /\
  (cancelled s = false -> Cleanup ∉ evs ->
   forall evs' err, evs = evs' ++ [Settle (rejected err)] ->
     movies s' = [] /\ phaseRanges s' = []).
Proof.
  cbv zeta. split; [|split].
  - unfold run. revert s. induction evs as [|ev evs IH]; intros s; cbn [foldl].
    + cbn. by rewrite app_nil_r.
    + rewrite IH. destruct (step_console s ev) as [-> _].
      rewrite <- app_assoc. f_equal. unfold rejections. cbn [omap].
      by destruct ev as [|[rows|err]].
  - unfold run. revert s. induction evs as [|ev evs IH]; intros s; cbn [foldl]; [done|].
    rewrite IH. by destruct (step_console s ev) as [_ ->].
  - intros Hc Hno evs' err ->. unfold run. rewrite foldl_app. cbn [foldl].
    assert (cancelled (run Number parseDate evs' s) = false) as Hm.
    { apply run_mounted; [done|]. intros H. apply Hno, elem_of_app. by left. }
    destruct (onRejected_resets err _ Hm) as (H1 & H2 & _). done.
Qed.

Lemma step_invariant s ev :
  Forall Catalog.movieOk (movies s) /\
  StronglySorted Catalog.releasedBefore (movies s) /\
  phaseRanges s = PhaseRanges.ranges (movies s) /\
  unhandled s = [] ->
  let s' := step Number parseDate s ev in
  Forall Catalog.movieOk (movies s') /\
  StronglySorted Catalog.releasedBefore (movies s') /\
  phaseRanges s' = PhaseRanges.ranges (movies s') /\
  unhandled s' = [].
Proof.
  intros (H1 & H2 & H3 & H4). destruct ev as [|[rows|err]]; cbn [step]; [done|..].
  - unfold load. cbv zeta. destruct (cancelled s); [done|]. cbn.
    split; [apply CatalogFacts.parsed_Forall_ok|].
    split; [apply CatalogFacts.parsed_ordered|done].
  - unfold onRejected. cbv zeta. cbn [cancelled].
    destruct (cancelled s); cbn; [done|]. repeat split; [constructor..|done].
Qed.

(** X18. What the connections view can ever hold: after any sequence of
    cleanups and settlements from the initial state, every movie in the
    state passes the catalog checks, the movies are in ascending date order,
    the phase ranges are the ones computed from exactly those movies, and no
    rejection has gone unhandled. *)
Theorem run_invariant (evs : list (Event (list CsvRow.t))) :
  let s := run Number parseDate evs initial in
  Forall Catalog.movieOk (movies s) /\
  StronglySorted Catalog.releasedBefore (movies s) /\
  phaseRanges s = PhaseRanges.ranges (movies s) /\
  unhandled s = [].
Proof.
  cbv zeta. unfold run.
  assert (Forall Catalog.movieOk (movies initial) /\
          StronglySorted Catalog.releasedBefore (movies initial) /\
          phaseRanges initial = PhaseRanges.ranges (movies initial) /\
          unhandled initial = []) as H.
  { cbn. repeat split; constructor. }
  revert H. generalize initial.
  induction evs as [|ev evs IH]; intros s H; cbn [foldl]; [done|].
  apply IH. by apply step_invariant.
Qed.

End Connections.


Section Revenue.
Import RevenueLoader.
Variable Number : string -> option Q.

(** X19. The bar chart's loader is all or nothing and handles no failure:
    when every row has a [release_date] the state becomes one movie per row,
    in file order; when some row has none, or when the fetch is rejected,
    the state keeps the movies it had and the failure is an unhandled
    rejection.  Nothing is written to the console, and a cleanup in between
    changes nothing. *)
Theorem step_all_or_nothing (s : State) (outcome : Fetch (list DataPoint.t)) :
  let s' := step Number (step Number s Cleanup) (Settle outcome) in
  console s' = console s /\
  match outcome with
  | resolved data =>
      if bool_decide (Forall (fun r => is_Some (DataPoint.release_date r)) data)
      then length (movies s') = length data /\
           (forall i r, data !! i = Some r ->
              exists m, movies s' !! i = Some m /\ parseRow Number r = Some m) /\
           unhandled s' = unhandled s
      else movies s' = movies s /\ unhandled s' = unhandled s ++ ["TypeError"]
  | rejected err => movies s' = movies s /\ unhandled s' = unhandled s ++ [err]
  end.
Proof.
  cbv zeta. cbn [step]. destruct outcome as [data|err]; [|done].
  destruct (mapM (parseRow Number) data) as [ms|] eqn:E.
  - apply mapM_Some in E. split; [done|].
    rewrite bool_decide_eq_true_2.
    + cbn [movies unhandled]. split; [symmetry; by eapply Forall2_length|].
      split; [|done]. intros i r Hr.
      destruct (Forall2_lookup_l _ _ _ _ _ E Hr) as (m & Hm & Hp). eauto.
    + apply Forall_forall. intros r Hr. apply list_elem_of_lookup in Hr as [i Hr].
      destruct (Forall2_lookup_l _ _ _ _ _ E Hr) as (m & _ & Hp).
      unfold parseRow in Hp. destruct (DataPoint.release_date r); [eauto|done].
  - split; [done|]. rewrite bool_decide_eq_false_2; [done|].
    intros Hall. apply mapM_None, Exists_exists in E as (r & Hr & Hp).
    assert (is_Some (DataPoint.release_date r)) as [d Hd]
      by exact (proj1 (Forall_forall _ _) Hall r Hr).
    unfold parseRow in Hp. by rewrite Hd in Hp.
Qed.

End Revenue.

End LoaderFacts.

(** ** The review browser *)

Module ReviewsFacts.
Import Reviews.

Lemma shownFor_take reviews title :
  shownFor reviews title
  = take 8 (List.filter (fun review => bool_decide (Review.movie review = title)) reviews).
Proof.
  unfold shownFor. cbv zeta. destruct (8 <? _)%nat eqn:E; [done|].
  apply Nat.ltb_ge in E. by rewrite take_ge.
Qed.

Lemma foldl_app_flat_map {A B} (g : A -> list B) (l : list A) : forall acc,
  foldl (fun acc a => acc ++ g a) acc l = acc ++ flat_map g l.
Proof.
  induction l as [|a l IH]; intros acc; simpl; [by rewrite app_nil_r|].
  by rewrite IH, app_assoc.
Qed.

Lemma filteredReviews_flat_map year movies reviews :
  filteredReviews (Some year) movies reviews
  = flat_map (shownFor reviews) (titlesOf year movies).
Proof. unfold filteredReviews. cbv zeta. by rewrite foldl_app_flat_map. Qed.

Lemma shownFor_movie reviews title r :
  r ∈ shownFor reviews title -> r ∈ reviews /\ Review.movie r = title.
Proof.
  rewrite shownFor_take. intros H. apply elem_of_take in H as (i & H & _).
  apply list_elem_of_lookup_2, list_elem_of_In, filter_In in H as [H1 H2].
  apply bool_decide_eq_true in H2. split; [by apply list_elem_of_In|done].
Qed.

Lemma shownFor_length reviews title : (length (shownFor reviews title) <= 8)%nat.
Proof. rewrite shownFor_take, length_take. lia. Qed.

(** X20. What the review browser shows: with no year selected the list is
    empty; with a year selected, every review shown is a review of the file
    whose movie is a title released that year, and the list holds at most 8
    reviews for each catalog entry of that year. *)
Theorem filteredReviews_bounds
  (selectedReviewsYear : option (option Q)) (movies : list Movie.t) (reviews : list Review.t) :
  match selectedReviewsYear with
  | None => filteredReviews selectedReviewsYear movies reviews = []
  | Some year =>
      Forall (fun r => r ∈ reviews /\ Review.movie r ∈ titlesOf year movies)
        (filteredReviews selectedReviewsYear movies reviews) /\
      (length (filteredReviews selectedReviewsYear movies reviews)
       <= 8 * length (titlesOf year movies))%nat
  end.
Proof.
  destruct selectedReviewsYear as [year|]; [|done].
  rewrite filteredReviews_flat_map. generalize (titlesOf year movies). intros titles.
  split.
  - apply Forall_forall. intros r Hr.
    apply list_elem_of_In, in_flat_map in Hr as (t & Ht & Hr).
    apply list_elem_of_In, shownFor_movie in Hr as [? <-].
    split; [done|by apply list_elem_of_In].
  - induction titles as [|t titles IH]; simpl; [lia|].
    rewrite length_app. pose proof (shownFor_length reviews t). lia.
Qed.

Lemma filter_shownFor_other reviews t t' :
  t <> t' ->
  List.filter (fun r => bool_decide (Review.movie r = t)) (shownFor reviews t') = [].
Proof.
  intros Hne.
  destruct (List.filter _ (shownFor reviews t')) as [|r l] eqn:E; [done|].
  assert (In r (List.filter (fun r => bool_decide (Review.movie r = t))
                  (shownFor reviews t'))) as Hin by (rewrite E; by left).
  apply filter_In in Hin as [Hin Ht]. apply bool_decide_eq_true in Ht.
  apply list_elem_of_In, shownFor_movie in Hin as [_ Ht']. congruence.
Qed.

Lemma filter_shownFor_same reviews t :
  List.filter (fun r => bool_decide (Review.movie r = t)) (shownFor reviews t)
  = shownFor reviews t.
Proof.
  apply forallb_filter_id, forallb_forall. intros r Hr.
  apply list_elem_of_In, shownFor_movie in Hr as [_ Ht].
  by apply bool_decide_eq_true.
Qed.

(** X21. The limit of 8 per title: when the catalog entries of the selected
    year have pairwise different titles, the reviews shown for each of these
    titles are the first 8 reviews of that title in file order, or all of
    them when there are at most 8. *)
Theorem filteredReviews_first_8
  (year : option Q) (movies : list Movie.t) (reviews : list Review.t) (t : option string) :
  NoDup (titlesOf year movies) ->
  t ∈ titlesOf year movies ->
  List.filter (fun r => bool_decide (Review.movie r = t))
    (filteredReviews (Some year) movies reviews)
  = take 8 (List.filter (fun r => bool_decide (Review.movie r = t)) reviews).
Proof.
  rewrite filteredReviews_flat_map, <- shownFor_take.
  generalize (titlesOf year movies). intros titles Hnd Ht.
  induction Hnd as [|t' titles Hnotin Hnd IH]; [by apply elem_of_nil in Ht|].
  cbn [flat_map]. rewrite List.filter_app.
  apply elem_of_cons in Ht as [<-|Ht].
  - rewrite filter_shownFor_same.
    assert (List.filter (fun r => bool_decide (Review.movie r = t))
              (flat_map (shownFor reviews) titles) = []) as ->; [|by rewrite app_nil_r].
    clear IH Hnd. induction titles as [|t' titles IH]; [done|].
    cbn [flat_map]. rewrite List.filter_app.
    rewrite filter_shownFor_other by (intros ->; apply Hnotin; left).
    apply IH. intros H. apply Hnotin. by right.
  - rewrite filter_shownFor_other by (intros ->; done). by apply IH.
Qed.

Lemma filteredReviews_first_8_witness :
  NoDup (titlesOf (Some 2008%Q) Samples.movies) /\
  Some "Iron Man" ∈ titlesOf (Some 2008%Q) Samples.movies /\
  List.filter (fun r => bool_decide (Review.movie r = Some "Iron Man"))
    (filteredReviews (Some (Some 2008%Q)) Samples.movies Samples.reviews)
  = take 8 (List.filter (fun r => bool_decide (Review.movie r = Some "Iron Man"))
              Samples.reviews).
Proof.
  assert (titlesOf (Some 2008%Q) Samples.movies = [Some "Iron Man"]) as E by reflexivity.
  assert (NoDup (titlesOf (Some 2008%Q) Samples.movies)) as Hnd
    by (rewrite E; apply NoDup_singleton).
  assert (Some "Iron Man" ∈ titlesOf (Some 2008%Q) Samples.movies) as Hin
    by (rewrite E; apply list_elem_of_here).
  split; [exact Hnd|]. split; [exact Hin|].
  exact (filteredReviews_first_8 (Some 2008%Q) Samples.movies Samples.reviews
           (Some "Iron Man") Hnd Hin).
Defined.

End ReviewsFacts.

(** ** The timeline annotations *)

Module TimelineFacts.
Import Timeline.
Local Open Scope Q_scope.

(** [R] holds between any two elements at different positions. *)
Inductive Pairwise {A} (R : A -> A -> Prop) : list A -> Prop :=
| Pairwise_nil : Pairwise R []
| Pairwise_cons a l :
    Forall (fun b => R a b /\ R b a) l -> Pairwise R l -> Pairwise R (a :: l).

Lemma Pairwise_perm {A} (R : A -> A -> Prop) l l' :
  l ≡ₚ l' -> Pairwise R l -> Pairwise R l'.
Proof.
  induction 1 as [|a l l' Hp IH|a b l|l1 l2 l3 _ IH1 _ IH2]; intros H.
  - done.
  - inversion H as [|? ? Ha Hl]; subst. constructor; [by rewrite <- Hp|by apply IH].
  - inversion H as [|? ? Hb Hl]; subst. inversion Hl as [|? ? Ha Hl']; subst.
    apply Forall_cons in Hb as [[Hba Hab] Hb].
    constructor; [|by constructor].
    constructor; [done|exact Ha].
  - by apply IH2, IH1.
Qed.

Lemma Pairwise_fmap {A B} (f : A -> B) (R : B -> B -> Prop) l :
  Pairwise (fun a b => R (f a) (f b)) l -> Pairwise R (f <$> l).
Proof.
  induction 1 as [|a l Ha _ IH]; [constructor|].
  cbn [fmap list_fmap]. constructor; [|exact IH]. by apply Forall_fmap.
Qed.

Lemma Pairwise_impl {A} (R R' : A -> A -> Prop) l :
  (forall a b, a ∈ l -> b ∈ l -> R a b -> R' a b) -> Pairwise R l -> Pairwise R' l.
Proof.
  intros HR H. induction H as [|a l Ha Hl IH]; [constructor|].
  constructor.
  - apply Forall_forall. intros b Hb.
    destruct (proj1 (Forall_forall _ _) Ha b Hb) as [H1 H2].
    split; apply HR; auto; first [by left|by right].
  - apply IH. intros b c Hb Hc. apply HR; by right.
Qed.

Lemma Pairwise_and {A} (R R' : A -> A -> Prop) l :
  Pairwise R l -> Pairwise R' l -> Pairwise (fun a b => R a b /\ R' a b) l.
Proof.
  induction 1 as [|a l Ha Hl IH]; intros H'; [constructor|].
  inversion H' as [|? ? Ha' Hl']; subst. constructor; [|by apply IH].
  apply Forall_forall. intros b Hb.
  destruct (proj1 (Forall_forall _ _) Ha b Hb).
  destruct (proj1 (Forall_forall _ _) Ha' b Hb). done.
Qed.

Lemma Pairwise_lookup {A} (R : A -> A -> Prop) l i j a b :
  Pairwise R l -> i <> j -> l !! i = Some a -> l !! j = Some b -> R a b.
Proof.
  intros H. revert i j. induction H as [|c l Hc Hl IH]; intros i j Hij Hi Hj; [done|].
  destruct i as [|i], j as [|j]; cbn [lookup list_lookup] in *; [done|..].
  - injection Hi as ->. apply list_elem_of_lookup_2 in Hj.
    exact (proj1 (proj1 (Forall_forall _ _) Hc b Hj)).
  - injection Hj as ->. apply list_elem_of_lookup_2 in Hi.
    exact (proj2 (proj1 (Forall_forall _ _) Hc a Hi)).
  - apply (IH i j); [lia|done..].
Qed.

Lemma Pairwise_Forall2 {A B} (R : A -> A -> Prop) (R' : B -> B -> Prop)
  (rel : A -> B -> Prop) l l' :
  (forall a b a' b', rel a a' -> rel b b' -> R' a' b' -> R a b) ->
  Forall2 rel l l' -> Pairwise R' l' -> Pairwise R l.
Proof.
  intros HR H. induction H as [|a a' l l' Ha Hl IH]; intros HP; [constructor|].
  inversion HP as [|? ? Ha' Hl']; subst. constructor; [|by apply IH].
  apply Forall_forall. intros b Hb.
  apply list_elem_of_lookup in Hb as [i Hb].
  destruct (Forall2_lookup_l _ _ _ _ _ Hl Hb) as (b' & Hb' & Hrel).
  apply list_elem_of_lookup_2 in Hb'.
  destruct (proj1 (Forall_forall _ _) Ha' b' Hb'). split; eapply HR; eauto.
Qed.

Lemma timeline_scanLanes_le left lanes : (scanLanes left lanes <= length lanes)%nat.
Proof.
  induction lanes as [|r lanes IH]; simpl; [lia|].
  destruct (Qle_bool _ _); simpl; lia.
Qed.

Lemma timeline_scanLanes_stop left lanes r :
  lanes !! scanLanes left lanes = Some r -> r < left.
Proof.
  induction lanes as [|r0 lanes IH]; simpl; [done|].
  destruct (Qle_bool left r0) eqn:E; simpl.
  - exact IH.
  - intros [= <-]. by apply ConnectionsFacts.Qle_bool_false.
Qed.

Section Pass.
Variable x : option Z -> Q.
Variable getHalfWidth : LaneDatum -> Q.
Variable side : Anchor.
Hypothesis getHalfWidth_setLane : forall s k d, getHalfWidth (setLane s k d) = getHalfWidth d.
Hypothesis getHalfWidth_wide : forall d, 0 <= getHalfWidth d + xPad.

Definition laneOf (d : LaneDatum) : option nat :=
  match side with
  | top => __laneTop d
  | bottom => __laneBottom d
  end.

Definition leftOf (d : LaneDatum) : Q := x (releaseDate d) - (getHalfWidth d + xPad).
Definition rightOf (d : LaneDatum) : Q := x (releaseDate d) + (getHalfWidth d + xPad).

(** Two data in the same lane keep their padded boxes apart. *)
Definition laneApart (a b : LaneDatum) : Prop :=
  laneOf a = laneOf b -> rightOf a < leftOf b \/ rightOf b < leftOf a.

Lemma laneOf_setLane k d : laneOf (setLane side k d) = Some k.
Proof. unfold laneOf. by destruct side. Qed.

Lemma leftOf_setLane s k d : leftOf (setLane s k d) = leftOf d.
Proof. unfold leftOf. by rewrite getHalfWidth_setLane. Qed.

Lemma rightOf_setLane s k d : rightOf (setLane s k d) = rightOf d.
Proof. unfold rightOf. by rewrite getHalfWidth_setLane. Qed.

Lemma assignLanesFrom_shape sorted : forall lanes,
  Forall2 (fun d' d => exists k, d' = setLane side k d)
    (assignLanesFrom x lanes sorted getHalfWidth side) sorted.
Proof.
  induction sorted as [|d sorted IH]; intros lanes; cbn [assignLanesFrom]; [constructor|].
  constructor; [eauto|apply IH].
Qed.

Lemma timeline_assignLanesFrom_beyond sorted : forall lanes d' k r,
  d' ∈ assignLanesFrom x lanes sorted getHalfWidth side ->
  laneOf d' = Some k -> lanes !! k = Some r -> r < leftOf d'.
Proof.
  induction sorted as [|d sorted IH]; intros lanes d' k r Hin Hk Hr;
    cbn [assignLanesFrom] in Hin; [by apply elem_of_nil in Hin|].
  cbv zeta in Hin. fold (leftOf d) in Hin. fold (rightOf d) in Hin.
  apply elem_of_cons in Hin as [->|Hin].
  - rewrite laneOf_setLane in Hk. injection Hk as <-.
    rewrite leftOf_setLane. by apply timeline_scanLanes_stop in Hr.
  - destruct (decide (k = scanLanes (leftOf d) lanes)) as [->|Hne].
    + pose proof (timeline_scanLanes_stop _ _ _ Hr) as H1.
      assert (rightOf d < leftOf d') as H2.
      { eapply IH; [exact Hin|exact Hk|].
        apply ConnectionsFacts.occupy_lookup_eq, timeline_scanLanes_le. }
      pose proof (getHalfWidth_wide d). unfold leftOf, rightOf in *. lra.
    + eapply IH; [exact Hin|exact Hk|].
      by apply ConnectionsFacts.occupy_lookup_ne.
Qed.

Lemma assignLanesFrom_laneApart sorted : forall lanes,
  Pairwise laneApart (assignLanesFrom x lanes sorted getHalfWidth side).
Proof.
  induction sorted as [|d sorted IH]; intros lanes; cbn [assignLanesFrom]; [constructor|].
  cbv zeta. fold (leftOf d). fold (rightOf d).
  constructor; [|apply IH].
  apply Forall_forall. intros b Hb.
  assert (laneOf (setLane side (scanLanes (leftOf d) lanes) d) = laneOf b ->
          rightOf d < leftOf b) as H.
  { rewrite laneOf_setLane. intros Hk. eapply timeline_assignLanesFrom_beyond; [exact Hb|done|].
    apply ConnectionsFacts.occupy_lookup_eq, timeline_scanLanes_le. }
  unfold laneApart. rewrite rightOf_setLane, leftOf_setLane.
  split; intros E; [left|right]; apply H; congruence.
Qed.

Lemma assignLanesFrom_lanes_set sorted : forall lanes,
  Forall (fun d => is_Some (laneOf d)) (assignLanesFrom x lanes sorted getHalfWidth side).
Proof.
  induction sorted as [|d sorted IH]; intros lanes; cbn [assignLanesFrom]; [constructor|].
  constructor; [|apply IH]. rewrite laneOf_setLane. eauto.
Qed.

End Pass.

Lemma annoTop_setLane s k d : annoTop (setLane s k d) = annoTop d.
Proof. done. Qed.

Lemma topHalfWidth_setLane s k d : topHalfWidth (setLane s k d) = topHalfWidth d.
Proof. done. Qed.

Lemma bottomHalfWidth_setLane s k d : bottomHalfWidth (setLane s k d) = bottomHalfWidth d.
Proof. done. Qed.

Lemma topHalfWidth_wide d : 0 <= topHalfWidth d + xPad.
Proof. unfold topHalfWidth. cbv zeta. by destruct (annoTop d). Qed.

Lemma bottomHalfWidth_wide d : 0 <= bottomHalfWidth d + xPad.
Proof. unfold bottomHalfWidth. cbv zeta. by destruct (annoTop d). Qed.

Lemma laneQ_lt (k k' : nat) : (k < k')%nat -> laneQ k + 1 <= laneQ k'.
Proof.
  intros H. unfold laneQ. change 1 with (inject_Z 1).
  rewrite <- inject_Z_plus, <- Zle_Qle. lia.
Qed.

Lemma laneQ_nonneg (k : nat) : 0 <= laneQ k.
Proof. unfold laneQ. rewrite <- (Zle_Qle 0). lia. Qed.

Section Boxes.
Variables (x : option Z -> Q) (yMid : Q).

Ltac box_arith :=
  unfold apart, labelGap, labelH, posterH, labelW, posterW, xPad in *;
  change laneStep with (88 + 10) in *;
  change (48 / 2) with (48 # 2) in *;
  change (80 / 2) with (80 # 2) in *.

(** Two data whose lanes are set and whose padded boxes are apart in every
    shared lane have boxes that are apart, side by side. *)
Lemma boxes_apart (a b : LaneDatum) (ta tb ba bb : nat) :
  __laneTop a = Some ta -> __laneTop b = Some tb ->
  __laneBottom a = Some ba -> __laneBottom b = Some bb ->
  laneApart x topHalfWidth top a b ->
  laneApart x bottomHalfWidth bottom a b ->
  apart 10 (topBox x yMid a) (topBox x yMid b) /\
  apart 10 (bottomBox x yMid a) (bottomBox x yMid b).
Proof.
  intros Hta Htb Hba Hbb HT HB.
  pose proof (laneQ_nonneg ta). pose proof (laneQ_nonneg tb).
  pose proof (laneQ_nonneg ba). pose proof (laneQ_nonneg bb).
  assert (ta = tb -> laneOf top a = laneOf top b) as ET by (cbn; congruence).
  assert (ba = bb -> laneOf bottom a = laneOf bottom b) as EB by (cbn; congruence).
  unfold topBox, bottomBox, labelBox, posterBox, posterY, labelY, getTopLane,
    getBottomLane.
  unfold laneApart, leftOf, rightOf, topHalfWidth, bottomHalfWidth in HT, HB.
  cbv zeta in *. rewrite Hta, Htb, Hba, Hbb. cbn [from_option]. unfold Datatypes.id.
  split.
  - destruct (lt_eq_lt_dec ta tb) as [[Hlt|E]|Hlt].
    + apply laneQ_lt in Hlt.
      destruct (annoTop a), (annoTop b); box_arith; right; right; right; lra.
    + specialize (HT (ET E)). subst tb.
      destruct (annoTop a), (annoTop b), HT; box_arith;
        solve [left; lra | right; left; lra].
    + apply laneQ_lt in Hlt.
      destruct (annoTop a), (annoTop b); box_arith; right; right; left; lra.
  - destruct (lt_eq_lt_dec ba bb) as [[Hlt|E]|Hlt].
    + apply laneQ_lt in Hlt.
      destruct (annoTop a), (annoTop b); box_arith; right; right; left; lra.
    + specialize (HB (EB E)). subst bb.
      destruct (annoTop a), (annoTop b), HB; box_arith;
        solve [left; lra | right; left; lra].
    + apply laneQ_lt in Hlt.
      destruct (annoTop a), (annoTop b); box_arith; right; right; right; lra.
Qed.

(** The box above the line ends at least 35px above it, the box below starts
    at least 35px below it. *)
Lemma boxes_sides (a : LaneDatum) :
  snd (topBox x yMid a) <= yMid - 35 /\ yMid + 35 <= snd (fst (bottomBox x yMid a)).
Proof.
  pose proof (laneQ_nonneg (getTopLane a)).
  pose proof (laneQ_nonneg (getBottomLane a)).
  unfold topBox, bottomBox, labelBox, posterBox, posterY, labelY,
    labelGap, labelH, posterH. cbv zeta.
  change laneStep with (88 + 10).
  destruct (annoTop a); cbn [fst snd]; split; lra.
Qed.

Lemma withLanes_pairwise (items : list LaneDatum) :
  Pairwise (fun a b => laneApart x topHalfWidth top a b /\
                       laneApart x bottomHalfWidth bottom a b)
    (withLanes x items) /\
  Forall (fun d => is_Some (__laneTop d) /\ is_Some (__laneBottom d)) (withLanes x items).
Proof.
  unfold withLanes, assignLanes. cbv zeta.
  set (ds1 := assignLanesFrom x [] (JS.sortBy _ items) topHalfWidth top).
  set (s1 := JS.sortBy _ ds1).
  pose proof (assignLanesFrom_shape x bottomHalfWidth bottom s1 []) as Hshape.
  assert (Pairwise (laneApart x topHalfWidth top) s1) as HT1.
  { apply (Pairwise_perm _ ds1); [symmetry; apply JSFacts.sortBy_perm|].
    apply assignLanesFrom_laneApart;
      [apply topHalfWidth_setLane|apply topHalfWidth_wide]. }
  assert (Forall (fun d => is_Some (__laneTop d)) s1) as HS1.
  { unfold s1. rewrite JSFacts.sortBy_perm.
    apply (assignLanesFrom_lanes_set x topHalfWidth top). }
  split.
  - apply Pairwise_and.
    + eapply Pairwise_Forall2; [|exact Hshape|exact HT1].
      intros a b a' b' [ka ->] [kb ->] H. exact H.
    + apply assignLanesFrom_laneApart;
        [apply bottomHalfWidth_setLane|apply bottomHalfWidth_wide].
  - apply Forall_forall. intros d Hd. split.
    + apply list_elem_of_lookup in Hd as [i Hd].
      destruct (Forall2_lookup_l _ _ _ _ _ Hshape Hd) as (d' & Hd' & k & ->).
      apply list_elem_of_lookup_2 in Hd'.
      exact (proj1 (Forall_forall _ _) HS1 d' Hd').
    + revert d Hd. apply Forall_forall.
      apply (assignLanesFrom_lanes_set x bottomHalfWidth bottom).
Qed.

(** X22. The timeline annotations never collide: after both lane passes,
    the boxes reserved for any two different important movies on the same
    side of the line (annotation 80x88, poster 48x72) are at least 10px
    apart horizontally or vertically, and every box above the line ends at
    least 35px above it while every box below starts at least 35px below
    it. *)
Theorem withLanes_boxes_apart
  (items : list LaneDatum) (i j : nat) (a b : LaneDatum) :
  i <> j ->
  withLanes x items !! i = Some a ->
  withLanes x items !! j = Some b ->
  apart 10 (topBox x yMid a) (topBox x yMid b) /\
  apart 10 (bottomBox x yMid a) (bottomBox x yMid b) /\
  snd (topBox x yMid a) <= yMid - 35 /\
  yMid + 35 <= snd (fst (bottomBox x yMid a)).
Proof.
  intros Hij Ha Hb.
  destruct (withLanes_pairwise items) as [HP HS].
  destruct (Pairwise_lookup _ _ i j a b HP Hij Ha Hb) as [HT HB].
  apply list_elem_of_lookup_2 in Ha, Hb.
  destruct (proj1 (Forall_forall _ _) HS a Ha) as [[ta Hta] [ba Hba]].
  destruct (proj1 (Forall_forall _ _) HS b Hb) as [[tb Htb] [bb Hbb]].
  destruct (boxes_apart a b ta tb ba bb Hta Htb Hba Hbb HT HB) as [H1 H2].
  split; [exact H1|]. split; [exact H2|]. apply boxes_sides.
Qed.

End Boxes.

Lemma withLanes_boxes_apart_witness :
  match withLanes Examples.pxPerMs Samples.pair_of_important with
  | [a; b] =>
      apart 10 (topBox Examples.pxPerMs 250 a) (topBox Examples.pxPerMs 250 b) /\
      apart 10 (bottomBox Examples.pxPerMs 250 a) (bottomBox Examples.pxPerMs 250 b) /\
      snd (topBox Examples.pxPerMs 250 a) <= 250 - 35 /\
      250 + 35 <= snd (fst (bottomBox Examples.pxPerMs 250 a))
  | _ => False
  end.
Proof.
  destruct (withLanes Examples.pxPerMs Samples.pair_of_important) as [|a [|b [|? ?]]] eqn:E;
    try (vm_compute in E; discriminate E).
  apply (withLanes_boxes_apart Examples.pxPerMs 250 Samples.pair_of_important 0 1 a b).
  - lia.
  - by rewrite E.
  - by rewrite E.
Defined.

End TimelineFacts.

(** ** The year dot plot *)

Module DotPlotFacts.
Import DotPlot.

Section Bins.
Local Open Scope Z_scope.

Lemma minOf_le l y : y ∈ l -> minOf l <= y.
Proof.
  unfold minOf. generalize (default 0 (head l)). intros d Hy.
  induction Hy as [y l|y z l _ IH]; simpl; lia.
Qed.

Lemma maxOf_ge l y : y ∈ l -> y <= maxOf l.
Proof.
  unfold maxOf. generalize (default 0 (head l)). intros d Hy.
  induction Hy as [y l|y z l _ IH]; simpl; lia.
Qed.

Lemma countOf_cons a l y :
  countOf (a :: l) y = ((if (a =? y)%Z then 1 else 0) + countOf l y)%nat.
Proof. unfold countOf. simpl. by destruct (a =? y). Qed.

Lemma sum_indicator a ys :
  NoDup ys -> a ∈ ys ->
  sum_list ((fun y => if a =? y then 1%nat else 0%nat) <$> ys) = 1%nat.
Proof.
  induction 1 as [|y ys Hy Hnd IH]; intros Ha; [by apply elem_of_nil in Ha|].
  cbn [fmap list_fmap sum_list]. destruct (a =? y) eqn:E.
  - apply Z.eqb_eq in E as ->.
    assert (sum_list ((fun y0 => if y =? y0 then 1%nat else 0%nat) <$> ys) = 0%nat) as ->;
      [|done].
    clear IH Hnd Ha. induction ys as [|z ys IH]; [done|].
    cbn [fmap list_fmap sum_list].
    destruct (y =? z) eqn:E.
    + apply Z.eqb_eq in E as ->. destruct Hy. left.
    + rewrite IH; [done|]. intros H. apply Hy. by right.
  - apply Z.eqb_neq in E. apply elem_of_cons in Ha as [->|Ha]; [done|].
    by rewrite IH.
Qed.

Lemma sum_countOf l ys :
  NoDup ys -> (forall y, y ∈ l -> y ∈ ys) ->
  sum_list ((fun y => countOf l y) <$> ys) = length l.
Proof.
  intros Hnd. induction l as [|a l IH]; intros Hin.
  - clear. induction ys as [|y ys IHy]; [done|]. cbn [fmap list_fmap sum_list].
    by rewrite IHy.
  - assert (sum_list ((fun y => countOf (a :: l) y) <$> ys)
            = (sum_list ((fun y => if (a =? y)%Z then 1%nat else 0%nat) <$> ys)
               + sum_list ((fun y => countOf l y) <$> ys))%nat) as ->.
    { clear. induction ys as [|y ys IH]; [done|].
      cbn [fmap list_fmap sum_list]. rewrite IH, countOf_cons.
      unfold Datatypes.id. destruct (a =? y); lia. }
    rewrite sum_indicator; [|done|apply Hin; left].
    rewrite IH; [done|]. intros y Hy. apply Hin. by right.
Qed.

(** X23. The year bins: there is no bin exactly when neither file yields a
    year; otherwise the bins are one per calendar year, consecutive, and
    cover every year that occurs; each bin counts the movies and the shows of
    its year and their sum; and summed over the bins the counts are the
    number of movie years and of show years, so every release is counted
    exactly once. *)
Theorem bins_cover (movieYears showYears : list Z) :
  let bs := bins movieYears showYears in
  (bs = [] <-> movieYears = [] /\ showYears = []) /\
  (forall y, y ∈ movieYears ++ showYears -> y ∈ (year <$> bs)) /\
  (forall i b b', bs !! i = Some b -> bs !! S i = Some b' -> year b' = year b + 1) /\
  Forall (fun b => movies b = countOf movieYears (year b) /\
                   shows b = countOf showYears (year b) /\
                   total b = (movies b + shows b)%nat) bs /\
  sum_list (movies <$> bs) = length movieYears /\
  sum_list (shows <$> bs) = length showYears.
Proof.
  cbv zeta. unfold bins.
  destruct (bool_decide (movieYears = []) && bool_decide (showYears = [])) eqn:Eb.
  { apply andb_true_iff in Eb as [E1 E2].
    apply bool_decide_eq_true in E1, E2. subst. cbn. repeat split; try done.
    all: intros y Hy; by apply elem_of_nil in Hy. }
  cbv zeta.
  set (lo := minOf _). set (hi := maxOf _).
  set (mk := fun y => _).
  assert (forall y, y ∈ movieYears ++ showYears -> lo <= y <= hi) as Hrange.
  { intros y Hy. split.
    - apply minOf_le. apply elem_of_app in Hy as [Hy|Hy]; apply elem_of_app; [left|right].
      + rewrite bool_decide_eq_false_2; [done|]. by intros ->; apply elem_of_nil in Hy.
      + rewrite bool_decide_eq_false_2; [done|]. by intros ->; apply elem_of_nil in Hy.
    - apply maxOf_ge. apply elem_of_app in Hy as [Hy|Hy]; apply elem_of_app; [left|right].
      + rewrite bool_decide_eq_false_2; [done|]. by intros ->; apply elem_of_nil in Hy.
      + rewrite bool_decide_eq_false_2; [done|]. by intros ->; apply elem_of_nil in Hy. }
  assert (year <$> (mk <$> seqZ lo (hi - lo + 1)) = seqZ lo (hi - lo + 1)) as Hyears.
  { rewrite <- list_fmap_compose. apply list_fmap_id. }
  assert (forall y, y ∈ movieYears ++ showYears -> y ∈ seqZ lo (hi - lo + 1)) as Hcover.
  { intros y Hy. apply elem_of_seqZ. specialize (Hrange y Hy). lia. }
  split; [|split; [|split; [|split; [|split]]]].
  - split.
    + intros Hnil. apply andb_false_iff in Eb.
      assert (exists y, y ∈ movieYears ++ showYears) as [y Hy].
      { destruct Eb as [E|E]; apply bool_decide_eq_false in E.
        - destruct movieYears as [|y ?]; [done|]. exists y. left.
        - destruct showYears as [|y ?]; [done|]. exists y.
          apply elem_of_app. right. left. }
      apply Hcover in Hy. rewrite <- Hyears, Hnil in Hy. by apply elem_of_nil in Hy.
    + intros [-> ->]. done.
  - intros y Hy. rewrite Hyears. by apply Hcover.
  - intros i b b' Hb Hb'.
    apply (f_equal (fmap year)) in Hb, Hb'.
    rewrite <- !list_lookup_fmap, Hyears in Hb, Hb'. cbn in Hb, Hb'.
    apply lookup_seqZ in Hb as [Hb _], Hb' as [Hb' _]. lia.
  - apply Forall_fmap, Forall_forall. intros y _. done.
  - rewrite <- list_fmap_compose. apply sum_countOf; [apply NoDup_seqZ|].
    intros y Hy. apply Hcover, elem_of_app. by left.
  - rewrite <- list_fmap_compose. apply sum_countOf; [apply NoDup_seqZ|].
    intros y Hy. apply Hcover, elem_of_app. by right.
Qed.

End Bins.

Section StackFacts.
Local Open Scope Q_scope.
Variables (height : Q) (maxTotal : nat).

Let D := dotStep height maxTotal.
Let R := dotR height maxTotal.

Lemma dotStep_bounds : 7 <= D <= 14.
Proof.
  subst D. unfold dotStep. split; [apply Q.le_max_l|].
  apply Q.max_lub; [lra|apply Q.le_min_l].
Qed.

Lemma dotR_eq : R == D * 0.42.
Proof.
  subst R. unfold dotR. fold D. pose proof dotStep_bounds as [H7 H14].
  rewrite (Q.min_r 6 (D * 0.42)) by lra. apply Q.max_r. lra.
Qed.

Lemma typeGap_pos : 2 <= typeGap height maxTotal.
Proof. apply Q.le_max_l. Qed.

Lemma scaled_step (i j : nat) d :
  (i < j)%nat -> 0 <= d ->
  (inject_Z (Z.of_nat i) + 1) * d + d <= (inject_Z (Z.of_nat j) + 1) * d.
Proof.
  intros Hij Hd.
  assert (inject_Z (Z.of_nat i) + 1 <= inject_Z (Z.of_nat j)) as Hle.
  { change 1 with (inject_Z 1). rewrite <- inject_Z_plus, <- Zle_Qle. lia. }
  nra.
Qed.

Lemma index_nonneg (i : nat) : 0 <= inject_Z (Z.of_nat i).
Proof. change 0 with (inject_Z 0). rewrite <- Zle_Qle. lia. Qed.

Lemma index_le (i m : nat) :
  (i < m)%nat -> inject_Z (Z.of_nat i) + 1 <= inject_Z (Z.of_nat m).
Proof.
  intros. change 1 with (inject_Z 1). rewrite <- inject_Z_plus, <- Zle_Qle. lia.
Qed.

(** What the [i]-th circle of a bin is: a movie when [i] is below the number
    of movies, otherwise the show of index [i - movies]. *)
Lemma dotCys_lookup yLine b i c :
  dotCys height maxTotal yLine b !! i = Some c ->
  ((i < movies b)%nat /\ c = yLine - (inject_Z (Z.of_nat i) + 1) * D) \/
  ((movies b <= i)%nat /\ (i - movies b < shows b)%nat /\
   c = yLine
       - (if (0 <? movies b)%nat
          then inject_Z (Z.of_nat (movies b)) * D + typeGap height maxTotal else 0)
       - (inject_Z (Z.of_nat (i - movies b)) + 1) * D).
Proof.
  unfold dotCys. cbv zeta. fold D. intros H.
  apply lookup_app_Some in H as [H|[Hlen H]].
  - left. apply list_lookup_fmap_Some in H as (k & -> & Hk).
    apply lookup_seq in Hk as [-> Hk]. done.
  - right. rewrite length_fmap, length_seq in Hlen, H.
    apply list_lookup_fmap_Some in H as (k & -> & Hk).
    apply lookup_seq in Hk as [-> Hk]. done.
Qed.

(** X24. The circles of one year's stack: every circle lies wholly above the
    baseline, and of two circles of the stack the later one lies wholly above
    the earlier one, so no two circles of a stack touch, whatever the height
    of the chart and the largest bin are. *)
Theorem dotCys_disjoint yLine b i j ci cj :
  (i < j)%nat ->
  dotCys height maxTotal yLine b !! i = Some ci ->
  dotCys height maxTotal yLine b !! j = Some cj ->
  ci + R < yLine /\ cj + R < ci - R.
Proof.
  intros Hij Hi Hj.
  pose proof dotStep_bounds as [H7 H14]. pose proof dotR_eq as HR.
  pose proof typeGap_pos as HG.
  apply dotCys_lookup in Hi as [[Hi ->]|(Hi & Hi' & ->)];
    apply dotCys_lookup in Hj as [[Hj ->]|(Hj & Hj' & ->)]; try lia.
  - pose proof (scaled_step i j D Hij ltac:(lra)).
    pose proof (index_nonneg i).
    generalize dependent (inject_Z (Z.of_nat i)).
    generalize dependent (inject_Z (Z.of_nat j)). intros. split; nra.
  - assert ((0 <? movies b)%nat = true) as -> by (apply Nat.ltb_lt; lia).
    pose proof (index_le i (movies b) Hi).
    pose proof (index_nonneg i). pose proof (index_nonneg (j - movies b)).
    generalize dependent (inject_Z (Z.of_nat i)).
    generalize dependent (inject_Z (Z.of_nat (j - movies b))).
    generalize dependent (inject_Z (Z.of_nat (movies b))).
    generalize dependent (typeGap height maxTotal). intros. split; nra.
  - pose proof (scaled_step (i - movies b) (j - movies b) D ltac:(lia) ltac:(lra)).
    pose proof (index_nonneg (i - movies b)).
    pose proof (index_nonneg (movies b)).
    generalize dependent (inject_Z (Z.of_nat (i - movies b))).
    generalize dependent (inject_Z (Z.of_nat (j - movies b))).
    generalize dependent (inject_Z (Z.of_nat (movies b))).
    generalize dependent (typeGap height maxTotal).
    destruct (0 <? movies b)%nat; intros; split; nra.
Qed.

End StackFacts.

Section TickFacts.
Local Open Scope Z_scope.
Variables (width : Q) (minYear maxYear : Z).

Lemma yearStep_pos : 1 <= yearStep width minYear maxYear.
Proof. unfold yearStep. lia. Qed.

Lemma stepped_range fuel y0 y :
  y ∈ stepped width minYear maxYear fuel y0 -> y0 <= y <= maxYear.
Proof.
  pose proof yearStep_pos as Hs.
  revert y0. induction fuel as [|fuel IH]; intros y0 Hy; cbn [stepped] in Hy.
  - by apply elem_of_nil in Hy.
  - destruct (y0 <=? maxYear) eqn:E; [|by apply elem_of_nil in Hy].
    apply Z.leb_le in E. apply elem_of_cons in Hy as [->|Hy]; [lia|].
    apply IH in Hy. lia.
Qed.

(** The loop stops by its own test: more turns than the number of years
    change nothing. *)
Lemma stepped_enough fuel extra y0 :
  maxYear - y0 + 1 <= Z.of_nat fuel ->
  stepped width minYear maxYear (fuel + extra) y0
  = stepped width minYear maxYear fuel y0.
Proof.
  pose proof yearStep_pos as Hs.
  revert y0. induction fuel as [|fuel IH]; intros y0 Hf.
  - cbn [Nat.add]. destruct extra as [|extra]; [done|]. cbn [stepped].
    destruct (y0 <=? maxYear) eqn:E; [|done]. apply Z.leb_le in E. lia.
  - cbn [Nat.add stepped]. destruct (y0 <=? maxYear); [|done].
    f_equal. apply IH. lia.
Qed.

(** X25. The tick years: whatever the width of the chart, every year from the
    first to the last bin gets a tick and a label, and no other year does, so
    the year step never thins the labels out; the years it pushes are
    duplicates. The loop that pushes them ends by its own test. *)
Theorem tickYears_all_years :
  minYear <= maxYear ->
  (forall y, y ∈ tickYears width minYear maxYear <-> minYear <= y <= maxYear) /\
  (forall extra,
     stepped width minYear maxYear (Z.to_nat (maxYear - minYear + 1) + extra) minYear
     = stepped width minYear maxYear (Z.to_nat (maxYear - minYear + 1)) minYear).
Proof.
  intros Hle. split; [|intros extra; apply stepped_enough; lia].
  intros y. unfold tickYears. cbv zeta.
  set (pushed := seqZ _ _ ++ _).
  assert (y ∈ pushed <-> minYear <= y <= maxYear) as Hp.
  { subst pushed. rewrite elem_of_app, elem_of_seqZ. split.
    - intros [H|H]; [lia|]. by apply stepped_range in H.
    - intros H. left. lia. }
  destruct (bool_decide (last pushed = Some maxYear)); [exact Hp|].
  rewrite elem_of_app, Hp, list_elem_of_singleton. lia.
Qed.

End TickFacts.

Lemma tickYears_all_years_witness :
  (2008 <= 2012)%Z /\
  tickYears 300 2008 2012 = [2008; 2009; 2010; 2011; 2012; 2008; 2010; 2012]%Z /\
  (forall y, y ∈ tickYears 300 2008 2012 <-> 2008 <= y <= 2012)%Z.
Proof.
  split; [lia|]. split; [reflexivity|].
  exact (proj1 (tickYears_all_years 300 2008 2012 ltac:(lia))).
Defined.

Lemma dotCys_disjoint_witness :
  dotCys 400 5 356 {| year := 2021; movies := 1; shows := 1; total := 2 |} !! 0%nat
    = Some 342%Q /\
  dotCys 400 5 356 {| year := 2021; movies := 1; shows := 1; total := 2 |} !! 1%nat
    = Some (32310 # 100)%Q /\
  (342 + dotR 400 5 < 356 /\ (32310 # 100) + dotR 400 5 < 342 - dotR 400 5)%Q.
Proof.
  assert (dotCys 400 5 356 {| year := 2021; movies := 1; shows := 1; total := 2 |} !! 0%nat
          = Some 342%Q) as H0 by reflexivity.
  assert (dotCys 400 5 356 {| year := 2021; movies := 1; shows := 1; total := 2 |} !! 1%nat
          = Some (32310 # 100)%Q) as H1 by reflexivity.
  split; [exact H0|]. split; [exact H1|].
  apply (dotCys_disjoint 400 5 356
           {| year := 2021; movies := 1; shows := 1; total := 2 |} 0%nat 1%nat 342%Q (32310 # 100)%Q); [lia|exact H0|exact H1].
Defined.

End DotPlotFacts.

(** ** The revenue bars *)

Module RevenueChartFacts.
Import RevenueLoader RevenueChart.
Local Open Scope Q_scope.

Lemma sameValueZero_refl a : sameValueZero a a = true.
Proof. destruct a as [q|]; [|done]. apply Qeq_bool_iff. reflexivity. Qed.

Lemma sameValueZero_sym a b : sameValueZero a b = sameValueZero b a.
Proof.
  destruct a as [p|], b as [q|]; try done. cbn.
  destruct (Qeq_bool p q) eqn:E1, (Qeq_bool q p) eqn:E2; try done.
  - apply Qeq_bool_iff in E1. symmetry in E1. apply Qeq_bool_iff in E1. congruence.
  - apply Qeq_bool_iff in E2. symmetry in E2. apply Qeq_bool_iff in E2. congruence.
Qed.

Lemma sameValueZero_trans a b c :
  sameValueZero a b = true -> sameValueZero b c = true -> sameValueZero a c = true.
Proof.
  destruct a as [p|], b as [q|], c as [r|]; try done. cbn.
  rewrite !Qeq_bool_iff. intros -> ->. reflexivity.
Qed.

Lemma numEq_sameValueZero a b : Reviews.numEq a b = true -> sameValueZero a b = true.
Proof. by destruct a, b. Qed.

(** No two values of the list are the same value. *)
Inductive Distinct : list (option Q) -> Prop :=
| Distinct_nil : Distinct []
| Distinct_cons y ys :
    existsb (sameValueZero y) ys = false -> Distinct ys -> Distinct (y :: ys).

Lemma Distinct_snoc s v :
  Distinct s -> existsb (sameValueZero v) s = false -> Distinct (s ++ [v]).
Proof.
  induction 1 as [|y ys Hy Hd IH]; intros Hv; cbn.
  - by repeat constructor.
  - cbn in Hv. apply orb_false_iff in Hv as [Hvy Hv]. constructor; [|by apply IH].
    rewrite existsb_app, Hy. cbn. by rewrite sameValueZero_sym, Hvy.
Qed.

Lemma setOf_from s values :
  Distinct s ->
  Distinct (foldl setAdd s values) /\
  (forall v, existsb (sameValueZero v) (foldl setAdd s values) = true <->
             existsb (sameValueZero v) s = true \/
             existsb (sameValueZero v) values = true) /\
  (forall y, y ∈ foldl setAdd s values -> y ∈ s \/ y ∈ values).
Proof.
  revert s. induction values as [|a values IH]; intros s Hs; cbn [foldl].
  - split; [done|]. split; [|by left]. intros v. cbn. intuition congruence.
  - assert (Distinct (setAdd s a)) as Hs'.
    { unfold setAdd. destruct (existsb (sameValueZero a) s) eqn:E; [done|].
      by apply Distinct_snoc. }
    destruct (IH _ Hs') as (Hd & Hex & Hin). split; [exact Hd|]. split.
    + intros v. rewrite Hex. cbn [existsb]. unfold setAdd.
      destruct (existsb (sameValueZero a) s) eqn:E.
      * rewrite orb_true_iff. split; [tauto|]. intros [H|[H|H]]; try tauto.
        left. apply existsb_exists in E as (y & Hy & Hay).
        apply existsb_exists. exists y. split; [done|].
        eapply sameValueZero_trans; eassumption.
      * rewrite existsb_app, !orb_true_iff. cbn [existsb]. rewrite orb_false_r. tauto.
    + intros y Hy. apply Hin in Hy as [Hy|Hy]; [|right; by right].
      unfold setAdd in Hy. destruct (existsb (sameValueZero a) s); [by left|].
      apply elem_of_app in Hy as [Hy|Hy]; [by left|].
      apply list_elem_of_singleton in Hy as ->. right. left.
Qed.

Lemma Distinct_lookup ys i j a b :
  Distinct ys -> i <> j -> ys !! i = Some a -> ys !! j = Some b ->
  sameValueZero a b = false.
Proof.
  intros Hd. revert i j. induction Hd as [|y ys Hy Hd IH]; intros i j Hij Hi Hj.
  - done.
  - assert (forall z, z ∈ ys -> sameValueZero y z = false) as Hall.
    { intros z Hz. destruct (sameValueZero y z) eqn:E; [|done].
      assert (existsb (sameValueZero y) ys = true) as Hex; [|congruence].
      apply existsb_exists. exists z. split; [by apply list_elem_of_In|done]. }
    destruct i as [|i], j as [|j]; cbn in Hi, Hj; try done.
    + injection Hi as <-. apply Hall. by eapply list_elem_of_lookup_2.
    + injection Hj as <-. rewrite sameValueZero_sym. apply Hall.
      by eapply list_elem_of_lookup_2.
    + eapply IH; [|done..]. congruence.
Qed.

(** The sum of a list of amounts. *)
Definition total (l : list Q) : Q := foldr Qplus 0 l.

Lemma d3sum_from acc values :
  foldl (fun sum value => match value with Some v => sum + v | None => sum end)
    acc values
  == acc + d3sum values.
Proof.
  unfold d3sum. revert acc. induction values as [|[v|] values IH]; intros acc; cbn [foldl].
  - lra.
  - rewrite IH, (IH (0 + v)). lra.
  - apply IH.
Qed.

Lemma d3sum_cons v values :
  d3sum (v :: values) == from_option Datatypes.id 0 v + d3sum values.
Proof.
  unfold d3sum at 1. cbn [foldl]. destruct v as [v|]; rewrite d3sum_from; cbn; lra.
Qed.

Section Split.
(** One of the two tests on [isMarvel]. *)
Variable flag : Movie.t -> bool.

Definition contrib (y : option Q) (m : Movie.t) : Q :=
  if Reviews.numEq (Movie.releaseYear m) y && flag m
  then from_option Datatypes.id 0 (Movie.revenue m) else 0.

Definition counted (m : Movie.t) : Q :=
  if bool_decide (is_Some (Movie.releaseYear m)) && flag m
  then from_option Datatypes.id 0 (Movie.revenue m) else 0.

Lemma bar_contrib y movies :
  d3sum (Movie.revenue <$>
         List.filter flag
           (List.filter (fun movie => Reviews.numEq (Movie.releaseYear movie) y) movies))
  == total (contrib y <$> movies).
Proof.
  induction movies as [|m movies IH]; [reflexivity|].
  cbn [List.filter fmap list_fmap total foldr]. fold (total (contrib y <$> movies)).
  unfold contrib at 1.
  destruct (Reviews.numEq (Movie.releaseYear m) y); cbn [andb List.filter].
  - destruct (flag m); cbn [fmap list_fmap].
    + rewrite d3sum_cons, IH. reflexivity.
    + rewrite IH. lra.
  - rewrite IH. lra.
Qed.

Lemma contrib_row m ys :
  Distinct ys -> existsb (sameValueZero (Movie.releaseYear m)) ys = true ->
  total ((fun y => contrib y m) <$> ys) == counted m.
Proof.
  unfold counted, contrib. destruct (Movie.releaseYear m) as [q|] eqn:Eq.
  2:{ intros _ _. cbn [Reviews.numEq andb]. rewrite bool_decide_eq_false_2 by by intros [? ?].
      cbn [andb]. induction ys as [|y ys IH]; [reflexivity|].
      cbn [fmap list_fmap total foldr]. fold (total ((fun _ : option Q => 0) <$> ys)).
      rewrite IH. lra. }
  rewrite bool_decide_eq_true_2 by eauto. cbn [andb].
  set (g := from_option Datatypes.id 0 (Movie.revenue m)).
  assert (forall ys, existsb (sameValueZero (Some q)) ys = false ->
            total ((fun y => if Reviews.numEq (Some q) y && flag m then g else 0) <$> ys)
            == 0) as Hzero.
  { clear. intros ys. induction ys as [|y ys IH]; intros H; [reflexivity|].
    cbn [existsb] in H. apply orb_false_iff in H as [Hy H].
    cbn [fmap list_fmap total foldr].
    fold (total ((fun y => if Reviews.numEq (Some q) y && flag m then g else 0) <$> ys)).
    rewrite IH by done.
    assert (Reviews.numEq (Some q) y = false) as ->.
    { destruct (Reviews.numEq (Some q) y) eqn:E; [|done].
      apply numEq_sameValueZero in E. congruence. }
    cbn [andb]. lra. }
  induction 1 as [|y ys Hy Hd IH]; intros Hex; [done|].
  cbn [existsb] in Hex. cbn [fmap list_fmap total foldr].
  fold (total ((fun y => if Reviews.numEq (Some q) y && flag m then g else 0) <$> ys)).
  destruct (sameValueZero (Some q) y) eqn:E.
  - assert (existsb (sameValueZero (Some q)) ys = false) as Hnone.
    { destruct (existsb (sameValueZero (Some q)) ys) eqn:E'; [|done].
      apply existsb_exists in E' as (z & Hz & Hqz).
      assert (existsb (sameValueZero y) ys = true) as Hc; [|congruence].
      apply existsb_exists. exists z. split; [done|].
      eapply sameValueZero_trans; [|exact Hqz]. by rewrite sameValueZero_sym. }
    rewrite Hzero by done.
    assert (Reviews.numEq (Some q) y = true) as -> by (by destruct y).
    cbn [andb]. destruct (flag m); lra.
  - cbn [orb] in Hex. rewrite IH by done.
    assert (Reviews.numEq (Some q) y = false) as -> by (by destruct y).
    cbn [andb]. destruct (flag m); lra.
Qed.

Lemma total_swap movies ys :
  total ((fun y => total (contrib y <$> movies)) <$> ys)
  == total ((fun m => total ((fun y => contrib y m) <$> ys)) <$> movies).
Proof.
  induction movies as [|m movies IH].
  - cbn [fmap list_fmap total foldr].
    induction ys as [|y ys IHy]; [reflexivity|].
    cbn [fmap list_fmap total foldr]. fold (total ((fun _ : option Q => 0) <$> ys)).
    rewrite IHy. lra.
  - cbn [fmap list_fmap total foldr].
    fold (total ((fun m => total ((fun y => contrib y m) <$> ys)) <$> movies)).
    rewrite <- IH. clear IH.
    induction ys as [|y ys IHy]; [cbn; lra|].
    cbn [fmap list_fmap total foldr].
    fold (total (contrib y <$> movies)).
    fold (total ((fun y => contrib y m) <$> ys)).
    fold (total ((fun y => total (contrib y <$> movies)) <$> ys)).
    fold (total ((fun y => contrib y m + total (contrib y <$> movies)) <$> ys)).
    change (total ((fun y => foldr Qplus 0 (contrib y m :: (contrib y <$> movies))) <$> ys))
      with (total ((fun y => contrib y m + total (contrib y <$> movies)) <$> ys)) in IHy.
    rewrite IHy. lra.
Qed.

Lemma counted_total movies :
  total (counted <$> movies)
  == d3sum (Movie.revenue <$>
            List.filter (fun m => bool_decide (is_Some (Movie.releaseYear m)) && flag m)
              movies).
Proof.
  induction movies as [|m movies IH]; [reflexivity|].
  cbn [fmap list_fmap total foldr List.filter]. fold (total (counted <$> movies)).
  unfold counted at 1.
  destruct (bool_decide (is_Some (Movie.releaseYear m)) && flag m); cbn [fmap list_fmap].
  - rewrite d3sum_cons, IH. reflexivity.
  - rewrite IH. lra.
Qed.

Lemma total_ext {A} (f g : A -> Q) l :
  (forall a, a ∈ l -> f a == g a) -> total (f <$> l) == total (g <$> l).
Proof.
  induction l as [|a l IH]; intros H; [reflexivity|].
  cbn [fmap list_fmap total foldr]. fold (total (f <$> l)). fold (total (g <$> l)).
  rewrite IH by (intros; apply H; by right). rewrite (H a) by left. reflexivity.
Qed.

Lemma split_total movies :
  total ((fun y =>
            d3sum (Movie.revenue <$>
                   List.filter flag
                     (List.filter (fun movie => Reviews.numEq (Movie.releaseYear movie) y)
                        movies)))
         <$> setOf (Movie.releaseYear <$> movies))
  == d3sum (Movie.revenue <$>
            List.filter (fun m => bool_decide (is_Some (Movie.releaseYear m)) && flag m)
              movies).
Proof.
  destruct (setOf_from [] (Movie.releaseYear <$> movies) Distinct_nil) as (Hd & Hex & _).
  fold (setOf (Movie.releaseYear <$> movies)) in Hd, Hex.
  rewrite (total_ext _ (fun y => total (contrib y <$> movies)))
    by (intros; apply bar_contrib).
  rewrite total_swap, <- counted_total.
  apply total_ext. intros m Hm. apply contrib_row; [exact Hd|].
  apply Hex. right. apply existsb_exists. exists (Movie.releaseYear m).
  split; [|apply sameValueZero_refl].
  apply list_elem_of_In, list_elem_of_fmap. by exists m.
Qed.

End Split.

(** X26. The bars of the revenue chart: no two bars have the same year, the
    year of every movie has a bar, and every bar is the year of some movie.
    A movie whose release year is not a number has a bar too (labelled NaN),
    and both revenues of that bar are 0. *)
Theorem formattedData_years (movies : list Movie.t) :
  let bars := formattedData movies in
  (forall i j a b, i <> j -> bars !! i = Some a -> bars !! j = Some b ->
     sameValueZero (year a) (year b) = false) /\
  (forall m, m ∈ movies ->
     exists bar, bar ∈ bars /\ sameValueZero (Movie.releaseYear m) (year bar) = true) /\
  (forall bar, bar ∈ bars ->
     exists m, m ∈ movies /\ Movie.releaseYear m = year bar) /\
  (forall bar, bar ∈ bars -> year bar = None ->
     marvelRevenue bar = 0 /\ otherMoviesRevenue bar = 0).
Proof.
  cbv zeta. unfold formattedData. cbv zeta. set (mk := fun year => _).
  destruct (setOf_from [] (Movie.releaseYear <$> movies) Distinct_nil) as (Hd & Hex & Hin).
  fold (setOf (Movie.releaseYear <$> movies)) in Hd, Hex, Hin.
  split; [|split; [|split]].
  - intros i j a b Hij Ha Hb.
    apply list_lookup_fmap_Some in Ha as (ya & -> & Ha), Hb as (yb & -> & Hb).
    exact (Distinct_lookup _ i j ya yb Hd Hij Ha Hb).
  - intros m Hm.
    assert (existsb (sameValueZero (Movie.releaseYear m))
              (setOf (Movie.releaseYear <$> movies)) = true) as H.
    { apply Hex. right. apply existsb_exists. exists (Movie.releaseYear m).
      split; [|apply sameValueZero_refl].
      apply list_elem_of_In, list_elem_of_fmap. by exists m. }
    apply existsb_exists in H as (y & Hy & Hmy). exists (mk y).
    split; [|exact Hmy]. apply list_elem_of_fmap. exists y.
    split; [done|by apply list_elem_of_In].
  - intros bar Hbar. apply list_elem_of_fmap in Hbar as (y & -> & Hy).
    apply Hin in Hy as [Hy|Hy]; [by apply elem_of_nil in Hy|].
    apply list_elem_of_fmap in Hy as (m & -> & Hm). by exists m.
  - intros bar Hbar Hnan. apply list_elem_of_fmap in Hbar as (y & -> & Hy).
    cbn in Hnan. subst y. cbn [mk marvelRevenue otherMoviesRevenue].
    assert (List.filter (fun movie => Reviews.numEq (Movie.releaseYear movie) None) movies
            = []) as ->; [|done].
    clear. induction movies as [|m movies IH]; [done|]. cbn [List.filter].
    by destruct (Movie.releaseYear m).
Qed.

(** X27. No revenue is lost or counted twice: the Marvel revenues of the bars
    add up to the revenue of the movies marked "true" whose release year is a
    number, and the other revenues to that of the movies marked "false" whose
    release year is a number (a revenue that is not a number counts as 0). *)
Theorem formattedData_conserves_revenue (movies : list Movie.t) :
  let numbered flagValue m :=
    bool_decide (is_Some (Movie.releaseYear m))
    && bool_decide (Movie.isMarvel m = Some flagValue) in
  total (marvelRevenue <$> formattedData movies)
    == d3sum (Movie.revenue <$> List.filter (numbered "true"%string) movies) /\
  total (otherMoviesRevenue <$> formattedData movies)
    == d3sum (Movie.revenue <$> List.filter (numbered "false"%string) movies).
Proof.
  cbv zeta. unfold formattedData. cbv zeta. rewrite <- !list_fmap_compose.
  split.
  - exact (split_total (fun m => bool_decide (Movie.isMarvel m = Some "true"%string)) movies).
  - exact (split_total (fun m => bool_decide (Movie.isMarvel m = Some "false"%string)) movies).
Qed.

End RevenueChartFacts.

(** ** Wrapping a note into lines *)

Module SvgTextFacts.
Import SvgText.
Local Open Scope Q_scope.

Section WrapFacts.
Variable getComputedTextLength : string -> Q.
Variable maxWidthPx : Q.

(** A line of two words or more is not wider than the limit. *)
Definition fits (line : list string) : Prop :=
  (1 < length line)%nat -> getComputedTextLength (join line) <= maxWidthPx.

(** The first word of the next line did not fit at the end of the line. *)
Definition full (line next : list string) : Prop :=
  exists w, head next = Some w /\
            maxWidthPx < getComputedTextLength (join (line ++ [w])).

(** Each line but the last is [full] with respect to the line after it. *)
Fixpoint greedy (lines : list (list string)) : Prop :=
  match lines with
  | l1 :: (l2 :: _) as rest => full l1 l2 /\ greedy rest
  | _ => True
  end.

Lemma greedy_last_changed done line line' :
  head line = head line' -> greedy (done ++ [line]) -> greedy (done ++ [line']).
Proof.
  intros Hh. induction done as [|l1 done IH]; [done|].
  destruct done as [|l2 done].
  - cbn. intros [(w & Hw & Hfull) _]. split; [|done]. exists w. by rewrite <- Hh.
  - cbn [app greedy] in *. intros [H1 H2]. split; [exact H1|by apply IH].
Qed.

Lemma greedy_added done line next :
  full line next -> greedy (done ++ [line]) -> greedy ((done ++ [line]) ++ [next]).
Proof.
  intros Hfull. induction done as [|l1 done IH]; [by cbn|].
  destruct done as [|l2 done].
  - cbn. intros [H1 _]. done.
  - cbn [app greedy] in *. intros [H1 H2]. split; [exact H1|by apply IH].
Qed.

(** What holds of the state after any number of words. *)
Definition invariant (ws : list string) (st : list (list string) * list string) : Prop :=
  concat (fst st ++ [snd st]) = ws /\
  Forall (fun line => line <> []) (fst st) /\
  (ws <> [] -> snd st <> []) /\
  Forall fits (fst st ++ [snd st]) /\
  greedy (fst st ++ [snd st]).

Lemma pushWord_invariant ws st w :
  invariant ws st -> invariant (ws ++ [w]) (pushWord getComputedTextLength maxWidthPx st w).
Proof.
  destruct st as [done line]. unfold invariant, pushWord. cbn [fst snd].
  intros (Hcat & Hne & Hline & Hfits & Hgreedy).
  destruct (JS.Qltb maxWidthPx (getComputedTextLength (join (line ++ [w])))
            && (1 <? length (line ++ [w]))%nat) eqn:E; cbn [fst snd].
  - apply andb_true_iff in E as [Hwide Hlen].
    apply Nat.ltb_lt in Hlen. rewrite length_app in Hlen. cbn in Hlen.
    assert (line <> []) as Hl by (intros ->; cbn in Hlen; lia).
    rewrite removelast_last.
    split; [|split; [|split; [|split]]].
    + rewrite concat_app, Hcat. cbn. by rewrite ?app_nil_r.
    + apply Forall_app. split; [done|]. by constructor.
    + done.
    + apply Forall_app. split; [exact Hfits|]. constructor; [|done].
      intros H. cbn in H. lia.
    + apply greedy_added; [|exact Hgreedy]. exists w. split; [done|].
      unfold JS.Qltb in Hwide. apply negb_true_iff in Hwide.
      apply Qnot_le_lt. intros Hle. apply Qle_bool_iff in Hle. congruence.
  - split; [|split; [|split; [|split]]].
    + rewrite concat_app in *. cbn in *. rewrite app_nil_r in *.
      by rewrite <- Hcat, app_assoc.
    + done.
    + intros _. by destruct line.
    + apply Forall_app in Hfits as [Hdone _]. apply Forall_app. split; [done|].
      constructor; [|done]. intros Hlen.
      apply andb_false_iff in E as [E|E].
      * unfold JS.Qltb in E. apply negb_false_iff in E. by apply Qle_bool_iff.
      * apply Nat.ltb_ge in E. lia.
    + destruct done as [|l1 done _] using rev_ind; [done|].
      assert (line <> []) as Hl.
      { apply Hline. intros ->. rewrite concat_app in Hcat. cbn in Hcat.
        apply app_eq_nil in Hcat as [Hcat _].
        rewrite concat_app in Hcat. apply app_eq_nil in Hcat as [_ Hcat].
        cbn in Hcat. rewrite app_nil_r in Hcat. subst l1.
        apply Forall_app in Hne as [_ Hne]. by inversion Hne. }
      eapply greedy_last_changed; [|exact Hgreedy]. by destruct line.
Qed.

Lemma foldl_invariant ws0 st ws :
  invariant ws0 st ->
  invariant (ws0 ++ ws) (foldl (pushWord getComputedTextLength maxWidthPx) st ws).
Proof.
  revert ws0 st. induction ws as [|w ws IH]; intros ws0 st H; cbn [foldl].
  - by rewrite app_nil_r.
  - rewrite (assoc_L (++) ws0 [w] ws : ws0 ++ w :: ws = (ws0 ++ [w]) ++ ws).
    apply IH. by apply pushWord_invariant.
Qed.

Lemma greedy_lookup lines i l1 l2 :
  greedy lines -> lines !! i = Some l1 -> lines !! S i = Some l2 -> full l1 l2.
Proof.
  revert i. induction lines as [|a lines IH]; intros i Hg H1 H2; [done|].
  destruct lines as [|b lines]; [done|]. destruct Hg as [Hab Hg].
  destruct i as [|i].
  - cbn in H1, H2. by simplify_eq.
  - by apply (IH i).
Qed.

(** X28. Wrapping a note: the lines hold the words of the note in order, none
    lost and none twice; with at least one word no line is empty; a line of
    two words or more is not wider than the limit (a single word may be);
    and the wrapping is greedy: the first word of each following line did not
    fit at the end of the line before. *)
Theorem wrapLines_wraps (ws : list string) :
  let lines := wrapLines getComputedTextLength maxWidthPx ws in
  concat lines = ws /\
  (ws <> [] -> Forall (fun line => line <> []) lines) /\
  Forall (fun line =>
            (1 < length line)%nat -> getComputedTextLength (join line) <= maxWidthPx)
    lines /\
  (forall i l1 l2, lines !! i = Some l1 -> lines !! S i = Some l2 ->
     exists w, head l2 = Some w /\
               maxWidthPx < getComputedTextLength (join (l1 ++ [w]))).
Proof.
  cbv zeta. unfold wrapLines. cbv zeta.
  assert (invariant [] ([], [])) as H0.
  { unfold invariant. cbn. repeat split; try done.
    constructor; [|done]. intros H. cbn in H. lia. }
  apply (foldl_invariant [] _ ws) in H0. cbn [app] in H0.
  destruct H0 as (Hcat & Hne & Hline & Hfits & Hgreedy).
  split; [exact Hcat|]. split; [|split; [exact Hfits|]].
  - intros Hws. apply Forall_app. split; [exact Hne|]. constructor; [by apply Hline|done].
  - intros i l1 l2 H1 H2. exact (greedy_lookup _ i l1 l2 Hgreedy H1 H2).
Qed.

End WrapFacts.








End SvgTextFacts.
